(** * source-flattener: the scanners, the whitespace normaliser, the
      chunk splitter, the dispatch on the extension and the assembly of
      the output of [flattern.py], embedded as Rocq functions.

    A Python [str] is a sequence of Unicode code points: a character is
    modelled as its code point (an [N]) and a string as a list of them.
    Indices and sizes that the source compares with [-1] or with a signed
    budget are integers ([Z]). *)

From Stdlib Require Import List Bool NArith ZArith Lia.
From Stdlib Require String Ascii.
Import ListNotations.
Import String.StringSyntax.
Delimit Scope string_scope with string.

(* ================================================================== *)
(** ** Characters and strings *)

Abbreviation char := N (only parsing).
Abbreviation str := (list N) (only parsing).

Definition NL : char := 10%N.      (* "\n" *)
Definition CR : char := 13%N.      (* "\r" *)
Definition TAB : char := 9%N.      (* "\t" *)
Definition SP : char := 32%N.      (* " " *)
Definition BOM : char := 65279%N.  (* U+FEFF, the byte-order mark *)
Definition DQ : char := 34%N.      (* the double quote *)
Definition SQ : char := 39%N.      (* the single quote *)
Definition BT : char := 96%N.      (* the backtick *)
Definition BS : char := 92%N.      (* the backslash *)
Definition SLASH : char := 47%N.   (* "/" *)
Definition STAR : char := 42%N.    (* "*" *)
Definition DASH : char := 45%N.    (* "-" *)
Definition HASH : char := 35%N.    (* "#" *)
Definition LT : char := 60%N.      (* "<" *)
Definition GT : char := 62%N.      (* ">" *)
Definition BANG : char := 33%N.    (* "!" *)

(** An ASCII constant of the source as a [str]. *)
Definition lit (s : String.string) : str :=
  map Ascii.N_of_ascii (String.list_ascii_of_string s).
Arguments lit s%_string.

Definition eqc (a b : char) : bool := N.eqb a b.
Arguments eqc : simpl never.

(** [nxt == c] where [nxt] is [text[i + 1]], or the empty string ([None])
    at the end of the text. *)
Definition is_ch (nxt : option char) (c : char) : bool :=
  match nxt with
  | Some d => eqc d c
  | None => false
  end.

Fixpoint eqs (a b : str) : bool :=
  match a, b with
  | [], [] => true
  | x :: a', y :: b' => eqc x y && eqs a' b'
  | _, _ => false
  end.

(** [len(s)] as a Python integer. *)
Definition len (s : str) : Z := Z.of_nat (length s).

(** [s[a:b]] for [0 <= a], [0 <= b]. *)
Definition slice (s : str) (a b : Z) : str :=
  skipn (Z.to_nat a) (firstn (Z.to_nat b) s).

(** [s[a:]] for [0 <= a]. *)
Definition slice_from (s : str) (a : Z) : str := skipn (Z.to_nat a) s.

(** [s[:b]] for [0 <= b]. *)
Definition slice_to (s : str) (b : Z) : str := firstn (Z.to_nat b) s.

(** [s.startswith(p)]. *)
Fixpoint starts_with (p s : str) : bool :=
  match p, s with
  | [], _ => true
  | x :: p', y :: s' => eqc x y && starts_with p' s'
  | _ :: _, [] => false
  end.

(** [s.find(sub)]: the lowest index where [sub] occurs, [-1] when it does
    not. *)
Fixpoint find (sub s : str) : Z :=
  if starts_with sub s then 0%Z
  else match s with
       | [] => (-1)%Z
       | _ :: s' => let r := find sub s' in
                    if (r <? 0)%Z then (-1)%Z else (r + 1)%Z
       end.

(** [sub in s]. *)
Definition contains (sub s : str) : bool := (0 <=? find sub s)%Z.

(** The candidates [start + k - 1], ..., [start] tried from the highest. *)
Fixpoint rfind_down (sub s : str) (start : Z) (k : nat) : Z :=
  match k with
  | O => (-1)%Z
  | S k' =>
      let i := (start + Z.of_nat k')%Z in
      if starts_with sub (slice_from s i) then i
      else rfind_down sub s start k'
  end.

(** [s.rfind(sub, start, end)] for [0 <= start] and [0 <= end <= len(s)]:
    the highest index [i] with [start <= i], [i + len(sub) <= end] and
    [s[i : i + len(sub)] == sub]; [-1] when there is none. *)
Definition rfind (sub s : str) (start end_ : Z) : Z :=
  rfind_down sub (slice_to s end_) start
             (Z.to_nat (end_ - len sub - start + 1)).

(** [s.replace(old, new)] for a non-empty [old]: the occurrences of [old]
    are replaced from the left and do not overlap. [skip] counts the
    characters of a matched [old] that are still to be passed over. *)
Fixpoint replace_from (skip : nat) (old new s : str) : str :=
  match s with
  | [] => []
  | c :: s' =>
      match skip with
      | S k => replace_from k old new s'
      | O => if starts_with old s
             then new ++ replace_from (length old - 1) old new s'
             else c :: replace_from 0 old new s'
      end
  end.

Definition replace (old new s : str) : str := replace_from 0 old new s.

(** [s.split(sep)] for a one-character separator: the current field is
    built in [cur]. The result is never empty. *)
Fixpoint split_acc (sep : char) (cur : str) (s : str) : list str :=
  match s with
  | [] => [cur]
  | c :: s' => if eqc c sep then cur :: split_acc sep [] s'
               else split_acc sep (cur ++ [c]) s'
  end.

Definition split (sep : char) (s : str) : list str := split_acc sep [] s.

(** [sep.join(parts)]. *)
Fixpoint join (sep : str) (parts : list str) : str :=
  match parts with
  | [] => []
  | [p] => p
  | p :: rest => p ++ sep ++ join sep rest
  end.

(** The characters [str.strip()] and [str.rstrip()] remove: the code
    points for which CPython's [Py_UNICODE_ISSPACE] holds. *)
Definition isspace (c : char) : bool :=
  ((9 <=? c) && (c <=? 13) || (28 <=? c) && (c <=? 32)
   || (c =? 133) || (c =? 160) || (c =? 5760)
   || (8192 <=? c) && (c <=? 8202)
   || (c =? 8232) || (c =? 8233) || (c =? 8239) || (c =? 8287)
   || (c =? 12288))%N.

(** [s.lstrip()]. *)
Fixpoint lstrip (s : str) : str :=
  match s with
  | [] => []
  | c :: s' => if isspace c then lstrip s' else s
  end.

(** [s.rstrip()]. *)
Fixpoint rstrip (s : str) : str :=
  match s with
  | [] => []
  | c :: s' =>
      match rstrip s' with
      | [] => if isspace c then [] else [c]
      | r => c :: r
      end
  end.

(** [s.strip()]. *)
Definition strip (s : str) : str := rstrip (lstrip s).

(** [s.expandtabs(tabsize)]: [col] is the column reached on the current
    line; a tab becomes the spaces up to the next multiple of [tabsize]
    (nothing when [tabsize <= 0]); a newline or carriage return starts a
    new line. *)
Fixpoint expandtabs_from (col : Z) (tabsize : Z) (s : str) : str :=
  match s with
  | [] => []
  | c :: s' =>
      if eqc c TAB then
        if (0 <? tabsize)%Z then
          let incr := (tabsize - col mod tabsize)%Z in
          repeat SP (Z.to_nat incr) ++ expandtabs_from (col + incr) tabsize s'
        else expandtabs_from col tabsize s'
      else
        c :: expandtabs_from (if eqc c NL || eqc c CR then 0 else col + 1)
                             tabsize s'
  end.

Definition expandtabs (tabsize : Z) (s : str) : str :=
  expandtabs_from 0 tabsize s.

(* ================================================================== *)
(** ** [strip_c_like_comments] *)

(** The local variables of the scanner. [quote] is a string in the source,
    empty until a string literal has been opened ([None]). *)
Record c_state := mk_c {
  in_line : bool; in_block : bool; in_str : bool; in_char : bool;
  escape : bool; quote : option char }.

Definition c_init : c_state := mk_c false false false false false None.

Definition c_set_in_line (st : c_state) (b : bool) : c_state :=
  mk_c b (in_block st) (in_str st) (in_char st) (escape st) (quote st).
Definition c_set_in_block (st : c_state) (b : bool) : c_state :=
  mk_c (in_line st) b (in_str st) (in_char st) (escape st) (quote st).
Definition c_set_in_str (st : c_state) (b : bool) : c_state :=
  mk_c (in_line st) (in_block st) b (in_char st) (escape st) (quote st).
Definition c_set_in_char (st : c_state) (b : bool) : c_state :=
  mk_c (in_line st) (in_block st) (in_str st) b (escape st) (quote st).
Definition c_set_escape (st : c_state) (b : bool) : c_state :=
  mk_c (in_line st) (in_block st) (in_str st) (in_char st) b (quote st).
Definition c_open_str (st : c_state) (q : char) : c_state :=
  mk_c (in_line st) (in_block st) true (in_char st) (escape st) (Some q).

(** How one pass through a loop body moves the index [i]. *)
Inductive advance : Type :=
| By1      (* i += 1 *)
| By2      (* i += 2 *)
| ToEol    (* the inner loop of the SQL scanner: up to the next "\n" *)
| Break.   (* the line scanners leave the loop at "#" *)

(** One pass through the body of the [while] loop at [ch = text[i]],
    [nxt = text[i + 1]]: the new state, the characters appended to [out]
    and the move of [i]. *)
Definition c_iter (st : c_state) (ch : char) (nxt : option char)
  : c_state * str * advance :=
  if in_line st then
    if eqc ch NL then (c_set_in_line st false, [ch], By1)
    else (st, [], By1)
  else if in_block st then
    if eqc ch STAR && is_ch nxt SLASH then (c_set_in_block st false, [], By2)
    else (st, [], By1)
  else if in_str st || in_char st then
    (if escape st then c_set_escape st false
     else if eqc ch BS then c_set_escape st true
     else if in_str st && is_ch (quote st) ch then c_set_in_str st false
     else if in_char st && eqc ch SQ then c_set_in_char st false
     else st,
     [ch], By1)
  else if eqc ch SLASH && is_ch nxt SLASH then (c_set_in_line st true, [], By2)
  else if eqc ch SLASH && is_ch nxt STAR then (c_set_in_block st true, [], By2)
  else if eqc ch DQ || eqc ch BT then (c_open_str st ch, [ch], By1)
  else if eqc ch SQ then (c_set_in_char st true, [ch], By1)
  else (st, [ch], By1).

(** The [while i < n] loop on the text from index [i] on: the characters
    appended to [out] and the state when the loop is left. *)
Fixpoint c_loop (st : c_state) (text : str) : str * c_state :=
  match text with
  | [] => ([], st)
  | ch :: rest =>
      let '(st', emit, adv) := c_iter st ch (hd_error rest) in
      let '(o, fin) :=
        match adv, rest with
        | By2, _ :: rest' => c_loop st' rest'
        | _, _ => c_loop st' rest
        end in
      (emit ++ o, fin)
  end.

Definition strip_c_like_comments (text : str) : str :=
  fst (c_loop c_init text).

(* ================================================================== *)
(** ** [strip_sql_comments] *)

Record s_state := mk_s {
  s_in_block : bool; s_in_str : bool; s_quote : option char;
  s_escape : bool }.

Definition s_init : s_state := mk_s false false None false.

Definition s_set_in_block (st : s_state) (b : bool) : s_state :=
  mk_s b (s_in_str st) (s_quote st) (s_escape st).
Definition s_set_in_str (st : s_state) (b : bool) : s_state :=
  mk_s (s_in_block st) b (s_quote st) (s_escape st).
Definition s_set_escape (st : s_state) (b : bool) : s_state :=
  mk_s (s_in_block st) (s_in_str st) (s_quote st) b.
Definition s_open_str (st : s_state) (q : char) : s_state :=
  mk_s (s_in_block st) true (Some q) (s_escape st).

(** One pass through the body of the outer [while] loop. At two dashes the
    body runs its inner loop ([ToEol]) and appends nothing. *)
Definition s_iter (st : s_state) (ch : char) (nxt : option char)
  : s_state * str * advance :=
  if s_in_block st then
    if eqc ch STAR && is_ch nxt SLASH then (s_set_in_block st false, [], By2)
    else (st, [], By1)
  else if s_in_str st then
    (if s_escape st then s_set_escape st false
     else if eqc ch BS then s_set_escape st true
     else if is_ch (s_quote st) ch then s_set_in_str st false
     else st,
     [ch], By1)
  else if eqc ch SQ || eqc ch DQ then (s_open_str st ch, [ch], By1)
  else if eqc ch SLASH && is_ch nxt STAR then (s_set_in_block st true, [], By2)
  else if eqc ch DASH && is_ch nxt DASH then (st, [], ToEol)
  else (st, [ch], By1).

(** The text from the next newline on (the empty text when there is none):
    where the inner loop, which moves [i] while [text[i]] is not a newline,
    leaves [i]. *)
Fixpoint skip_to_nl (text : str) : str :=
  match text with
  | [] => []
  | c :: text' => if eqc c NL then text else skip_to_nl text'
  end.

(** The outer [while i < n] loop. The inner loop starts at a dash, so its
    first pass always moves on; it is the local [to_eol]. *)
Fixpoint s_loop (st : s_state) (text : str) : str * s_state :=
  match text with
  | [] => ([], st)
  | ch :: rest =>
      let '(st', emit, adv) := s_iter st ch (hd_error rest) in
      let '(o, fin) :=
        match adv with
        | By2 => match rest with
                 | _ :: rest' => s_loop st' rest'
                 | [] => ([], st')
                 end
        | ToEol =>
            (fix to_eol (t : str) : str * s_state :=
               match t with
               | [] => ([], st')
               | c :: t' => if eqc c NL then s_loop st' t else to_eol t'
               end) rest
        | _ => s_loop st' rest
        end in
      (emit ++ o, fin)
  end.

Definition strip_sql_comments (text : str) : str :=
  fst (s_loop s_init text).

(* ================================================================== *)
(** ** [strip_hash_line_comments] and [strip_python_comments] *)

(** The variables of the scan of one line, the same in both functions. *)
Record l_state := mk_l { l_in_str : bool; l_quote : option char;
                         l_escape : bool }.

Definition l_init : l_state := mk_l false None false.

Definition l_set_in_str (st : l_state) (b : bool) : l_state :=
  mk_l b (l_quote st) (l_escape st).
Definition l_set_escape (st : l_state) (b : bool) : l_state :=
  mk_l (l_in_str st) (l_quote st) b.
Definition l_open_str (st : l_state) (q : char) : l_state :=
  mk_l true (Some q) (l_escape st).

(** One pass through the body of [while i < len(line)] in
    [strip_hash_line_comments]. *)
Definition h_iter (st : l_state) (ch : char) : l_state * str * advance :=
  if l_in_str st then
    (if l_escape st then l_set_escape st false
     else if eqc ch BS then l_set_escape st true
     else if is_ch (l_quote st) ch then l_set_in_str st false
     else st,
     [ch], By1)
  else if eqc ch SQ || eqc ch DQ then (l_open_str st ch, [ch], By1)
  else if eqc ch HASH then (st, [], Break)
  else (st, [ch], By1).

(** The scan of a line from index [i] on: the characters appended to [buf]
    and the state at the end of the line, or [None] when the loop was left
    at a hash sign. *)
Fixpoint h_loop (st : l_state) (line : str) : str * option l_state :=
  match line with
  | [] => ([], Some st)
  | ch :: rest =>
      let '(st', emit, adv) := h_iter st ch in
      match adv with
      | Break => (emit, None)
      | _ => let '(o, fin) := h_loop st' rest in (emit ++ o, fin)
      end
  end.

(** [text.replace("\r\n", "\n").replace("\r", "\n")]. *)
Definition unix_newlines (text : str) : str :=
  replace [CR] [NL] (replace [CR; NL] [NL] text).

Definition strip_hash_line_comments (text : str) : str :=
  join [NL]
       (map (fun line => fst (h_loop l_init line))
            (split NL (unix_newlines text))).

(** One pass through the body of [while i < len(line)] in
    [strip_python_comments]. *)
Definition py_iter (st : l_state) (ch : char) : l_state * str * advance :=
  if l_in_str st then
    (if l_escape st then l_set_escape st false
     else if eqc ch BS then l_set_escape st true
     else if is_ch (l_quote st) ch then l_set_in_str st false
     else st,
     [ch], By1)
  else if eqc ch SQ || eqc ch DQ then (l_open_str st ch, [ch], By1)
  else if eqc ch HASH then (st, [], Break)
  else (st, [ch], By1).

Fixpoint py_loop (st : l_state) (line : str) : str * option l_state :=
  match line with
  | [] => ([], Some st)
  | ch :: rest =>
      let '(st', emit, adv) := py_iter st ch in
      match adv with
      | Break => (emit, None)
      | _ => let '(o, fin) := py_loop st' rest in (emit ++ o, fin)
      end
  end.

Definition TRIPLE_SQ : str := [SQ; SQ; SQ].
Definition TRIPLE_DQ : str := [DQ; DQ; DQ].

(** The [for q in (...)] loop over the two triple quotes, single quotes
    first, with its [break]: the new [in_triple], [triple_quote] and
    [line]. *)
Definition py_open (in_triple : bool) (triple_quote line : str)
  : bool * str * str :=
  let idx := find TRIPLE_SQ line in
  if negb (idx =? -1)%Z then (true, TRIPLE_SQ, slice_to line idx)
  else
    let idx := find TRIPLE_DQ line in
    if negb (idx =? -1)%Z then (true, TRIPLE_DQ, slice_to line idx)
    else (in_triple, triple_quote, line).

(** [for line in s.split("\n")]: the lines appended to [out_lines]. A line
    inside a triple-quoted region that does not hold the closing quotes is
    passed over by [continue]. *)
Fixpoint py_lines (strip_docstrings in_triple : bool) (triple_quote : str)
                  (lines : list str) : list str :=
  match lines with
  | [] => []
  | line :: rest =>
      if strip_docstrings then
        if in_triple && negb (contains triple_quote line) then
          py_lines strip_docstrings in_triple triple_quote rest
        else
          let '(in_triple1, line1) :=
            if in_triple
            then (false, slice_from line (find triple_quote line + 3))
            else (in_triple, line) in
          let '(in_triple2, triple_quote2, line2) :=
            py_open in_triple1 triple_quote line1 in
          fst (py_loop l_init line2)
            :: py_lines strip_docstrings in_triple2 triple_quote2 rest
      else
        fst (py_loop l_init line)
          :: py_lines strip_docstrings in_triple triple_quote rest
  end.

Definition strip_python_comments (text : str) (strip_docstrings : bool)
  : str :=
  join [NL]
       (py_lines strip_docstrings false [] (split NL (unix_newlines text))).

(* ================================================================== *)
(** ** [strip_html_comments] *)

Definition HTML_OPEN : str := [LT; BANG; DASH; DASH].
Definition HTML_CLOSE : str := [DASH; DASH; GT].

(** The length of the match of the pattern (the opener, any characters,
    as few as possible, newlines too, and the closer) at the start of
    [s]. *)
Definition html_match (s : str) : option nat :=
  if starts_with HTML_OPEN s then
    let k := find HTML_CLOSE (skipn 4 s) in
    if (k <? 0)%Z then None else Some (4 + Z.to_nat k + 3)
  else None.

(** [re.sub] with the empty replacement: the leftmost match is removed and
    the search goes on behind it. [skip] counts the characters of a match
    that are still to be passed over. *)
Fixpoint html_sub (skip : nat) (s : str) : str :=
  match s with
  | [] => []
  | c :: s' =>
      match skip with
      | S k => html_sub k s'
      | O => match html_match s with
             | Some n => html_sub (n - 1) s'
             | None => c :: html_sub 0 s'
             end
      end
  end.

Definition strip_html_comments (text : str) : str := html_sub 0 text.

(* ================================================================== *)
(** ** [normalise_whitespace] *)

(** [for ln in lines] with the counter [blank_run]: the lines appended to
    [collapsed]. *)
Fixpoint collapse (collapse_blank_to blank_run : Z) (lines : list str)
  : list str :=
  match lines with
  | [] => []
  | ln :: rest =>
      match ln with
      | [] =>
          let blank_run := (blank_run + 1)%Z in
          if (blank_run <=? collapse_blank_to)%Z
          then [] :: collapse collapse_blank_to blank_run rest
          else collapse collapse_blank_to blank_run rest
      | _ => ln :: collapse collapse_blank_to 0 rest
      end
  end.

Definition normalise_whitespace (text : str)
                                (tab_spaces collapse_blank_to : Z) : str :=
  let text := replace [BOM] [] text in
  let text := replace [CR] [NL] (replace [CR; NL] [NL] text) in
  let text := expandtabs tab_spaces text in
  let lines := map rstrip (split NL text) in
  let collapsed := collapse collapse_blank_to 0 lines in
  let out := strip (join [NL] collapsed) in
  match out with
  | [] => []
  | _ => out ++ [NL]
  end.

(* ================================================================== *)
(** ** [chunk_text] *)

Definition FILE_MARK : str := NL :: lit "===== FILE:".
Definition BLANK_LINE : str := [NL; NL].

(** The value of [end] when the chunk is cut, for the loop at [start]. *)
Definition next_end (text : str) (max_chunk_chars start : Z) : Z :=
  let end_ := Z.min (start + max_chunk_chars) (len text) in
  if (end_ <? len text)%Z then
    let split_pos := rfind FILE_MARK text start end_ in
    if (split_pos =? -1)%Z || (split_pos <=? start)%Z then
      let split_pos := rfind BLANK_LINE text start end_ in
      if (split_pos =? -1)%Z || (split_pos <=? start)%Z then end_
      else split_pos
    else split_pos
  else end_.

(** [while start < len(text)]: the chunks appended from [start] on. The
    loop is run for at most [fuel] passes; [None] when they do not
    suffice. *)
Fixpoint chunk_loop (fuel : nat) (text : str) (max_chunk_chars start : Z)
  : option (list str) :=
  if (start <? len text)%Z then
    match fuel with
    | O => None
    | S fuel' =>
        let end_ := next_end text max_chunk_chars start in
        let chunk := strip (slice text start end_) in
        match chunk_loop fuel' text max_chunk_chars end_ with
        | None => None
        | Some chunks =>
            Some (match chunk with
                  | [] => chunks
                  | _ => (chunk ++ [NL]) :: chunks
                  end)
        end
    end
  else Some [].

Definition chunk_text_run (fuel : nat) (text : str) (max_chunk_chars : Z)
  : option (list str) :=
  if (max_chunk_chars <=? 0)%Z || (len text <=? max_chunk_chars)%Z then
    Some (match text with [] => [] | _ => [text] end)
  else chunk_loop fuel text max_chunk_chars 0.

(** [chunk_text]: one pass per character of the text is always enough,
    as is proved below. *)
Definition chunk_text (text : str) (max_chunk_chars : Z) : list str :=
  match chunk_text_run (length text) text max_chunk_chars with
  | Some chunks => chunks
  | None => []
  end.

(* ================================================================== *)
(** ** [process_content] *)

Section Process.

(** [str.lower], of which the function uses no more than that its result
    is compared with the extensions below. *)
Variable lower : str -> str.

Definition HTML_EXTS : list str := [lit ".html"; lit ".htm"; lit ".md"].
Definition HASH_EXTS : list str :=
  [lit ".sh"; lit ".bash"; lit ".zsh"; lit ".ps1"].
Definition C_LIKE_EXTS : list str :=
  [lit ".js"; lit ".ts"; lit ".tsx"; lit ".jsx"; lit ".java"; lit ".c";
   lit ".cpp"; lit ".h"; lit ".hpp"; lit ".cs"; lit ".css"; lit ".php";
   lit ".rs"; lit ".go"].

Definition process_content (text ext : str)
                           (strip_comments strip_py_docstrings : bool)
  : str :=
  if negb strip_comments then text
  else
    let e := lower ext in
    if eqs e (lit ".py") then strip_python_comments text strip_py_docstrings
    else if existsb (eqs e) HTML_EXTS then strip_html_comments text
    else if eqs e (lit ".sql") then strip_sql_comments text
    else if existsb (eqs e) HASH_EXTS then strip_hash_line_comments text
    else if existsb (eqs e) C_LIKE_EXTS then
      let s := strip_c_like_comments text in
      if eqs e (lit ".php") then strip_hash_line_comments s else s
    else text.

End Process.

(* ================================================================== *)
(** ** [main]: the combined document and the names of the output files *)

(** [SEPARATOR.format(relpath=relpath)]. *)
Definition SEPARATOR (relpath : str) : str :=
  [NL; NL] ++ lit "===== FILE: " ++ relpath ++ lit " =====" ++ [NL; NL].

(** The loop over the files from the call of [normalise_whitespace] on,
    for files given by [str(relpath)] and their processed content: the
    texts appended to [collected_parts]. A file whose normalised content
    is empty is passed over by [continue]. *)
Fixpoint collected_parts (tab_spaces collapse_blank_to : Z)
                         (files : list (str * str)) : list str :=
  match files with
  | [] => []
  | (relpath, processed) :: rest =>
      let normalised :=
        normalise_whitespace processed tab_spaces collapse_blank_to in
      match normalised with
      | [] => collected_parts tab_spaces collapse_blank_to rest
      | _ =>
          let header := SEPARATOR (replace [BS] [SLASH] relpath) in
          (header ++ normalised)
            :: collected_parts tab_spaces collapse_blank_to rest
      end
  end.

(** [combined]. *)
Definition combined (parts : list str) : str :=
  strip (concat parts) ++ match parts with [] => [] | _ :: _ => [NL] end.

Definition ZERO : char := 48%N.    (* "0" *)

(** [str(n)] for a natural number: the decimal digits are put in front of
    [acc], the lowest first; [fuel] bounds the number of digits. *)
Fixpoint digits (fuel n : nat) (acc : str) : str :=
  match fuel with
  | O => acc
  | S fuel' =>
      let acc' := (ZERO + N.of_nat (n mod 10))%N :: acc in
      if (n / 10 =? 0)%nat then acc' else digits fuel' (n / 10) acc'
  end.

Definition str_of_nat (n : nat) : str := digits (S n) n [].

(** [s.zfill(width)] for a string of digits. *)
Definition zfill (width : nat) (s : str) : str :=
  repeat ZERO (width - length s) ++ s.

(** The names, inside [out_dir], of the files written for [n] chunks. *)
Definition out_names (prefix : str) (n : nat) : list str :=
  if (n =? 1)%nat then [prefix ++ lit ".txt"]
  else
    let width := Nat.max 3 (length (str_of_nat n)) in
    map (fun i => prefix ++ lit "_part" ++ zfill width (str_of_nat i)
                  ++ lit ".txt")
        (seq 1 n).

(* ================================================================== *)
(** ** Vocabulary of the properties *)

(** [sub] occurs in [text] at index [p]. *)
Definition occurs_at (sub text : str) (p : Z) : Prop :=
  slice text p (p + len sub) = sub.

(** A place where the splitter may cut the window from [start] to [e]: an
    occurrence of [sub] strictly behind [start] that ends by [e]. *)
Definition split_point (sub text : str) (start e p : Z) : Prop :=
  (start < p)%Z /\ (p + len sub <= e)%Z /\ occurs_at sub text p.

(** The most recent such place. *)
Definition last_split_point (sub text : str) (start e p : Z) : Prop :=
  split_point sub text start e p /\
  forall p', split_point sub text start e p' -> (p' <= p)%Z.

(** The line that marks the start of a file in the combined document. *)
Definition marker_line (m : str) : Prop :=
  exists path, m = lit "===== FILE: " ++ path ++ lit " =====" /\ ~ In NL path.

(** A cut at index [cut] leaves a part of an occurrence of [m] on either
    side. *)
Definition divides (text m : str) (cut : Z) : Prop :=
  exists a, (0 <= a)%Z /\ occurs_at m text a /\ (a < cut < a + len m)%Z.

(** The segment has something left after trimming. *)
Definition nonblank (s : str) : bool :=
  match strip s with [] => false | _ => true end.

(** What the splitter appends for a segment: the trimmed segment and one
    newline. *)
Definition trimmed_chunk (s : str) : str := strip s ++ [NL].

(** The scan of the body of a literal opened by the quote [q], with the
    escape flag [esc] at its start: [None] when an unescaped [q] occurs in
    the body, else the escape flag at its end. *)
Fixpoint body_end (q : char) (esc : bool) (body : str) : option bool :=
  match body with
  | [] => Some esc
  | c :: body' =>
      if esc then body_end q false body'
      else if eqc c BS then body_end q true body'
      else if eqc c q then None
      else body_end q false body'
  end.

(** [body] is the text between the quotes of a complete literal. *)
Definition lit_body (q : char) (body : str) : Prop :=
  body_end q false body = Some false.


(** The C-like scanner is outside comments and literals. *)
Definition c_normal (st : c_state) : Prop :=
  in_line st = false /\ in_block st = false /\
  in_str st = false /\ in_char st = false.

(** The C-like scanner is inside a string or character literal. *)
Definition c_in_literal (st : c_state) : Prop :=
  in_line st = false /\ in_block st = false /\
  (in_str st || in_char st) = true.

(** The loop of the C-like scanner, started in [st], arrives at index [k]
    of [text]: what it has appended to [out] by then and its state there.
    [None] when the index is passed over by [i += 2] or lies behind the
    end of the text. *)
Fixpoint c_reach (st : c_state) (text : str) (k : nat) {struct k}
  : option (str * c_state) :=
  match k with
  | O => Some ([], st)
  | S k' =>
      match text with
      | [] => None
      | ch :: rest =>
          let '(st', emit, adv) := c_iter st ch (hd_error rest) in
          let r := match adv, rest, k' with
                   | By2, _ :: rest', S k'' => c_reach st' rest' k''
                   | By2, _, _ => None
                   | _, _, _ => c_reach st' rest k'
                   end in
          match r with
          | Some (o, fin) => Some (emit ++ o, fin)
          | None => None
          end
      end
  end.

(** The SQL scanner is outside comments and literals. *)
Definition s_normal (st : s_state) : Prop :=
  s_in_block st = false /\ s_in_str st = false.

(** The outer loop of the SQL scanner arrives at index [k] of [text]; the
    indices inside a line comment are passed over by the inner loop. *)
Fixpoint s_reach (st : s_state) (text : str) (k : nat)
  : option (str * s_state) :=
  match k with
  | O => Some ([], st)
  | S k' =>
      match text with
      | [] => None
      | ch :: rest =>
          let '(st', emit, adv) := s_iter st ch (hd_error rest) in
          let r :=
            match adv with
            | By2 => match rest, k' with
                     | _ :: rest', S k'' => s_reach st' rest' k''
                     | _, _ => None
                     end
            | ToEol =>
                (fix to_eol (t : str) (j : nat) : option (str * s_state) :=
                   match t with
                   | [] => match j with O => Some ([], st') | S _ => None end
                   | c :: t' =>
                       if eqc c NL then s_reach st' t j
                       else match j with
                            | O => None
                            | S j' => to_eol t' j'
                            end
                   end) rest k'
            | _ => s_reach st' rest k'
            end in
          match r with
          | Some (o, fin) => Some (emit ++ o, fin)
          | None => None
          end
      end
  end.

(** The escape flag is only ever set inside a literal: in the C-like
    scanner, in the SQL scanner and in the line scanners. *)
Definition c_inv (st : c_state) : Prop :=
  escape st = true -> (in_str st || in_char st) = true.

Definition s_inv (st : s_state) : Prop :=
  s_escape st = true -> s_in_str st = true.

Definition l_inv (st : l_state) : Prop :=
  l_escape st = true -> l_in_str st = true.

(** [c] put in front of the first field. *)
Definition cons_head (c : char) (fields : list str) : list str :=
  match fields with
  | [] => [[c]]
  | l :: ls => (c :: l) :: ls
  end.

(** The part of [pre] behind its last line break, as the line scanners see
    it. *)
Definition last_line (pre : str) : str :=
  last (split NL (unix_newlines pre)) [].

(** The lines without the blank lines at the front. *)
Fixpoint drop_blank (lines : list str) : list str :=
  match lines with
  | [] :: rest => drop_blank rest
  | _ => lines
  end.

(** The first line without its leading white space. *)
Definition lstrip_first (lines : list str) : list str :=
  match lines with
  | l :: rest => lstrip l :: rest
  | [] => []
  end.

(** The lines without the blank lines at the end. *)
Fixpoint drop_blank_end (lines : list str) : list str :=
  match lines with
  | [] => []
  | l :: rest =>
      match drop_blank_end rest with
      | [] => match l with [] => [] | _ => [l] end
      | kept => l :: kept
      end
  end.

(** No run of blank lines is longer than [limit], for lines that follow
    [run] blank lines. *)
Fixpoint runs_ok (limit run : Z) (lines : list str) : Prop :=
  match lines with
  | [] => True
  | [] :: rest => (run + 1 <= limit)%Z /\ runs_ok limit (run + 1) rest
  | _ :: rest => runs_ok limit 0 rest
  end.

(** A character that the first steps of the normaliser leave alone. *)
Definition plain (c : char) : Prop := c <> BOM /\ c <> CR /\ c <> TAB.

(** A line as the normaliser leaves it. *)
Definition tidy_line (l : str) : Prop :=
  Forall plain l /\ ~ In NL l /\ rstrip l = l.

(** At most one of the four mode flags of the C-like scanner is up. *)
Definition c_mode_ok (st : c_state) : bool :=
  match in_line st, in_block st, in_str st, in_char st with
  | false, false, false, false
  | true, false, false, false
  | false, true, false, false
  | false, false, true, false
  | false, false, false, true => true
  | _, _, _, _ => false
  end.

(** The state with the two comment flags down. *)
Definition c_out_of_comment (st : c_state) : c_state :=
  mk_c false false (in_str st) (in_char st) (escape st) (quote st).

(** Case analysis on the tests of a loop body. *)
Ltac c_iter_cases :=
  repeat (match goal with
          | |- context [if ?b then _ else _] => destruct b eqn:?
          end; simpl).

(** The line holds no triple quote. *)
Definition no_triple (line : str) : Prop :=
  find TRIPLE_SQ line = (-1)%Z /\ find TRIPLE_DQ line = (-1)%Z.

(** The character is not white space. *)
Definition visible (c : char) : bool := negb (isspace c).

(** [s] is [t] with some of its characters left out. *)
Inductive subseq : str -> str -> Prop :=
| subseq_nil : subseq [] []
| subseq_keep (c : char) (s t : str) : subseq s t -> subseq (c :: s) (c :: t)
| subseq_drop (c : char) (s t : str) : subseq s t -> subseq s (c :: t).

(** [o] is the front part of [l]. *)
Definition prefix_of (o l : str) : Prop := exists rest, l = o ++ rest.

(** The number that a string of decimal digits stands for. *)
Definition digit_step (a : nat) (d : char) : nat :=
  10 * a + (N.to_nat d - 48).

Definition int_of (s : str) : nat := fold_left digit_step s 0%nat.

(** The text holds nothing but white space and byte-order marks. *)
Definition blank_text (text : str) : Prop :=
  Forall (fun c => isspace c = true \/ c = BOM) text.

(* ================================================================== *)
(** * Properties *)

(** ** Scenarios *)

Example c_like_scenario :
  strip_c_like_comments
    (lit "int x = 1; // comment" ++ [NL; DQ] ++ lit "// not a comment"
     ++ [DQ])
  = lit "int x = 1; " ++ [NL; DQ] ++ lit "// not a comment" ++ [DQ].
Proof. reflexivity. Qed.

Example sql_scenario :
  strip_sql_comments (lit "SELECT 1; -- note" ++ [NL] ++ lit "'it''s fine'")
  = lit "SELECT 1; " ++ [NL] ++ lit "'it''s fine'".
Proof. reflexivity. Qed.

Example html_scenario :
  strip_html_comments (lit "a<!-- b -->c<!--d") = lit "ac<!--d".
Proof. reflexivity. Qed.

Example hash_line_scenario :
  strip_hash_line_comments
    (lit "echo '#1' # one" ++ [CR; NL] ++ lit "# two" ++ [NL] ++ lit "x")
  = lit "echo '#1' " ++ [NL; NL] ++ lit "x".
Proof. reflexivity. Qed.

Example python_scenario :
  strip_python_comments
    (lit "x = 1  # one" ++ [NL] ++ TRIPLE_SQ ++ lit "doc" ++ [NL]
     ++ lit "more" ++ TRIPLE_SQ ++ lit " y = 2")
    true
  = lit "x = 1  " ++ [NL; NL] ++ lit " y = 2".
Proof. reflexivity. Qed.

Example chunk_scenario :
  chunk_text (lit "abcdef") 3 = [lit "abc" ++ [NL]; lit "def" ++ [NL]].
Proof. reflexivity. Qed.

Example normalise_scenario :
  normalise_whitespace
    ([BOM] ++ lit " a" ++ [TAB] ++ lit "b  " ++ [CR; NL; NL; NL; NL]
     ++ lit "c" ++ [CR])
    2 1
  = lit "a  b" ++ [NL; NL] ++ lit "c" ++ [NL].
Proof. reflexivity. Qed.

(* ------------------------------------------------------------------ *)
(** ** Characters, prefixes and slices *)

Lemma eqc_eq (a b : char) : eqc a b = true <-> a = b.
Proof. unfold eqc. apply N.eqb_eq. Qed.

Lemma eqc_refl (a : char) : eqc a a = true.
Proof. apply eqc_eq. reflexivity. Qed.

Lemma eqc_neq (a b : char) : eqc a b = false <-> a <> b.
Proof. unfold eqc. apply N.eqb_neq. Qed.

Lemma starts_with_iff (p s : str) :
  starts_with p s = true <-> firstn (length p) s = p.
Proof.
  revert s. induction p as [|x p IH]; intros s; simpl.
  - split; reflexivity.
  - destruct s as [|y s]; simpl.
    + split; discriminate.
    + rewrite andb_true_iff, eqc_eq, IH. split.
      * intros [-> ->]. reflexivity.
      * intros H. injection H as -> H. split; [reflexivity|exact H].
Qed.

Lemma starts_with_app (p t : str) : starts_with p (p ++ t) = true.
Proof.
  induction p as [|x p IH]; simpl; [reflexivity|].
  rewrite eqc_refl. exact IH.
Qed.

Lemma len_nonneg (s : str) : (0 <= len s)%Z.
Proof. unfold len. lia. Qed.

Lemma len_app (a b : str) : len (a ++ b) = (len a + len b)%Z.
Proof. unfold len. rewrite length_app. lia. Qed.

Lemma slice_length (s : str) (a b : Z) :
  (0 <= a <= b)%Z -> (b <= len s)%Z -> len (slice s a b) = (b - a)%Z.
Proof.
  unfold len, slice. intros Ha Hb.
  rewrite length_skipn, length_firstn. lia.
Qed.

(** Inside a window that ends at [e], an occurrence of [sub] at [i] is an
    occurrence in the text that ends by [e]. *)
Lemma starts_with_window (sub text : str) (i e : Z) :
  (0 <= i)%Z -> (i + len sub <= e)%Z ->
  starts_with sub (slice_from (slice_to text e) i) = true
  <-> slice text i (i + len sub) = sub.
Proof.
  intros Hi He. rewrite starts_with_iff.
  unfold slice_from, slice_to, slice, len in *.
  rewrite firstn_skipn_comm, firstn_firstn.
  replace (Nat.min (Z.to_nat i + length sub) (Z.to_nat e))
    with (Z.to_nat (i + Z.of_nat (length sub))) by lia.
  reflexivity.
Qed.


(* ------------------------------------------------------------------ *)
(** ** [rfind] *)

Lemma rfind_down_spec (sub s : str) (start : Z) (k : nat) :
  let r := rfind_down sub s start k in
  (r = (-1)%Z /\
   forall i, (start <= i < start + Z.of_nat k)%Z ->
             starts_with sub (slice_from s i) = false)
  \/ ((start <= r < start + Z.of_nat k)%Z /\
      starts_with sub (slice_from s r) = true /\
      forall i, (r < i < start + Z.of_nat k)%Z ->
                starts_with sub (slice_from s i) = false).
Proof.
  induction k as [|k IH]; simpl.
  - left. split; [reflexivity|]. intros i Hi. lia.
  - destruct (starts_with sub (slice_from s (start + Z.of_nat k))) eqn:E.
    + right. split; [lia|]. split; [exact E|]. intros i Hi. lia.
    + destruct IH as [[Hr Hno]|[Hr [Hat Hno]]].
      * left. split; [exact Hr|]. intros i Hi.
        destruct (Z.eq_dec i (start + Z.of_nat k)) as [->|Hne];
          [exact E|apply Hno; lia].
      * right. split; [lia|]. split; [exact Hat|]. intros i Hi.
        destruct (Z.eq_dec i (start + Z.of_nat k)) as [->|Hne];
          [exact E|apply Hno; lia].
Qed.

Lemma rfind_spec (sub text : str) (start e : Z) :
  (0 <= start)%Z -> (0 <= e <= len text)%Z ->
  let r := rfind sub text start e in
  (r = (-1)%Z /\
   forall i, (start <= i)%Z -> (i + len sub <= e)%Z ->
             ~ occurs_at sub text i)
  \/ ((start <= r)%Z /\ (r + len sub <= e)%Z /\ occurs_at sub text r /\
      forall i, (r < i)%Z -> (i + len sub <= e)%Z ->
                ~ occurs_at sub text i).
Proof.
  intros Hs He. unfold rfind, occurs_at.
  pose proof (len_nonneg sub) as Hl.
  destruct (rfind_down_spec sub (slice_to text e) start
              (Z.to_nat (e - len sub - start + 1)))
    as [[Hr Hno]|[Hr [Hat Hno]]].
  - left. split; [exact Hr|]. intros i Hi Hfit Hocc.
    apply (proj2 (starts_with_window sub text i e ltac:(lia) Hfit)) in Hocc.
    rewrite Hno in Hocc; [discriminate|lia].
  - right. set (r := rfind_down _ _ _ _) in *.
    split; [lia|]. split; [lia|]. split.
    + apply (proj1 (starts_with_window sub text r e ltac:(lia) ltac:(lia))).
      exact Hat.
    + intros i Hi Hfit Hocc.
      apply (proj2 (starts_with_window sub text i e ltac:(lia) Hfit)) in Hocc.
      rewrite Hno in Hocc; [discriminate|lia].
Qed.

(* ------------------------------------------------------------------ *)
(** ** [chunk_text]: the cut of one pass *)

Lemma occurs_at_nth (sub text : str) (p : Z) (j : nat) :
  (0 <= p)%Z -> occurs_at sub text p -> (j < length sub)%nat ->
  nth_error text (Z.to_nat p + j) = nth_error sub j.
Proof.
  unfold occurs_at, slice, len. intros Hp Hocc Hj.
  rewrite <- Hocc at 1.
  rewrite nth_error_skipn, nth_error_firstn.
  destruct (Nat.ltb_spec (Z.to_nat p + j) (Z.to_nat (p + Z.of_nat (length sub))));
    [reflexivity|lia].
Qed.

(** What [next_end] returns when the window ends before the text does. *)
Lemma next_end_cases (text : str) (max start : Z) :
  (0 < max)%Z -> (0 <= start)%Z -> (start + max < len text)%Z ->
  let e := (start + max)%Z in
  let cut := next_end text max start in
  (last_split_point FILE_MARK text start e cut)
  \/ ((forall p, ~ split_point FILE_MARK text start e p) /\
      last_split_point BLANK_LINE text start e cut)
  \/ ((forall p, ~ split_point FILE_MARK text start e p) /\
      (forall p, ~ split_point BLANK_LINE text start e p) /\ cut = e).
Proof.
  intros Hmax Hstart Hlen e cut. subst cut. unfold next_end.
  replace (Z.min (start + max) (len text)) with e by (subst e; lia).
  destruct (Z.ltb_spec e (len text)) as [_|Hge]; [|subst e; lia].
  assert (He : (0 <= e <= len text)%Z) by (subst e; lia).
  destruct (rfind_spec FILE_MARK text start e Hstart He) as [[Hr Hno]|[Hr1 [Hr2 [Hocc Hno]]]].
  - rewrite Hr. simpl orb. cbv iota.
    assert (HnoM : forall p, ~ split_point FILE_MARK text start e p).
    { intros p [Hp1 [Hp2 Hp3]]. apply (Hno p); [lia|exact Hp2|exact Hp3]. }
    destruct (rfind_spec BLANK_LINE text start e Hstart He) as [[Hb Hnob]|[Hb1 [Hb2 [Hbocc Hnob]]]].
    + rewrite Hb. simpl orb. cbv iota. right. right.
      split; [exact HnoM|]. split; [|reflexivity].
      intros p [Hp1 [Hp2 Hp3]]. apply (Hnob p); [lia|exact Hp2|exact Hp3].
    + set (b := rfind BLANK_LINE text start e) in *.
      destruct (Z.eqb_spec b (-1)) as [Hm|_]; [lia|]. simpl orb.
      destruct (Z.leb_spec b start) as [Hle|Hgt].
      * right. right. split; [exact HnoM|]. split; [|reflexivity].
        intros p [Hp1 [Hp2 Hp3]]. apply (Hnob p); [lia|exact Hp2|exact Hp3].
      * right. left. split; [exact HnoM|]. split.
        { split; [exact Hgt|]. split; [exact Hb2|exact Hbocc]. }
        intros p' [Hp1 [Hp2 Hp3]].
        destruct (Z.le_gt_cases p' b) as [Hok|Hbad]; [exact Hok|].
        exfalso. apply (Hnob p'); [lia|exact Hp2|exact Hp3].
  - set (r := rfind FILE_MARK text start e) in *.
    destruct (Z.eqb_spec r (-1)) as [Hm|_]; [lia|]. simpl orb.
    destruct (Z.leb_spec r start) as [Hle|Hgt].
    + assert (HnoM : forall p, ~ split_point FILE_MARK text start e p).
      { intros p [Hp1 [Hp2 Hp3]]. apply (Hno p); [lia|exact Hp2|exact Hp3]. }
      destruct (rfind_spec BLANK_LINE text start e Hstart He) as [[Hb Hnob]|[Hb1 [Hb2 [Hbocc Hnob]]]].
      * rewrite Hb. simpl orb. cbv iota. right. right.
        split; [exact HnoM|]. split; [|reflexivity].
        intros p [Hp1 [Hp2 Hp3]]. apply (Hnob p); [lia|exact Hp2|exact Hp3].
      * set (b := rfind BLANK_LINE text start e) in *.
        destruct (Z.eqb_spec b (-1)) as [Hm|_]; [lia|]. simpl orb.
        destruct (Z.leb_spec b start) as [Hle'|Hgt].
        -- right. right. split; [exact HnoM|]. split; [|reflexivity].
           intros p [Hp1 [Hp2 Hp3]]. apply (Hnob p); [lia|exact Hp2|exact Hp3].
        -- right. left. split; [exact HnoM|]. split.
           { split; [exact Hgt|]. split; [exact Hb2|exact Hbocc]. }
           intros p' [Hp1 [Hp2 Hp3]].
           destruct (Z.le_gt_cases p' b) as [Hok|Hbad]; [exact Hok|].
           exfalso. apply (Hnob p'); [lia|exact Hp2|exact Hp3].
    + left. split.
      { split; [exact Hgt|]. split; [exact Hr2|exact Hocc]. }
      intros p' [Hp1 [Hp2 Hp3]].
      destruct (Z.le_gt_cases p' r) as [Hok|Hbad]; [exact Hok|].
      exfalso. apply (Hno p'); [lia|exact Hp2|exact Hp3].
Qed.

Lemma next_end_advances (text : str) (max start : Z) :
  (0 < max)%Z -> (0 <= start < len text)%Z ->
  (start < next_end text max start <= len text)%Z /\
  (next_end text max start <= start + max)%Z.
Proof.
  intros Hmax Hstart.
  destruct (Z.lt_ge_cases (start + max) (len text)) as [Hlt|Hge].
  - pose proof (len_nonneg FILE_MARK). pose proof (len_nonneg BLANK_LINE).
    destruct (next_end_cases text max start Hmax (proj1 Hstart) Hlt)
      as [[[H1 [H2 _]] _]|[[_ [[H1 [H2 _]] _]]|[_ [_ ->]]]]; lia.
  - unfold next_end.
    replace (Z.min (start + max) (len text)) with (len text) by lia.
    rewrite Z.ltb_irrefl. lia.
Qed.

(* ------------------------------------------------------------------ *)
(** ** [chunk_text]: the loop *)

Lemma chunk_loop_enough (text : str) (max : Z) (fuel : nat) :
  (0 < max)%Z ->
  forall start, (0 <= start)%Z -> (len text - start <= Z.of_nat fuel)%Z ->
  exists chunks, chunk_loop fuel text max start = Some chunks.
Proof.
  intros Hmax. induction fuel as [|fuel IH]; intros start Hs Hf; simpl.
  - destruct (Z.ltb_spec start (len text)); [lia|]. exists []. reflexivity.
  - destruct (Z.ltb_spec start (len text)) as [Hlt|Hge];
      [|exists []; reflexivity].
    destruct (next_end_advances text max start Hmax (conj Hs Hlt)) as [Hadv _].
    destruct (IH (next_end text max start)) as [chunks Hc]; [lia|lia|].
    rewrite Hc. eexists. reflexivity.
Qed.

Lemma chunk_loop_more_fuel (text : str) (max : Z) (fuel : nat) :
  forall start chunks,
  chunk_loop fuel text max start = Some chunks ->
  forall fuel', (fuel <= fuel')%nat ->
  chunk_loop fuel' text max start = Some chunks.
Proof.
  induction fuel as [|fuel IH]; intros start chunks H fuel' Hle.
  - simpl in H. destruct fuel'; simpl;
      destruct (start <? len text)%Z; try discriminate; exact H.
  - destruct fuel' as [|fuel']; [lia|]. simpl in *.
    destruct (start <? len text)%Z; [|exact H].
    destruct (chunk_loop fuel text max (next_end text max start)) as [r|] eqn:E;
      [|discriminate].
    rewrite (IH _ _ E fuel'); [exact H|lia].
Qed.

(** C9. For a positive budget the loop of the chunk splitter moves its
    scan position strictly forward in every pass, whether or not the
    window holds a marker or a blank line, and so it ends: with a pass per
    character of the document it returns its chunks, which are those of
    [chunk_text]. *)
Theorem chunk_text_terminates (text : str) (max : Z) :
  (0 < max)%Z ->
  (forall start, (0 <= start < len text)%Z ->
                 (start < next_end text max start <= len text)%Z)
  /\ (forall fuel, (length text <= fuel)%nat ->
                   chunk_text_run fuel text max = Some (chunk_text text max)).
Proof.
  intros Hmax. split.
  - intros start Hs. apply next_end_advances; assumption.
  - intros fuel Hfuel. unfold chunk_text, chunk_text_run.
    destruct ((max <=? 0)%Z || (len text <=? max)%Z); [reflexivity|].
    destruct (chunk_loop_enough text max (length text) Hmax 0)
      as [chunks Hc]; [lia|unfold len; lia|].
    rewrite Hc. apply (chunk_loop_more_fuel _ _ _ _ _ Hc). exact Hfuel.
Qed.

Lemma chunk_text_terminates_witness :
  (0 < 3)%Z /\ (6 <= 6)%nat /\
  chunk_text_run 6 (lit "abcdef") 3
  = Some [lit "abc" ++ [NL]; lit "def" ++ [NL]].
Proof.
  split; [lia|]. split; [lia|].
  exact (proj2 (chunk_text_terminates (lit "abcdef") 3 ltac:(lia)) 6%nat
               ltac:(apply Nat.le_refl)).
Defined.

(** C10. With a budget of zero or less, and likewise whenever the text is
    not longer than the budget, [chunk_text] neither splits nor trims: a
    non-empty text is returned unchanged as the only chunk and the empty
    text gives no chunk. *)
Theorem chunk_text_fast_path (text : str) (max : Z) :
  (max <= 0)%Z \/ (len text <= max)%Z ->
  chunk_text text max = match text with [] => [] | _ => [text] end.
Proof.
  intros H. unfold chunk_text, chunk_text_run.
  assert (E : (max <=? 0)%Z || (len text <=? max)%Z = true).
  { apply orb_true_iff. destruct H; [left|right]; apply Z.leb_le; assumption. }
  rewrite E. reflexivity.
Qed.

Lemma chunk_text_fast_path_witness :
  ((-1 <= 0)%Z \/ (len [SP; NL; SP] <= -1)%Z) /\
  chunk_text [SP; NL; SP] (-1) = [[SP; NL; SP]].
Proof.
  assert (H : (-1 <= 0)%Z \/ (len [SP; NL; SP] <= -1)%Z) by (left; lia).
  split; [exact H|]. exact (chunk_text_fast_path [SP; NL; SP] (-1) H).
Defined.

(** C8. Whenever the window of a pass ends before the document does, the
    cut is chosen by priority: the most recent marker position strictly
    inside the window, else the most recent blank-line position strictly
    inside it, else the end of the window, which lies exactly the budget
    behind [start]. When a marker or blank-line position exists, the cut
    falls on a newline and so never inside a marker line. *)
Theorem chunk_split_priority (text : str) (max start : Z) :
  (0 < max)%Z -> (0 <= start)%Z -> (start + max < len text)%Z ->
  let e := (start + max)%Z in
  let cut := next_end text max start in
  ((exists p, split_point FILE_MARK text start e p) ->
   last_split_point FILE_MARK text start e cut)
  /\ ((forall p, ~ split_point FILE_MARK text start e p) ->
      (exists p, split_point BLANK_LINE text start e p) ->
      last_split_point BLANK_LINE text start e cut)
  /\ ((forall p, ~ split_point FILE_MARK text start e p) ->
      (forall p, ~ split_point BLANK_LINE text start e p) ->
      cut = e)
  /\ ((exists p, split_point FILE_MARK text start e p
                 \/ split_point BLANK_LINE text start e p) ->
      forall m, marker_line m -> ~ divides text m cut).
Proof.
  intros Hmax Hstart Hlen e cut.
  pose proof (next_end_cases text max start Hmax Hstart Hlen) as Hc.
  fold e in Hc. fold cut in Hc.
  assert (Hnl : (exists p, split_point FILE_MARK text start e p
                           \/ split_point BLANK_LINE text start e p) ->
                nth_error text (Z.to_nat cut) = Some NL).
  { intros [p Hp].
    destruct Hc as [[[H1 [H2 H3]] _]|[[_ [[H1 [H2 H3]] _]]|[HnoM [HnoB _]]]].
    - rewrite <- (Nat.add_0_r (Z.to_nat cut)).
      rewrite (occurs_at_nth FILE_MARK text cut 0); [reflexivity|lia|exact H3|].
      simpl. lia.
    - rewrite <- (Nat.add_0_r (Z.to_nat cut)).
      rewrite (occurs_at_nth BLANK_LINE text cut 0); [reflexivity|lia|exact H3|].
      simpl. lia.
    - destruct Hp as [Hp|Hp]; [elim (HnoM p Hp)|elim (HnoB p Hp)]. }
  split; [|split; [|split]].
  - intros [p Hp].
    destruct Hc as [H|[[HnoM _]|[HnoM _]]]; [exact H| |]; elim (HnoM p Hp).
  - intros HnoM [p Hp].
    destruct Hc as [[H _]|[[_ H]|[_ [HnoB _]]]];
      [elim (HnoM _ H)|exact H|elim (HnoB p Hp)].
  - intros HnoM HnoB.
    destruct Hc as [[H _]|[[_ [H _]]|[_ [_ H]]]];
      [elim (HnoM _ H)|elim (HnoB _ H)|exact H].
  - intros Hex m [path [Hm Hpath]] [a [Ha [Hocc Hin]]].
    specialize (Hnl Hex).
    assert (Hj : (Z.to_nat (cut - a) < length m)%nat) by (unfold len in Hin; lia).
    pose proof (occurs_at_nth m text a (Z.to_nat (cut - a)) Ha Hocc Hj) as Hn.
    replace (Z.to_nat a + Z.to_nat (cut - a))%nat with (Z.to_nat cut) in Hn by lia.
    rewrite Hnl in Hn. symmetry in Hn. apply nth_error_In in Hn.
    rewrite Hm in Hn. apply in_app_or in Hn. destruct Hn as [Hn|Hn].
    + simpl in Hn. repeat (destruct Hn as [Hn|Hn]; [discriminate|]). exact Hn.
    + apply in_app_or in Hn. destruct Hn as [Hn|Hn]; [exact (Hpath Hn)|].
      simpl in Hn. repeat (destruct Hn as [Hn|Hn]; [discriminate|]). exact Hn.
Qed.

(* ------------------------------------------------------------------ *)
(** ** [strip] *)

Lemma lstrip_length (s : str) : (length (lstrip s) <= length s)%nat.
Proof.
  induction s as [|c s IH]; simpl; [lia|].
  destruct (isspace c); simpl; lia.
Qed.

Lemma rstrip_length (s : str) : (length (rstrip s) <= length s)%nat.
Proof.
  induction s as [|c s IH]; simpl; [lia|].
  destruct (rstrip s); [destruct (isspace c)|]; simpl in *; lia.
Qed.

Lemma strip_length (s : str) : (length (strip s) <= length s)%nat.
Proof.
  unfold strip. pose proof (rstrip_length (lstrip s)).
  pose proof (lstrip_length s). lia.
Qed.

Lemma lstrip_head (s : str) (c : char) (t : str) :
  lstrip s = c :: t -> isspace c = false.
Proof.
  induction s as [|x s IH]; simpl; [discriminate|].
  destruct (isspace x) eqn:E; [exact IH|].
  intros H. injection H as <- _. exact E.
Qed.

Lemma lstrip_fixed (c : char) (t : str) :
  isspace c = false -> lstrip (c :: t) = c :: t.
Proof. intros H. simpl. rewrite H. reflexivity. Qed.

Lemma rstrip_head (s : str) (c : char) (t : str) :
  rstrip s = c :: t -> exists s', s = c :: s'.
Proof.
  destruct s as [|x s]; simpl; [discriminate|].
  destruct (rstrip s); [destruct (isspace x); [discriminate|]|];
    intros H; injection H as <- _; eexists; reflexivity.
Qed.

Lemma rstrip_app_space (s : str) (c : char) :
  isspace c = true -> rstrip (s ++ [c]) = rstrip s.
Proof.
  intros Hc. induction s as [|x s IH]; simpl.
  - rewrite Hc. reflexivity.
  - rewrite IH. reflexivity.
Qed.

Lemma rstrip_idem (s : str) : rstrip (rstrip s) = rstrip s.
Proof.
  induction s as [|c s IH]; simpl; [reflexivity|].
  destruct (rstrip s) as [|y r] eqn:E.
  - destruct (isspace c) eqn:Ec; simpl; [reflexivity|]. rewrite Ec. reflexivity.
  - change (rstrip (c :: y :: r)) with
      (match rstrip (y :: r) with
       | [] => if isspace c then [] else [c]
       | r' => c :: r'
       end).
    rewrite IH. reflexivity.
Qed.

(** A stripped string starts with a character that is not white space. *)
Lemma strip_head (s : str) (c : char) (t : str) :
  strip s = c :: t -> isspace c = false.
Proof.
  unfold strip. intros H. destruct (rstrip_head _ _ _ H) as [s' Hs'].
  exact (lstrip_head s _ _ Hs').
Qed.

Lemma strip_idem (s : str) : strip (strip s) = strip s.
Proof.
  destruct (strip s) as [|c t] eqn:E; [reflexivity|].
  unfold strip. rewrite (lstrip_fixed c t (strip_head s c t E)).
  rewrite <- E. unfold strip. apply rstrip_idem.
Qed.

Lemma isspace_NL : isspace NL = true.
Proof. reflexivity. Qed.

(** Trimming a chunk gives back the trimmed segment it was made from. *)
Lemma strip_trimmed_chunk (s : str) :
  strip s <> [] -> strip (trimmed_chunk s) = strip s.
Proof.
  unfold trimmed_chunk. intros Hne.
  destruct (strip s) as [|c t] eqn:E; [contradiction|].
  unfold strip at 1. change ((c :: t) ++ [NL]) with (c :: (t ++ [NL])).
  rewrite (lstrip_fixed c _ (strip_head s c t E)).
  change (c :: (t ++ [NL])) with ((c :: t) ++ [NL]).
  rewrite (rstrip_app_space _ NL isspace_NL).
  rewrite <- E. unfold strip. apply rstrip_idem.
Qed.

(* ------------------------------------------------------------------ *)
(** ** [chunk_text]: the segments behind the chunks *)

Lemma slice_split (text : str) (a b : Z) :
  (0 <= a <= b)%Z -> (b <= len text)%Z ->
  slice text a b ++ slice_from text b = slice_from text a.
Proof.
  unfold slice, slice_from, len. intros Ha Hb.
  rewrite <- (firstn_skipn (Z.to_nat b) text) at 3.
  rewrite skipn_app, length_firstn.
  replace (Z.to_nat a - Nat.min (Z.to_nat b) (length text))%nat with 0%nat by lia.
  reflexivity.
Qed.

(** The passes of the loop cut the rest of the text into consecutive
    segments, none empty and none longer than the budget; the chunks are
    the trimmed segments, the all-blank ones left out. *)
Lemma chunk_loop_segments (text : str) (max : Z) (fuel : nat) :
  (0 < max)%Z ->
  forall start chunks, (0 <= start <= len text)%Z ->
  chunk_loop fuel text max start = Some chunks ->
  exists segs,
    concat segs = slice_from text start
    /\ Forall (fun s => s <> [] /\ (len s <= max)%Z) segs
    /\ chunks = map trimmed_chunk (filter nonblank segs).
Proof.
  intros Hmax. induction fuel as [|fuel IH]; intros start chunks Hs H;
    simpl in H; destruct (Z.ltb_spec start (len text)) as [Hlt|Hge];
    try discriminate.
  - injection H as <-. exists []. split; [|split; [constructor|reflexivity]].
    unfold slice_from, len in *. rewrite skipn_all2; [reflexivity|lia].
  - destruct (next_end_advances text max start Hmax (conj (proj1 Hs) Hlt))
      as [Hadv Hwin].
    set (e := next_end text max start) in *.
    destruct (chunk_loop fuel text max e) as [rest|] eqn:E; [|discriminate].
    destruct (IH e rest ltac:(lia) E) as [segs [Hcat [Hall Hmap]]].
    exists (slice text start e :: segs). split; [|split].
    + simpl. rewrite Hcat. apply slice_split; lia.
    + constructor; [|exact Hall].
      pose proof (slice_length text start e ltac:(lia) ltac:(lia)) as Hl.
      split; [|lia]. intros Hnil. rewrite Hnil in Hl. unfold len in Hl.
      simpl in Hl. lia.
    + injection H as <-. simpl filter. unfold nonblank at 1.
      destruct (strip (slice text start e)) as [|c s] eqn:Es.
      * exact Hmap.
      * simpl. unfold trimmed_chunk at 1. rewrite Es, Hmap. reflexivity.
  - injection H as <-. exists []. split; [|split; [constructor|reflexivity]].
    unfold slice_from, len in *. rewrite skipn_all2; [reflexivity|lia].
Qed.

Lemma chunk_text_segments (text : str) (max : Z) :
  (0 < max)%Z -> (max < len text)%Z ->
  exists segs,
    concat segs = text
    /\ Forall (fun s => s <> [] /\ (len s <= max)%Z) segs
    /\ chunk_text text max = map trimmed_chunk (filter nonblank segs).
Proof.
  intros Hmax Hlen.
  destruct (chunk_loop_enough text max (length text) Hmax 0)
    as [chunks Hc]; [lia|unfold len; lia|].
  assert (Hct : chunk_text text max = chunks).
  { unfold chunk_text, chunk_text_run.
    destruct (Z.leb_spec max 0); [lia|].
    destruct (Z.leb_spec (len text) max); [lia|]. simpl. rewrite Hc.
    reflexivity. }
  rewrite Hct.
  exact (chunk_loop_segments text max (length text) Hmax 0 chunks
           ltac:(pose proof (len_nonneg text); lia) Hc).
Qed.

(** C3, as amended. For a positive budget: a document that is not longer
    than the budget is returned as it is, so its only chunk is within the
    budget; of a longer document every chunk is a trimmed segment that is
    not empty and at most the budget long, followed by one newline, and
    trimming the chunk gives that segment back. Text is cut wherever the
    window ends; no unit is kept whole beyond the budget. *)
Theorem chunk_text_chunk_bounds (text : str) (max : Z) :
  (0 < max)%Z ->
  ((len text <= max)%Z ->
   forall c, In c (chunk_text text max) -> c = text /\ (len c <= max)%Z)
  /\ ((max < len text)%Z ->
      forall c, In c (chunk_text text max) ->
      exists seg, c = strip seg ++ [NL]
                  /\ strip seg <> []
                  /\ (len (strip seg) <= max)%Z
                  /\ strip c = strip seg).
Proof.
  intros Hmax. split.
  - intros Hlen c Hin.
    rewrite (chunk_text_fast_path text max (or_intror Hlen)) in Hin.
    destruct text as [|x t]; [destruct Hin|].
    destruct Hin as [<-|[]]. split; [reflexivity|exact Hlen].
  - intros Hlen c Hin.
    destruct (chunk_text_segments text max Hmax Hlen) as [segs [_ [Hall Hmap]]].
    rewrite Hmap in Hin. apply in_map_iff in Hin.
    destruct Hin as [seg [<- Hseg]]. apply filter_In in Hseg.
    destruct Hseg as [Hseg Hnb]. exists seg.
    assert (Hne : strip seg <> []).
    { unfold nonblank in Hnb. destruct (strip seg); [discriminate|discriminate]. }
    split; [reflexivity|]. split; [exact Hne|]. split.
    + rewrite Forall_forall in Hall. destruct (Hall seg Hseg) as [_ Hl].
      pose proof (strip_length seg). unfold len in *. lia.
    + apply strip_trimmed_chunk. exact Hne.
Qed.

Lemma chunk_text_chunk_bounds_witness :
  (0 < 3)%Z /\ (3 < len (lit "abcdef"))%Z /\
  exists seg, lit "abc" ++ [NL] = strip seg ++ [NL]
              /\ strip seg <> []
              /\ (len (strip seg) <= 3)%Z
              /\ strip (lit "abc" ++ [NL]) = strip seg.
Proof.
  assert (H1 : (0 < 3)%Z) by lia.
  assert (H2 : (3 < len (lit "abcdef"))%Z) by (vm_compute; reflexivity).
  split; [exact H1|]. split; [exact H2|].
  apply (proj2 (chunk_text_chunk_bounds (lit "abcdef") 3 H1) H2).
  vm_compute. left. reflexivity.
Defined.

(** C3 as stated fails: the document below is one file block, the marker
    line and its content, of 30 characters. With a budget of 10 it is not
    kept whole but cut into three chunks, and the first of them has 11
    characters. *)
Lemma chunk_budget_counterexample :
  let doc := lit "===== FILE: a =====" ++ [NL; NL] ++ lit "abcdefgh" ++ [NL] in
  chunk_text doc 10
  = [lit "===== FILE" ++ [NL]; lit ": a =====" ++ [NL]; lit "abcdefgh" ++ [NL]]
  /\ ~ (forall c, In c (chunk_text doc 10) ->
                  nonblank c = true /\ ((len c <= 10)%Z \/ c = doc)).
Proof.
  intros doc. split; [reflexivity|]. intros H.
  destruct (H (lit "===== FILE" ++ [NL])) as [_ [Hlen|Heq]].
  - vm_compute. left. reflexivity.
  - vm_compute in Hlen. apply Hlen. reflexivity.
  - vm_compute in Heq. discriminate Heq.
Qed.

Lemma chunk_split_priority_witness :
  let text := lit "ab" ++ [NL] ++ lit "===== FILE: x =====" ++ [NL; NL]
              ++ lit "cd" in
  (0 < 20)%Z /\ (0 <= 0)%Z /\ (0 + 20 < len text)%Z /\
  last_split_point FILE_MARK text 0 (0 + 20) (next_end text 20 0).
Proof.
  intros text.
  assert (H1 : (0 < 20)%Z) by lia.
  assert (H2 : (0 <= 0)%Z) by lia.
  assert (H3 : (0 + 20 < len text)%Z) by (vm_compute; reflexivity).
  split; [exact H1|]. split; [exact H2|]. split; [exact H3|].
  apply (proj1 (chunk_split_priority text 20 0 H1 H2 H3)).
  exists 2%Z. split; [lia|]. split; [vm_compute; discriminate|].
  vm_compute. reflexivity.
Defined.

(* ------------------------------------------------------------------ *)
(** ** The C-like scanner *)

Lemma eqc_sym (a b : char) : eqc a b = eqc b a.
Proof. unfold eqc. apply N.eqb_sym. Qed.

Lemma c_loop_cons (st : c_state) (ch : char) (rest : str) :
  c_loop st (ch :: rest) =
  let '(st', emit, adv) := c_iter st ch (hd_error rest) in
  let '(o, fin) :=
    match adv, rest with
    | By2, _ :: rest' => c_loop st' rest'
    | _, _ => c_loop st' rest
    end in
  (emit ++ o, fin).
Proof. reflexivity. Qed.

(** One pass inside a string literal. *)
Lemma c_iter_in_str (esc : bool) (q ch : char) (nxt : option char) :
  c_iter (mk_c false false true false esc (Some q)) ch nxt =
  (if esc then mk_c false false true false false (Some q)
   else if eqc ch BS then mk_c false false true false true (Some q)
   else if eqc ch q then mk_c false false false false false (Some q)
   else mk_c false false true false false (Some q),
   [ch], By1).
Proof.
  unfold c_iter. simpl. rewrite (eqc_sym q ch).
  destruct esc; [reflexivity|]. destruct (eqc ch BS); [reflexivity|].
  destruct (eqc ch q); reflexivity.
Qed.

(** One pass inside a character literal. *)
Lemma c_iter_in_char (esc : bool) (qo : option char) (ch : char)
                     (nxt : option char) :
  c_iter (mk_c false false false true esc qo) ch nxt =
  (if esc then mk_c false false false true false qo
   else if eqc ch BS then mk_c false false false true true qo
   else if eqc ch SQ then mk_c false false false false false qo
   else mk_c false false false true false qo,
   [ch], By1).
Proof.
  unfold c_iter. simpl.
  destruct esc; [reflexivity|]. destruct (eqc ch BS); [reflexivity|].
  destruct (eqc ch SQ); reflexivity.
Qed.

(** The body of a string literal is copied; at its closing quote the
    scanner is outside literals again. *)
Lemma c_loop_str_body (q : char) (post : str) (body : str) :
  eqc q BS = false ->
  forall esc, body_end q esc body = Some false ->
  c_loop (mk_c false false true false esc (Some q)) (body ++ q :: post) =
  (body ++ q :: fst (c_loop (mk_c false false false false false (Some q)) post),
   snd (c_loop (mk_c false false false false false (Some q)) post)).
Proof.
  intros Hq. induction body as [|c body IH]; intros esc H.
  - simpl in H. injection H as ->. simpl app.
    rewrite c_loop_cons, c_iter_in_str, Hq, eqc_refl.
    destruct (c_loop _ post) as [o fin]. reflexivity.
  - change ((c :: body) ++ q :: post) with (c :: (body ++ q :: post)).
    rewrite c_loop_cons, c_iter_in_str. simpl in H.
    destruct esc.
    + rewrite (IH false H). reflexivity.
    + destruct (eqc c BS).
      * rewrite (IH true H). reflexivity.
      * destruct (eqc c q); [discriminate|].
        rewrite (IH false H). reflexivity.
Qed.

(** The body of a character literal is copied likewise. *)
Lemma c_loop_char_body (qo : option char) (post : str) (body : str) :
  forall esc, body_end SQ esc body = Some false ->
  c_loop (mk_c false false false true esc qo) (body ++ SQ :: post) =
  (body ++ SQ :: fst (c_loop (mk_c false false false false false qo) post),
   snd (c_loop (mk_c false false false false false qo) post)).
Proof.
  induction body as [|c body IH]; intros esc H.
  - simpl in H. injection H as ->. simpl app.
    rewrite c_loop_cons, c_iter_in_char.
    change (eqc SQ BS) with false. rewrite eqc_refl.
    destruct (c_loop _ post) as [o fin]. reflexivity.
  - change ((c :: body) ++ SQ :: post) with (c :: (body ++ SQ :: post)).
    rewrite c_loop_cons, c_iter_in_char. simpl in H.
    destruct esc.
    + rewrite (IH false H). reflexivity.
    + destruct (eqc c BS).
      * rewrite (IH true H). reflexivity.
      * destruct (eqc c SQ); [discriminate|].
        rewrite (IH false H). reflexivity.
Qed.



Lemma find_absent_cons (sub : str) (c : char) (s : str) :
  find sub (c :: s) = (-1)%Z ->
  starts_with sub (c :: s) = false /\ find sub s = (-1)%Z.
Proof.
  simpl find. destruct (starts_with sub (c :: s)); [discriminate|].
  intros H. split; [reflexivity|].
  destruct (Z.ltb_spec (find sub s) 0) as [Hlt|Hge]; [|lia].
  assert (Hb : forall t, (-1 <= find sub t)%Z).
  { induction t as [|x t IHt]; simpl.
    - destruct (starts_with sub []); lia.
    - destruct (starts_with sub (x :: t)); [lia|].
      destruct (Z.ltb_spec (find sub t) 0); lia. }
  specialize (Hb s). lia.
Qed.


Lemma c_iter_inv (st : c_state) (ch : char) (nxt : option char) :
  c_inv st -> c_inv (fst (fst (c_iter st ch nxt))).
Proof.
  destruct st as [il ib istr ichr esc qo]. unfold c_inv, c_iter. simpl.
  destruct il, ib, istr, ichr, esc; simpl;
    repeat match goal with
           | |- context [if ?b then _ else _] => destruct b; simpl
           end;
    intros H1 H2; try reflexivity; try discriminate;
    try (apply H1; reflexivity).
Qed.

Lemma c_reach_cons (st : c_state) (ch : char) (rest : str) (k' : nat) :
  c_reach st (ch :: rest) (S k') =
  let '(st', emit, adv) := c_iter st ch (hd_error rest) in
  let r := match adv, rest, k' with
           | By2, _ :: rest', S k'' => c_reach st' rest' k''
           | By2, _, _ => None
           | _, _, _ => c_reach st' rest k'
           end in
  match r with
  | Some (o, fin) => Some (emit ++ o, fin)
  | None => None
  end.
Proof. reflexivity. Qed.

Lemma c_reach_spec (n : nat) :
  forall text st k o1 st1, (length text <= n)%nat ->
  c_reach st text k = Some (o1, st1) ->
  (c_inv st -> c_inv st1)
  /\ c_loop st text = (o1 ++ fst (c_loop st1 (skipn k text)),
                       snd (c_loop st1 (skipn k text))).
Proof.
  induction n as [|n IH]; intros text st k o1 st1 Hn H.
  - destruct text; [|simpl in Hn; lia].
    destruct k; simpl in H; [|discriminate]. injection H as <- <-.
    split; [tauto|reflexivity].
  - destruct k as [|k].
    + simpl in H. injection H as <- <-. split; [tauto|].
      simpl skipn. destruct (c_loop st text). reflexivity.
    + destruct text as [|ch rest]; [discriminate|].
      rewrite c_reach_cons in H. rewrite c_loop_cons.
      pose proof (c_iter_inv st ch (hd_error rest)) as Hinv.
      destruct (c_iter st ch (hd_error rest)) as [[st' emit] adv].
      simpl in Hinv, Hn. cbv zeta in H.
      destruct adv.
      * destruct (c_reach st' rest k) as [[o fin]|] eqn:E; [|discriminate].
        injection H as <- <-.
        destruct (IH rest st' k o fin ltac:(lia) E) as [Hi Hl].
        split; [tauto|]. rewrite Hl. simpl skipn.
        rewrite app_assoc. reflexivity.
      * destruct rest as [|d rest']; [discriminate|].
        destruct k as [|k'']; [discriminate|].
        destruct (c_reach st' rest' k'') as [[o fin]|] eqn:E; [|discriminate].
        injection H as <- <-.
        destruct (IH rest' st' k'' o fin ltac:(simpl in Hn; lia) E) as [Hi Hl].
        split; [tauto|]. rewrite Hl. simpl skipn.
        rewrite app_assoc. reflexivity.
      * destruct (c_reach st' rest k) as [[o fin]|] eqn:E; [|discriminate].
        injection H as <- <-.
        destruct (IH rest st' k o fin ltac:(lia) E) as [Hi Hl].
        split; [tauto|]. rewrite Hl. simpl skipn.
        rewrite app_assoc. reflexivity.
      * destruct (c_reach st' rest k) as [[o fin]|] eqn:E; [|discriminate].
        injection H as <- <-.
        destruct (IH rest st' k o fin ltac:(lia) E) as [Hi Hl].
        split; [tauto|]. rewrite Hl. simpl skipn.
        rewrite app_assoc. reflexivity.
Qed.

Lemma skipn_length_app (pre rest : str) :
  skipn (length pre) (pre ++ rest) = rest.
Proof.
  rewrite skipn_app, skipn_all, Nat.sub_diag. reflexivity.
Qed.

Lemma c_inv_init : c_inv c_init.
Proof. unfold c_inv. simpl. discriminate. Qed.

(** Outside comments and literals every flag is down. *)
Lemma c_normal_state (st : c_state) :
  c_inv st -> c_normal st ->
  st = mk_c false false false false false (quote st).
Proof.
  destruct st as [il ib istr ichr esc qo]. unfold c_inv, c_normal. simpl.
  intros Hinv [-> [-> [-> ->]]]. destruct esc; [|reflexivity].
  specialize (Hinv eq_refl). discriminate.
Qed.

(** What the scanner does from the place it has arrived at in normal
    mode. *)
Lemma c_reach_normal (pre rest o : str) (st : c_state) :
  c_reach c_init (pre ++ rest) (length pre) = Some (o, st) ->
  c_normal st ->
  strip_c_like_comments (pre ++ rest)
  = o ++ fst (c_loop (mk_c false false false false false (quote st)) rest).
Proof.
  intros Hr Hn.
  destruct (c_reach_spec (length (pre ++ rest)) (pre ++ rest) c_init
              (length pre) o st (Nat.le_refl _) Hr) as [Hinv Hl].
  unfold strip_c_like_comments. rewrite Hl. simpl fst.
  rewrite skipn_length_app.
  rewrite <- (c_normal_state st (Hinv c_inv_init) Hn). reflexivity.
Qed.

Lemma c_loop_open_str (qo : option char) (q : char) (rest : str) :
  q = DQ \/ q = BT ->
  c_loop (mk_c false false false false false qo) (q :: rest)
  = (q :: fst (c_loop (mk_c false false true false false (Some q)) rest),
     snd (c_loop (mk_c false false true false false (Some q)) rest)).
Proof.
  intros [->| ->]; rewrite c_loop_cons; unfold c_iter, eqc; simpl;
    destruct (c_loop _ rest); reflexivity.
Qed.

Lemma c_loop_open_char (qo : option char) (rest : str) :
  c_loop (mk_c false false false false false qo) (SQ :: rest)
  = (SQ :: fst (c_loop (mk_c false false false true false qo) rest),
     snd (c_loop (mk_c false false false true false qo) rest)).
Proof.
  rewrite c_loop_cons; unfold c_iter, eqc; simpl;
    destruct (c_loop _ rest); reflexivity.
Qed.

Lemma c_loop_open_block (qo : option char) (rest : str) :
  c_loop (mk_c false false false false false qo) (SLASH :: STAR :: rest)
  = c_loop (mk_c false true false false false qo) rest.
Proof.
  rewrite c_loop_cons; unfold c_iter, eqc; simpl;
    destruct (c_loop _ rest); reflexivity.
Qed.

(** C-like scanner: a literal that the scanner reaches in normal mode is
    copied as it is. *)
Lemma c_literal_kept (pre : str) (q : char) (body post o : str)
                     (st : c_state) :
  q = DQ \/ q = BT \/ q = SQ -> lit_body q body ->
  c_reach c_init (pre ++ q :: body ++ q :: post) (length pre) = Some (o, st) ->
  c_normal st ->
  exists b, strip_c_like_comments (pre ++ q :: body ++ q :: post)
            = o ++ q :: body ++ q :: b.
Proof.
  intros Hq Hbody Hr Hn. rewrite (c_reach_normal _ _ _ _ Hr Hn).
  destruct Hq as [Hq|[Hq|Hq]].
  - rewrite c_loop_open_str by (left; exact Hq).
    rewrite c_loop_str_body; [|subst q; reflexivity|exact Hbody].
    eexists. reflexivity.
  - rewrite c_loop_open_str by (right; exact Hq).
    rewrite c_loop_str_body; [|subst q; reflexivity|exact Hbody].
    eexists. reflexivity.
  - subst q. rewrite c_loop_open_char.
    rewrite c_loop_char_body; [|exact Hbody].
    eexists. reflexivity.
Qed.



(* ------------------------------------------------------------------ *)
(** ** The SQL scanner *)

(** The loop body followed by the rest of the loop; the inner loop has
    moved on to the next newline. *)
Lemma s_loop_cons (st : s_state) (ch : char) (rest : str) :
  s_loop st (ch :: rest) =
  let '(st', emit, adv) := s_iter st ch (hd_error rest) in
  let '(o, fin) :=
    match adv with
    | By2 => match rest with
             | _ :: rest' => s_loop st' rest'
             | [] => ([], st')
             end
    | ToEol => s_loop st' (skip_to_nl rest)
    | _ => s_loop st' rest
    end in
  (emit ++ o, fin).
Proof.
  simpl s_loop. destruct (s_iter st ch (hd_error rest)) as [[st' emit] adv].
  destruct adv; try reflexivity.
  match goal with
  | |- (let '(o, fin) := ?F rest in _) = _ =>
      assert (E : forall t, F t = s_loop st' (skip_to_nl t))
  end.
  { induction t as [|c t IHt]; [reflexivity|].
    simpl skip_to_nl. destruct (eqc c NL) eqn:Ec.
    - reflexivity.
    - exact IHt. }
  rewrite E. reflexivity.
Qed.

Lemma s_iter_in_str (esc : bool) (q ch : char) (nxt : option char) :
  s_iter (mk_s false true (Some q) esc) ch nxt =
  (if esc then mk_s false true (Some q) false
   else if eqc ch BS then mk_s false true (Some q) true
   else if eqc ch q then mk_s false false (Some q) false
   else mk_s false true (Some q) false,
   [ch], By1).
Proof.
  unfold s_iter. simpl. rewrite (eqc_sym q ch).
  destruct esc; [reflexivity|]. destruct (eqc ch BS); [reflexivity|].
  destruct (eqc ch q); reflexivity.
Qed.

Lemma s_loop_str_body (q : char) (post : str) (body : str) :
  eqc q BS = false ->
  forall esc, body_end q esc body = Some false ->
  s_loop (mk_s false true (Some q) esc) (body ++ q :: post) =
  (body ++ q :: fst (s_loop (mk_s false false (Some q) false) post),
   snd (s_loop (mk_s false false (Some q) false) post)).
Proof.
  intros Hq. induction body as [|c body IH]; intros esc H.
  - simpl in H. injection H as ->. simpl app.
    rewrite s_loop_cons, s_iter_in_str, Hq, eqc_refl.
    destruct (s_loop _ post) as [o fin]. reflexivity.
  - change ((c :: body) ++ q :: post) with (c :: (body ++ q :: post)).
    rewrite s_loop_cons, s_iter_in_str. simpl in H.
    destruct esc.
    + rewrite (IH false H). reflexivity.
    + destruct (eqc c BS).
      * rewrite (IH true H). reflexivity.
      * destruct (eqc c q); [discriminate|].
        rewrite (IH false H). reflexivity.
Qed.



Lemma s_iter_inv (st : s_state) (ch : char) (nxt : option char) :
  s_inv st -> s_inv (fst (fst (s_iter st ch nxt))).
Proof.
  destruct st as [ib istr qo esc]. unfold s_inv, s_iter. simpl.
  destruct ib, istr, esc; simpl;
    repeat match goal with
           | |- context [if ?b then _ else _] => destruct b; simpl
           end;
    intros H1 H2; try reflexivity; try discriminate;
    try (apply H1; reflexivity).
Qed.

Lemma s_inv_init : s_inv s_init.
Proof. unfold s_inv. simpl. discriminate. Qed.

Lemma s_reach_spec (n : nat) :
  forall text st k o1 st1, (length text <= n)%nat ->
  s_reach st text k = Some (o1, st1) ->
  (s_inv st -> s_inv st1)
  /\ s_loop st text = (o1 ++ fst (s_loop st1 (skipn k text)),
                       snd (s_loop st1 (skipn k text))).
Proof.
  induction n as [|n IH]; intros text st k o1 st1 Hn H.
  - destruct text; [|simpl in Hn; lia].
    destruct k; simpl in H; [|discriminate]. injection H as <- <-.
    split; [tauto|reflexivity].
  - destruct k as [|k].
    + assert (H0 : s_reach st text 0 = Some ([], st)) by (destruct text; reflexivity).
      rewrite H0 in H. injection H as <- <-. split; [tauto|].
      simpl skipn. destruct (s_loop st text). reflexivity.
    + destruct text as [|ch rest]; [discriminate|].
      simpl s_reach in H. rewrite s_loop_cons.
      pose proof (s_iter_inv st ch (hd_error rest)) as Hinv.
      destruct (s_iter st ch (hd_error rest)) as [[st' emit] adv].
      simpl in Hinv, Hn. cbv zeta in H.
      destruct adv.
      * destruct (s_reach st' rest k) as [[o fin]|] eqn:E; [|discriminate].
        injection H as <- <-.
        destruct (IH rest st' k o fin ltac:(lia) E) as [Hi Hl].
        split; [tauto|]. rewrite Hl. simpl skipn.
        rewrite app_assoc. reflexivity.
      * destruct rest as [|d rest']; [discriminate|].
        destruct k as [|k'']; [discriminate|].
        destruct (s_reach st' rest' k'') as [[o fin]|] eqn:E; [|discriminate].
        injection H as <- <-.
        destruct (IH rest' st' k'' o fin ltac:(simpl in Hn; lia) E) as [Hi Hl].
        split; [tauto|]. rewrite Hl. simpl skipn.
        rewrite app_assoc. reflexivity.
      * match type of H with
        | match ?F rest k with _ => _ end = _ => set (to_eol := F) in *
        end.
        assert (Haux : forall t j o fin, (length t <= n)%nat ->
                 to_eol t j = Some (o, fin) ->
                 (s_inv st' -> s_inv fin)
                 /\ s_loop st' (skip_to_nl t)
                    = (o ++ fst (s_loop fin (skipn j t)),
                       snd (s_loop fin (skipn j t)))).
        { induction t as [|c t IHt]; intros j o fin Ht Hj.
          - destruct j; simpl in Hj; [|discriminate].
            injection Hj as <- <-. split; [tauto|reflexivity].
          - simpl in Hj. simpl skip_to_nl. destruct (eqc c NL) eqn:Ec.
            + exact (IH (c :: t) st' j o fin Ht Hj).
            + destruct j as [|j]; [discriminate|].
              simpl skipn. apply IHt; [simpl in Ht; lia|exact Hj]. }
        destruct (to_eol rest k) as [[o fin]|] eqn:E; [|discriminate].
        injection H as <- <-.
        destruct (Haux rest k o fin ltac:(lia) E) as [Hi Hl].
        split; [tauto|]. rewrite Hl. simpl skipn.
        rewrite app_assoc. reflexivity.
      * destruct (s_reach st' rest k) as [[o fin]|] eqn:E; [|discriminate].
        injection H as <- <-.
        destruct (IH rest st' k o fin ltac:(lia) E) as [Hi Hl].
        split; [tauto|]. rewrite Hl. simpl skipn.
        rewrite app_assoc. reflexivity.
Qed.

Lemma s_normal_state (st : s_state) :
  s_inv st -> s_normal st -> st = mk_s false false (s_quote st) false.
Proof.
  destruct st as [ib istr qo esc]. unfold s_inv, s_normal. simpl.
  intros Hinv [-> ->]. destruct esc; [|reflexivity].
  specialize (Hinv eq_refl). discriminate.
Qed.

Lemma s_reach_normal (pre rest o : str) (st : s_state) :
  s_reach s_init (pre ++ rest) (length pre) = Some (o, st) ->
  s_normal st ->
  strip_sql_comments (pre ++ rest)
  = o ++ fst (s_loop (mk_s false false (s_quote st) false) rest).
Proof.
  intros Hr Hn.
  destruct (s_reach_spec (length (pre ++ rest)) (pre ++ rest) s_init
              (length pre) o st (Nat.le_refl _) Hr) as [Hinv Hl].
  unfold strip_sql_comments. rewrite Hl. simpl fst.
  rewrite skipn_length_app.
  rewrite <- (s_normal_state st (Hinv s_inv_init) Hn). reflexivity.
Qed.

Lemma s_loop_open_str (qo : option char) (q : char) (rest : str) :
  q = SQ \/ q = DQ ->
  s_loop (mk_s false false qo false) (q :: rest)
  = (q :: fst (s_loop (mk_s false true (Some q) false) rest),
     snd (s_loop (mk_s false true (Some q) false) rest)).
Proof.
  intros [->| ->]; rewrite s_loop_cons; unfold s_iter, eqc; simpl;
    destruct (s_loop _ rest); reflexivity.
Qed.

Lemma s_loop_open_block (qo : option char) (rest : str) :
  s_loop (mk_s false false qo false) (SLASH :: STAR :: rest)
  = s_loop (mk_s true false qo false) rest.
Proof.
  rewrite s_loop_cons; unfold s_iter, eqc; simpl;
    destruct (s_loop _ rest); reflexivity.
Qed.

(** SQL scanner: a literal that the scanner reaches in normal mode is
    copied as it is. *)
Lemma s_literal_kept (pre : str) (q : char) (body post o : str)
                     (st : s_state) :
  q = SQ \/ q = DQ -> lit_body q body ->
  s_reach s_init (pre ++ q :: body ++ q :: post) (length pre) = Some (o, st) ->
  s_normal st ->
  exists b, strip_sql_comments (pre ++ q :: body ++ q :: post)
            = o ++ q :: body ++ q :: b.
Proof.
  intros Hq Hbody Hr Hn. rewrite (s_reach_normal _ _ _ _ Hr Hn).
  rewrite s_loop_open_str by exact Hq.
  rewrite s_loop_str_body;
    [|destruct Hq; subst q; reflexivity|exact Hbody].
  eexists. reflexivity.
Qed.



(* ------------------------------------------------------------------ *)
(** ** [split] and [join] *)

Lemma split_acc_cur (sep : char) (s : str) :
  forall cur, split_acc sep cur s
              = (cur ++ hd [] (split sep s)) :: tl (split sep s).
Proof.
  unfold split. induction s as [|c s IH]; intros cur; simpl.
  - rewrite app_nil_r. reflexivity.
  - destruct (eqc c sep).
    + simpl. rewrite app_nil_r. reflexivity.
    + rewrite (IH (cur ++ [c])), (IH [c]). simpl.
      rewrite <- app_assoc. reflexivity.
Qed.

Lemma split_nil (sep : char) : split sep [] = [[]].
Proof. reflexivity. Qed.

Lemma split_cons (sep c : char) (s : str) :
  split sep (c :: s)
  = if eqc c sep then [] :: split sep s else cons_head c (split sep s).
Proof.
  unfold split at 1. simpl. destruct (eqc c sep); [reflexivity|].
  rewrite split_acc_cur. simpl.
  destruct (split sep s) eqn:E; [|reflexivity].
  unfold split in E. destruct s as [|d s]; simpl in E; [discriminate|].
  destruct (eqc d sep); [discriminate|].
  rewrite split_acc_cur in E. discriminate.
Qed.

Lemma split_nonempty (sep : char) (s : str) : split sep s <> [].
Proof.
  destruct s as [|c s]; [discriminate|]. rewrite split_cons.
  destruct (eqc c sep); [discriminate|].
  destruct (split sep s); discriminate.
Qed.

(** The fields of a concatenation: the last field of the first part and
    the first field of the second part are one field. *)
Lemma split_app (sep : char) (a b : str) :
  split sep (a ++ b)
  = removelast (split sep a)
    ++ [last (split sep a) [] ++ hd [] (split sep b)]
    ++ tl (split sep b).
Proof.
  induction a as [|c a IH].
  - simpl. pose proof (split_nonempty sep b).
    destruct (split sep b); [contradiction|reflexivity].
  - change ((c :: a) ++ b) with (c :: (a ++ b)). rewrite !split_cons.
    pose proof (split_nonempty sep a) as Hne.
    destruct (eqc c sep).
    + rewrite IH. destruct (split sep a) as [|l ls]; [contradiction|].
      reflexivity.
    + rewrite IH. destruct (split sep a) as [|l [|l2 ls]]; [contradiction| |];
        reflexivity.
Qed.

(** A text without the separator is one field. *)
Lemma split_one_field (sep : char) (s : str) :
  ~ In sep s -> split sep s = [s].
Proof.
  induction s as [|c s IH]; intros H; [reflexivity|].
  rewrite split_cons. destruct (eqc c sep) eqn:E.
  - apply eqc_eq in E. subst c. elim H. left. reflexivity.
  - rewrite IH; [reflexivity|]. intros Hin. apply H. right. exact Hin.
Qed.

Lemma join_cons (sep p : str) (rest : list str) :
  rest <> [] -> join sep (p :: rest) = p ++ sep ++ join sep rest.
Proof. destruct rest; [contradiction|reflexivity]. Qed.

(** A field is found as it is in the joined text. *)
Lemma join_middle (sep : str) (xs : list str) (m : str) (ys : list str) :
  exists a b, join sep (xs ++ [m] ++ ys) = a ++ m ++ b.
Proof.
  induction xs as [|x xs [a [b IH]]].
  - exists []. destruct ys as [|y ys].
    + exists []. simpl. rewrite app_nil_r. reflexivity.
    + exists (sep ++ join sep (y :: ys)). reflexivity.
  - exists (x ++ sep ++ a), b.
    change ((x :: xs) ++ [m] ++ ys) with (x :: (xs ++ [m] ++ ys)).
    rewrite join_cons; [|destruct xs; discriminate].
    rewrite IH, <- !app_assoc. reflexivity.
Qed.

(* ------------------------------------------------------------------ *)
(** ** [replace] and the line endings *)

Lemma replace_one (x y : char) (s : str) :
  replace [x] [y] s = map (fun c => if eqc c x then y else c) s.
Proof.
  unfold replace. induction s as [|c s IH]; [reflexivity|].
  simpl. rewrite (eqc_sym x c). destruct (eqc c x); simpl; rewrite IH;
    reflexivity.
Qed.

Lemma replace_from_cons (skip : nat) (old new : str) (c : char) (s : str) :
  replace_from skip old new (c :: s) =
  match skip with
  | S k => replace_from k old new s
  | O => if starts_with old (c :: s)
         then new ++ replace_from (length old - 1) old new s
         else c :: replace_from 0 old new s
  end.
Proof. reflexivity. Qed.

Lemma replace_crlf_app (b : str) :
  hd_error b <> Some NL ->
  forall a skip, (skip <= length a)%nat ->
  replace_from skip [CR; NL] [NL] (a ++ b)
  = replace_from skip [CR; NL] [NL] a ++ replace [CR; NL] [NL] b.
Proof.
  intros Hb. induction a as [|c a IH]; intros skip Hs.
  - simpl in Hs. replace skip with 0%nat by lia. reflexivity.
  - change ((c :: a) ++ b) with (c :: (a ++ b)).
    rewrite !replace_from_cons. destruct skip as [|k].
    + assert (E : eqc CR c && (starts_with [NL] (a ++ b))
                  = eqc CR c && (starts_with [NL] a)).
      { destruct a as [|d a]; [|reflexivity]. simpl.
        destruct b as [|e b]; [reflexivity|]. simpl.
        destruct (eqc NL e) eqn:En; [|reflexivity].
        apply eqc_eq in En. subst e. elim Hb. reflexivity. }
      change (starts_with [CR; NL] (c :: a ++ b))
        with (eqc CR c && (starts_with [NL] (a ++ b))).
      change (starts_with [CR; NL] (c :: a))
        with (eqc CR c && (starts_with [NL] a)).
      rewrite E. destruct (eqc CR c && starts_with [NL] a) eqn:E2.
      * rewrite IH; [reflexivity|]. apply andb_true_iff in E2.
        destruct E2 as [_ E2]. destruct a; [discriminate|simpl; lia].
      * rewrite IH; [reflexivity|lia].
    + rewrite IH; [reflexivity|simpl in Hs; lia].
Qed.

Lemma replace_crlf_no_cr (a b : str) :
  ~ In CR a ->
  replace [CR; NL] [NL] (a ++ b) = a ++ replace [CR; NL] [NL] b.
Proof.
  unfold replace. induction a as [|c a IH]; intros H; [reflexivity|].
  change ((c :: a) ++ b) with (c :: (a ++ b)). simpl replace_from.
  destruct (eqc CR c) eqn:E.
  - apply eqc_eq in E. subst c. elim H. left. reflexivity.
  - simpl. rewrite IH; [reflexivity|]. intros Hin. apply H. right. exact Hin.
Qed.

Lemma map_cr_no_cr (a : str) :
  ~ In CR a -> map (fun c => if eqc c CR then NL else c) a = a.
Proof.
  induction a as [|c a IH]; intros H; [reflexivity|]. simpl.
  destruct (eqc c CR) eqn:E.
  - apply eqc_eq in E. subst c. elim H. left. reflexivity.
  - rewrite IH; [reflexivity|]. intros Hin. apply H. right. exact Hin.
Qed.

(** The line endings are rewritten on either side of a piece of text that
    holds no carriage return and does not start with a newline. *)
Lemma unix_newlines_around (pre piece post : str) :
  hd_error piece <> Some NL -> piece <> [] -> ~ In CR piece ->
  unix_newlines (pre ++ piece ++ post)
  = unix_newlines pre ++ piece ++ unix_newlines post.
Proof.
  intros Hhd Hne Hcr. unfold unix_newlines.
  unfold replace at 2.
  rewrite (replace_crlf_app (piece ++ post)); [|destruct piece; [contradiction|exact Hhd]|lia].
  rewrite (replace_crlf_no_cr piece post Hcr).
  rewrite !replace_one, !map_app, (map_cr_no_cr piece Hcr). reflexivity.
Qed.

(* ------------------------------------------------------------------ *)
(** ** The line scanners *)

Lemma h_loop_cons (st : l_state) (ch : char) (rest : str) :
  h_loop st (ch :: rest) =
  let '(st', emit, adv) := h_iter st ch in
  match adv with
  | Break => (emit, None)
  | _ => let '(o, fin) := h_loop st' rest in (emit ++ o, fin)
  end.
Proof. reflexivity. Qed.

Lemma h_iter_in_str (esc : bool) (q ch : char) :
  h_iter (mk_l true (Some q) esc) ch =
  (if esc then mk_l true (Some q) false
   else if eqc ch BS then mk_l true (Some q) true
   else if eqc ch q then mk_l false (Some q) false
   else mk_l true (Some q) false,
   [ch], By1).
Proof.
  unfold h_iter. simpl. rewrite (eqc_sym q ch).
  destruct esc; [reflexivity|]. destruct (eqc ch BS); [reflexivity|].
  destruct (eqc ch q); reflexivity.
Qed.

Lemma h_loop_str_body (q : char) (post : str) (body : str) :
  eqc q BS = false ->
  forall esc, body_end q esc body = Some false ->
  h_loop (mk_l true (Some q) esc) (body ++ q :: post) =
  (body ++ q :: fst (h_loop (mk_l false (Some q) false) post),
   snd (h_loop (mk_l false (Some q) false) post)).
Proof.
  intros Hq. induction body as [|c body IH]; intros esc H.
  - simpl in H. injection H as ->. simpl app.
    rewrite h_loop_cons, h_iter_in_str, Hq, eqc_refl.
    destruct (h_loop _ post) as [o fin]. reflexivity.
  - change ((c :: body) ++ q :: post) with (c :: (body ++ q :: post)).
    rewrite h_loop_cons, h_iter_in_str. simpl in H.
    destruct esc.
    + rewrite (IH false H). reflexivity.
    + destruct (eqc c BS).
      * rewrite (IH true H). reflexivity.
      * destruct (eqc c q); [discriminate|].
        rewrite (IH false H). reflexivity.
Qed.


Lemma h_iter_inv (st : l_state) (ch : char) :
  l_inv st -> l_inv (fst (fst (h_iter st ch))).
Proof.
  destruct st as [istr qo esc]. unfold l_inv, h_iter. simpl.
  destruct istr, esc; simpl;
    repeat match goal with
           | |- context [if ?b then _ else _] => destruct b; simpl
           end;
    intros H1 H2; try reflexivity; try discriminate;
    try (apply H1; reflexivity).
Qed.

(** A line in two parts: when the scan of the first part reaches its end,
    the scan of the second part goes on from the state reached. *)
Lemma h_loop_app (a b : str) :
  forall st o st1, h_loop st a = (o, Some st1) ->
  (l_inv st -> l_inv st1)
  /\ h_loop st (a ++ b) = (o ++ fst (h_loop st1 b), snd (h_loop st1 b)).
Proof.
  induction a as [|c a IH]; intros st o st1 H.
  - simpl in H. injection H as <- <-. split; [tauto|].
    simpl. destruct (h_loop st b). reflexivity.
  - change ((c :: a) ++ b) with (c :: (a ++ b)).
    rewrite h_loop_cons in *. pose proof (h_iter_inv st c) as Hinv.
    destruct (h_iter st c) as [[st' emit] adv]. simpl in Hinv.
    destruct adv; try discriminate;
      destruct (h_loop st' a) as [o' fin] eqn:E;
      injection H as <- ->;
      destruct (IH st' o' st1 E) as [Hi Hl];
      (split; [tauto|]); rewrite Hl, app_assoc; reflexivity.
Qed.

Lemma l_inv_init : l_inv l_init.
Proof. unfold l_inv. simpl. discriminate. Qed.

Lemma l_normal_state (st : l_state) :
  l_inv st -> l_in_str st = false -> st = mk_l false (l_quote st) false.
Proof.
  destruct st as [istr qo esc]. unfold l_inv. simpl.
  intros Hinv ->. destruct esc; [|reflexivity].
  specialize (Hinv eq_refl). discriminate.
Qed.

Lemma h_loop_open_str (qo : option char) (q : char) (rest : str) :
  q = SQ \/ q = DQ ->
  h_loop (mk_l false qo false) (q :: rest)
  = (q :: fst (h_loop (mk_l true (Some q) false) rest),
     snd (h_loop (mk_l true (Some q) false) rest)).
Proof.
  intros [->| ->]; rewrite h_loop_cons; unfold h_iter, eqc; simpl;
    destruct (h_loop _ rest); reflexivity.
Qed.

(** A literal inside a line, reached outside a string and before any
    hash sign, is copied as it is. *)
Lemma h_line_literal (lpre : str) (q : char) (body lpost o : str)
                     (st : l_state) :
  q = SQ \/ q = DQ -> lit_body q body ->
  h_loop l_init lpre = (o, Some st) -> l_in_str st = false ->
  fst (h_loop l_init (lpre ++ q :: body ++ q :: lpost))
  = o ++ q :: body ++ q :: fst (h_loop (mk_l false (Some q) false) lpost).
Proof.
  intros Hq Hbody Hr Hn.
  destruct (h_loop_app lpre (q :: body ++ q :: lpost) l_init o st Hr)
    as [Hinv Hl].
  rewrite Hl. cbn [fst].
  rewrite (l_normal_state st (Hinv l_inv_init) Hn).
  rewrite h_loop_open_str by exact Hq. cbn [fst].
  rewrite h_loop_str_body;
    [|destruct Hq; subst q; reflexivity|exact Hbody].
  reflexivity.
Qed.

(** The lines of a text around a piece that lies within one line. *)
Lemma split_around (a piece b : str) :
  ~ In NL piece ->
  split NL (a ++ piece ++ b)
  = removelast (split NL a)
    ++ [last (split NL a) [] ++ piece ++ hd [] (split NL b)]
    ++ tl (split NL b).
Proof.
  intros Hnl. rewrite (split_app NL a (piece ++ b)).
  rewrite (split_app NL piece b), (split_one_field NL piece Hnl).
  reflexivity.
Qed.

Lemma join_middle_literal (sep : str) (xs : list str) (m1 : str) (q : char)
                           (body m2 : str) (ys : list str) :
  exists a b, join sep (xs ++ [m1 ++ q :: body ++ q :: m2] ++ ys)
              = a ++ q :: body ++ q :: b.
Proof.
  destruct (join_middle sep xs (m1 ++ q :: body ++ q :: m2) ys) as [a [b H]].
  exists (a ++ m1), (m2 ++ b). rewrite H, <- !app_assoc. simpl.
  rewrite <- !app_assoc. reflexivity.
Qed.

(** Hash-line scanner: a literal on one line that the scanner reaches
    outside a string and a comment is found as it is in the output. *)
Lemma h_literal_kept (pre : str) (q : char) (body post o : str)
                     (st : l_state) :
  q = SQ \/ q = DQ -> lit_body q body -> ~ In NL body -> ~ In CR body ->
  h_loop l_init (last_line pre) = (o, Some st) -> l_in_str st = false ->
  exists a b, strip_hash_line_comments (pre ++ q :: body ++ q :: post)
              = a ++ q :: body ++ q :: b.
Proof.
  intros Hq Hbody Hnl Hcr Hr Hn.
  assert (Hq' : q <> NL /\ q <> CR) by (destruct Hq; subst q; split; discriminate).
  destruct Hq' as [HqN HqC].
  assert (HnlL : ~ In NL (q :: body ++ [q])).
  { intros [H|H]; [congruence|]. apply in_app_or in H.
    destruct H as [H|[H|[]]]; [exact (Hnl H)|congruence]. }
  assert (HcrL : ~ In CR (q :: body ++ [q])).
  { intros [H|H]; [congruence|]. apply in_app_or in H.
    destruct H as [H|[H|[]]]; [exact (Hcr H)|congruence]. }
  assert (E : split NL (unix_newlines (pre ++ q :: body ++ q :: post))
              = removelast (split NL (unix_newlines pre))
                ++ [last_line pre ++ q :: body ++ q
                      :: hd [] (split NL (unix_newlines post))]
                ++ tl (split NL (unix_newlines post))).
  { replace (pre ++ q :: body ++ q :: post)
      with (pre ++ (q :: body ++ [q]) ++ post)
      by (simpl; rewrite <- app_assoc; reflexivity).
    rewrite (unix_newlines_around pre (q :: body ++ [q]) post);
      [|simpl; congruence|discriminate|exact HcrL].
    rewrite (split_around _ _ _ HnlL). unfold last_line. simpl.
    rewrite <- app_assoc. reflexivity. }
  unfold strip_hash_line_comments. rewrite E, !map_app. cbn [map].
  rewrite (h_line_literal (last_line pre) q body _ o st Hq Hbody Hr Hn).
  apply join_middle_literal.
Qed.

Lemma py_loop_eq (line : str) :
  forall st, py_loop st line = h_loop st line.
Proof.
  induction line as [|c line IH]; intros st; [reflexivity|].
  simpl. change (py_iter st c) with (h_iter st c).
  destruct (h_iter st c) as [[st' emit] adv].
  destruct adv; rewrite ?IH; reflexivity.
Qed.

Lemma py_lines_plain (lines : list str) :
  forall in_triple triple_quote,
  py_lines false in_triple triple_quote lines
  = map (fun line => fst (h_loop l_init line)) lines.
Proof.
  induction lines as [|l lines IH]; intros it tq; [reflexivity|].
  simpl. rewrite py_loop_eq, IH. reflexivity.
Qed.

Lemma py_lines_no_triple (lines : list str) :
  Forall no_triple lines ->
  forall triple_quote,
  py_lines true false triple_quote lines
  = map (fun line => fst (h_loop l_init line)) lines.
Proof.
  induction 1 as [|l lines [H1 H2] _ IH]; intros tq; [reflexivity|].
  simpl. unfold py_open. rewrite H1, H2. simpl.
  rewrite py_loop_eq, IH. reflexivity.
Qed.

(** With docstring stripping, a text without triple quotes is scanned as
    without it. *)
Lemma python_no_triple_is_hash_line (text : str) :
  Forall no_triple (split NL (unix_newlines text)) ->
  strip_python_comments text true = strip_hash_line_comments text.
Proof.
  intros H. unfold strip_python_comments, strip_hash_line_comments.
  rewrite (py_lines_no_triple _ H). reflexivity.
Qed.


(** Without docstring stripping the Python scanner is the hash-line
    scanner. *)
Lemma python_plain_is_hash_line (text : str) :
  strip_python_comments text false = strip_hash_line_comments text.
Proof.
  unfold strip_python_comments, strip_hash_line_comments.
  rewrite py_lines_plain. reflexivity.
Qed.

(* ------------------------------------------------------------------ *)
(** ** [find] and the HTML scanner *)

Lemma find_lower (sub s : str) : (-1 <= find sub s)%Z.
Proof.
  induction s as [|x s IH]; simpl.
  - destruct (starts_with sub []); lia.
  - destruct (starts_with sub (x :: s)); [lia|].
    destruct (Z.ltb_spec (find sub s) 0); lia.
Qed.



Lemma starts_with_app_long (p y r : str) :
  (length p <= length y)%nat -> starts_with p (y ++ r) = starts_with p y.
Proof.
  revert y. induction p as [|x p IH]; intros y H; [reflexivity|].
  destruct y as [|c y]; [simpl in H; lia|]. simpl.
  rewrite IH; [reflexivity|simpl in H; lia].
Qed.

Lemma starts_with_app_nth (p y : str) (c : char) (r : str) :
  (length y < length p)%nat -> starts_with p (y ++ c :: r) = true ->
  nth_error p (length y) = Some c.
Proof.
  revert y. induction p as [|x p IH]; intros y H E; [simpl in H; lia|].
  destruct y as [|d y]; simpl in *.
  - apply andb_true_iff in E. destruct E as [E _]. apply eqc_eq in E.
    subst x. reflexivity.
  - apply andb_true_iff in E. destruct E as [_ E]. apply IH; [lia|exact E].
Qed.


Lemma find_cons (sub : str) (c : char) (s : str) :
  find sub (c :: s)
  = if starts_with sub (c :: s) then 0%Z
    else if (find sub s <? 0)%Z then (-1)%Z else (find sub s + 1)%Z.
Proof. reflexivity. Qed.




Lemma html_sub_cons (skip : nat) (c : char) (s : str) :
  html_sub skip (c :: s) =
  match skip with
  | S k => html_sub k s
  | O => match html_match (c :: s) with
         | Some n => html_sub (n - 1) s
         | None => c :: html_sub 0 s
         end
  end.
Proof. reflexivity. Qed.



(* ------------------------------------------------------------------ *)
(** ** Escapes inside literals *)

Lemma c_escape_pair (st : c_state) (c : char) (nxt nxt' : option char)
                    (rest : str) :
  c_in_literal st -> escape st = false ->
  c_iter st BS nxt = (c_set_escape st true, [BS], By1)
  /\ c_iter (c_set_escape st true) c nxt' = (st, [c], By1)
  /\ c_loop st (BS :: c :: rest)
     = (BS :: c :: fst (c_loop st rest), snd (c_loop st rest)).
Proof.
  intros Hlit Hesc. destruct st as [il ib istr ichr esc qo].
  unfold c_in_literal in Hlit. simpl in Hlit, Hesc.
  destruct Hlit as [-> [-> Hlit]]. subst esc.
  assert (E1 : forall n, c_iter (mk_c false false istr ichr false qo) BS n
               = (mk_c false false istr ichr true qo, [BS], By1)).
  { intros n. unfold c_iter. simpl. rewrite Hlit. reflexivity. }
  assert (E2 : forall n, c_iter (mk_c false false istr ichr true qo) c n
               = (mk_c false false istr ichr false qo, [c], By1)).
  { intros n. unfold c_iter. simpl. rewrite Hlit. reflexivity. }
  split; [exact (E1 nxt)|]. split; [exact (E2 nxt')|].
  rewrite c_loop_cons, E1, c_loop_cons, E2.
  destruct (c_loop _ rest). reflexivity.
Qed.

Lemma s_escape_pair (st : s_state) (c : char) (nxt nxt' : option char)
                    (rest : str) :
  s_in_block st = false -> s_in_str st = true -> s_escape st = false ->
  s_iter st BS nxt = (s_set_escape st true, [BS], By1)
  /\ s_iter (s_set_escape st true) c nxt' = (st, [c], By1)
  /\ s_loop st (BS :: c :: rest)
     = (BS :: c :: fst (s_loop st rest), snd (s_loop st rest)).
Proof.
  intros H1 H2 H3. destruct st as [ib istr qo esc]. simpl in H1, H2, H3.
  subst ib istr esc.
  assert (E1 : forall n, s_iter (mk_s false true qo false) BS n
               = (mk_s false true qo true, [BS], By1)) by reflexivity.
  assert (E2 : forall n, s_iter (mk_s false true qo true) c n
               = (mk_s false true qo false, [c], By1)) by reflexivity.
  split; [exact (E1 nxt)|]. split; [exact (E2 nxt')|].
  rewrite s_loop_cons, E1, s_loop_cons, E2.
  destruct (s_loop _ rest). reflexivity.
Qed.

Lemma h_escape_pair (st : l_state) (c : char) (rest : str) :
  l_in_str st = true -> l_escape st = false ->
  h_iter st BS = (l_set_escape st true, [BS], By1)
  /\ h_iter (l_set_escape st true) c = (st, [c], By1)
  /\ h_loop st (BS :: c :: rest)
     = (BS :: c :: fst (h_loop st rest), snd (h_loop st rest)).
Proof.
  intros H1 H2. destruct st as [istr qo esc]. simpl in H1, H2.
  subst istr esc.
  assert (E1 : h_iter (mk_l true qo false) BS
               = (mk_l true qo true, [BS], By1)).
  { reflexivity. }
  assert (E2 : h_iter (mk_l true qo true) c
               = (mk_l true qo false, [c], By1)) by reflexivity.
  split; [exact E1|]. split; [exact E2|].
  rewrite h_loop_cons, E1, h_loop_cons, E2.
  destruct (h_loop _ rest). reflexivity.
Qed.

(** C2. In each of the four scanners that know literals, a backslash met
    inside a literal with no escape pending sets the escape flag, and the
    next character, whatever it is and so also the quote, is copied and
    only clears the flag: behind the two characters the scanner is in the
    very state it was in before, inside the literal with no escape
    pending. *)
Theorem escaped_quote_stays_in_literal :
  (forall st c nxt nxt' rest,
     c_in_literal st -> escape st = false ->
     c_iter st BS nxt = (c_set_escape st true, [BS], By1)
     /\ c_iter (c_set_escape st true) c nxt' = (st, [c], By1)
     /\ c_loop st (BS :: c :: rest)
        = (BS :: c :: fst (c_loop st rest), snd (c_loop st rest)))
  /\ (forall st c nxt nxt' rest,
        s_in_block st = false -> s_in_str st = true -> s_escape st = false ->
        s_iter st BS nxt = (s_set_escape st true, [BS], By1)
        /\ s_iter (s_set_escape st true) c nxt' = (st, [c], By1)
        /\ s_loop st (BS :: c :: rest)
           = (BS :: c :: fst (s_loop st rest), snd (s_loop st rest)))
  /\ (forall st c rest,
        l_in_str st = true -> l_escape st = false ->
        h_iter st BS = (l_set_escape st true, [BS], By1)
        /\ h_iter (l_set_escape st true) c = (st, [c], By1)
        /\ h_loop st (BS :: c :: rest)
           = (BS :: c :: fst (h_loop st rest), snd (h_loop st rest)))
  /\ (forall st c rest,
        l_in_str st = true -> l_escape st = false ->
        py_iter st BS = (l_set_escape st true, [BS], By1)
        /\ py_iter (l_set_escape st true) c = (st, [c], By1)
        /\ py_loop st (BS :: c :: rest)
           = (BS :: c :: fst (py_loop st rest), snd (py_loop st rest))).
Proof.
  split; [|split; [|split]].
  - intros. apply c_escape_pair; assumption.
  - intros. apply s_escape_pair; assumption.
  - intros. apply h_escape_pair; assumption.
  - intros st c rest H1 H2. rewrite !py_loop_eq.
    exact (h_escape_pair st c rest H1 H2).
Qed.

Lemma escaped_quote_stays_in_literal_witness :
  let st := mk_c false false true false false (Some DQ) in
  c_in_literal st /\ escape st = false /\
  c_loop st [BS; DQ; SLASH; SLASH; DQ]
  = (BS :: DQ :: fst (c_loop st [SLASH; SLASH; DQ]),
     snd (c_loop st [SLASH; SLASH; DQ])).
Proof.
  intros st.
  assert (H1 : c_in_literal st) by (repeat split; reflexivity).
  assert (H2 : escape st = false) by reflexivity.
  split; [exact H1|]. split; [exact H2|].
  exact (proj2 (proj2 (proj1 escaped_quote_stays_in_literal
                         st DQ None None [SLASH; SLASH; DQ] H1 H2))).
Defined.

(* ------------------------------------------------------------------ *)
(** ** Literals and comment openers *)

(** C1, as amended. In the C-like, the SQL, the hash-line and the Python
    scanner, a complete string or character literal that the scanner
    reaches outside comments and literals comes out character for
    character, whatever it holds; for the two line scanners the literal
    lies within one line, and for the Python scanner docstring stripping
    is off or no line of the text holds a triple quote. The HTML scanner
    knows no literals and is left out. *)
Theorem literal_survives_stripping :
  (forall pre q body post o st,
     q = DQ \/ q = BT \/ q = SQ -> lit_body q body ->
     c_reach c_init (pre ++ q :: body ++ q :: post) (length pre)
       = Some (o, st) ->
     c_normal st ->
     exists b, strip_c_like_comments (pre ++ q :: body ++ q :: post)
               = o ++ q :: body ++ q :: b)
  /\ (forall pre q body post o st,
        q = SQ \/ q = DQ -> lit_body q body ->
        s_reach s_init (pre ++ q :: body ++ q :: post) (length pre)
          = Some (o, st) ->
        s_normal st ->
        exists b, strip_sql_comments (pre ++ q :: body ++ q :: post)
                  = o ++ q :: body ++ q :: b)
  /\ (forall pre q body post o st,
        q = SQ \/ q = DQ -> lit_body q body ->
        ~ In NL body -> ~ In CR body ->
        h_loop l_init (last_line pre) = (o, Some st) ->
        l_in_str st = false ->
        exists a b, strip_hash_line_comments (pre ++ q :: body ++ q :: post)
                    = a ++ q :: body ++ q :: b)
  /\ (forall strip_docstrings pre q body post o st,
        q = SQ \/ q = DQ -> lit_body q body ->
        ~ In NL body -> ~ In CR body ->
        py_loop l_init (last_line pre) = (o, Some st) ->
        l_in_str st = false ->
        strip_docstrings = false
        \/ Forall no_triple
             (split NL (unix_newlines (pre ++ q :: body ++ q :: post))) ->
        exists a b,
          strip_python_comments (pre ++ q :: body ++ q :: post)
                                strip_docstrings
          = a ++ q :: body ++ q :: b).
Proof.
  split; [|split; [|split]].
  - intros pre q body post o st. apply c_literal_kept.
  - intros pre q body post o st. apply s_literal_kept.
  - intros pre q body post o st. apply h_literal_kept.
  - intros sd pre q body post o st Hq Hb Hnl Hcr Hr Hn Hsd.
    rewrite py_loop_eq in Hr.
    destruct Hsd as [->|Hno].
    + rewrite python_plain_is_hash_line.
      exact (h_literal_kept pre q body post o st Hq Hb Hnl Hcr Hr Hn).
    + destruct sd; [rewrite (python_no_triple_is_hash_line _ Hno)
                   |rewrite python_plain_is_hash_line];
        exact (h_literal_kept pre q body post o st Hq Hb Hnl Hcr Hr Hn).
Qed.

Lemma literal_survives_stripping_witness :
  let pre := lit "u = " in
  let body := lit "http://example.com/*" in
  let post := lit "; // home" in
  let st := c_init in
  (DQ = DQ \/ DQ = BT \/ DQ = SQ) /\ lit_body DQ body /\
  c_reach c_init (pre ++ DQ :: body ++ DQ :: post) (length pre)
    = Some (pre, st) /\
  c_normal st /\
  exists b, strip_c_like_comments (pre ++ DQ :: body ++ DQ :: post)
            = pre ++ DQ :: body ++ DQ :: b.
Proof.
  intros pre body post st.
  assert (H1 : DQ = DQ \/ DQ = BT \/ DQ = SQ) by (left; reflexivity).
  assert (H2 : lit_body DQ body) by reflexivity.
  assert (H3 : c_reach c_init (pre ++ DQ :: body ++ DQ :: post) (length pre)
               = Some (pre, st)) by reflexivity.
  assert (H4 : c_normal st) by (repeat split; reflexivity).
  split; [exact H1|]. split; [exact H2|]. split; [exact H3|].
  split; [exact H4|].
  exact (proj1 literal_survives_stripping pre DQ body post pre st H1 H2 H3 H4).
Defined.

(** C1 as stated fails for the HTML scanner: the comment pattern is
    removed inside a string literal too, so the literal does not come out
    as it was. *)
Lemma html_literal_counterexample :
  let literal := [DQ] ++ lit "<!-- not a comment -->" ++ [DQ] in
  ~ exists a b,
      strip_html_comments (lit "x = " ++ literal) = a ++ literal ++ b.
Proof.
  intros literal [a [b H]].
  assert (E : strip_html_comments (lit "x = " ++ literal)
              = lit "x = " ++ [DQ; DQ]) by reflexivity.
  rewrite E in H. apply (f_equal (@length N)) in H.
  rewrite !length_app in H. simpl in H. lia.
Qed.

(* ------------------------------------------------------------------ *)
(** ** Triple-quoted strings *)

(** C4 fails on the code. A triple-quoted string that opens and closes on
    one line is taken for the opening of a region: the rest of its line,
    the closing quotes included, is dropped with it, and so is every
    following line up to the next triple quote. In the first text the
    body of the function goes with its docstring; in the second the code
    lines are dropped and the text of the second docstring is kept. *)
Theorem py_one_line_docstring :
  strip_python_comments
    (lit "def f():" ++ [NL]
     ++ lit "    " ++ TRIPLE_DQ ++ lit "Doc." ++ TRIPLE_DQ ++ lit " + g()" ++ [NL]
     ++ lit "    return 1" ++ [NL])
    true
  = lit "def f():" ++ [NL] ++ lit "    "
  /\ strip_python_comments
       (TRIPLE_DQ ++ lit "a" ++ TRIPLE_DQ ++ [NL] ++ lit "x = 1" ++ [NL]
        ++ TRIPLE_DQ ++ lit "b" ++ TRIPLE_DQ ++ [NL] ++ lit "y = 2")
       true
     = [NL] ++ lit "b".
Proof. split; vm_compute; reflexivity. Qed.

(* ------------------------------------------------------------------ *)
(** ** White space at the ends of a text of lines *)

Lemma rstrip_cons (c : char) (s : str) :
  rstrip (c :: s) = match rstrip s with
                    | [] => if isspace c then [] else [c]
                    | r => c :: r
                    end.
Proof. reflexivity. Qed.

Lemma rstrip_app (a b : str) :
  rstrip (a ++ b) = match rstrip b with
                    | [] => rstrip a
                    | r => a ++ r
                    end.
Proof.
  induction a as [|c a IH].
  - simpl. destruct (rstrip b); reflexivity.
  - change ((c :: a) ++ b) with (c :: (a ++ b)).
    rewrite !rstrip_cons, IH. destruct (rstrip b) as [|y r]; [reflexivity|].
    destruct a; reflexivity.
Qed.

Lemma lstrip_app_nonblank (a b : str) :
  lstrip a <> [] -> lstrip (a ++ b) = lstrip a ++ b.
Proof.
  induction a as [|c a IH]; intros H; [contradiction|]. simpl in *.
  destruct (isspace c); [exact (IH H)|reflexivity].
Qed.

Lemma lstrip_nonblank (l : str) : rstrip l <> [] -> lstrip l <> [].
Proof.
  induction l as [|c l IH]; intros H; [contradiction|].
  rewrite rstrip_cons in H. simpl. destruct (isspace c) eqn:E; [|discriminate].
  apply IH. destruct (rstrip l); [contradiction|discriminate].
Qed.

Lemma rstrip_lstrip (l : str) : rstrip (lstrip l) = lstrip (rstrip l).
Proof.
  induction l as [|c l IH]; [reflexivity|].
  rewrite rstrip_cons. simpl lstrip at 1. destruct (isspace c) eqn:E.
  - rewrite IH. destruct (rstrip l) as [|y r]; [reflexivity|].
    simpl. rewrite E. reflexivity.
  - rewrite rstrip_cons. destruct (rstrip l); simpl; rewrite E; reflexivity.
Qed.

Lemma join_nil_cons (rest : list str) :
  join [NL] ([] :: rest)
  = match rest with [] => [] | _ => NL :: join [NL] rest end.
Proof. destruct rest; reflexivity. Qed.

Lemma lstrip_join (lines : list str) :
  Forall (fun l => rstrip l = l) lines ->
  lstrip (join [NL] lines) = join [NL] (lstrip_first (drop_blank lines)).
Proof.
  induction lines as [|l lines IH]; intros H; [reflexivity|].
  inversion H as [|? ? Hl Hrest]; subst.
  destruct l as [|c l].
  - rewrite join_nil_cons. simpl drop_blank. rewrite <- (IH Hrest).
    destruct lines; reflexivity.
  - assert (Hne : lstrip (c :: l) <> []).
    { apply lstrip_nonblank. rewrite Hl. discriminate. }
    simpl drop_blank. simpl lstrip_first. destruct lines as [|l2 lines].
    + reflexivity.
    + rewrite !join_cons by discriminate.
      apply lstrip_app_nonblank. exact Hne.
Qed.

Lemma drop_blank_end_last (lines : list str) :
  drop_blank_end lines <> [] -> join [NL] (drop_blank_end lines) <> [].
Proof.
  induction lines as [|l lines IH]; intros H; [contradiction|].
  simpl in *. destruct (drop_blank_end lines) as [|k kept].
  - destruct l; [contradiction|discriminate].
  - rewrite join_cons by discriminate. intros E.
    apply app_eq_nil in E. destruct E as [_ E]. discriminate.
Qed.

Lemma rstrip_join (lines : list str) :
  Forall (fun l => rstrip l = l) lines ->
  rstrip (join [NL] lines) = join [NL] (drop_blank_end lines).
Proof.
  induction lines as [|l lines IH]; intros H; [reflexivity|].
  inversion H as [|? ? Hl Hrest]; subst. specialize (IH Hrest).
  simpl drop_blank_end. destruct lines as [|l2 lines].
  - simpl. rewrite Hl. destruct l; reflexivity.
  - rewrite join_cons by discriminate.
    change ([NL] ++ join [NL] (l2 :: lines))
      with (NL :: join [NL] (l2 :: lines)).
    rewrite rstrip_app, rstrip_cons, IH.
    pose proof (drop_blank_end_last (l2 :: lines)) as Hlast.
    destruct (drop_blank_end (l2 :: lines)) as [|k kept].
    + simpl. rewrite Hl. destruct l; reflexivity.
    + destruct (join [NL] (k :: kept)) as [|y r] eqn:E;
        [elim Hlast; [discriminate|reflexivity]|].
      rewrite join_cons by discriminate. rewrite E. reflexivity.
Qed.

Lemma split_join (lines : list str) :
  lines <> [] -> Forall (fun l => ~ In NL l) lines ->
  split NL (join [NL] lines) = lines.
Proof.
  induction lines as [|l lines IH]; intros Hne H; [contradiction|].
  inversion H as [|? ? Hl Hrest]; subst.
  destruct lines as [|l2 lines].
  - simpl. apply split_one_field. exact Hl.
  - rewrite join_cons by discriminate.
    change ([NL] ++ join [NL] (l2 :: lines))
      with (NL :: join [NL] (l2 :: lines)).
    rewrite split_app, (split_one_field NL l Hl), split_cons, eqc_refl.
    rewrite IH; [|discriminate|exact Hrest]. simpl.
    rewrite app_nil_r. reflexivity.
Qed.

Lemma split_no_sep (sep : char) (s : str) :
  Forall (fun l => ~ In sep l) (split sep s).
Proof.
  induction s as [|c s IH]; [repeat constructor; intros []|].
  rewrite split_cons. destruct (eqc c sep) eqn:E.
  - constructor; [intros []|exact IH].
  - destruct (split sep s) as [|l ls]; simpl.
    + constructor; [|constructor]. intros [H|[]]. subst c.
      rewrite eqc_refl in E. discriminate.
    + inversion IH as [|? ? Hl Hls]; subst. constructor; [|exact Hls].
      intros [H|H]; [|exact (Hl H)]. subst c.
      rewrite eqc_refl in E. discriminate.
Qed.

Lemma split_forall (P : char -> Prop) (sep : char) (s : str) :
  Forall P s -> Forall (Forall P) (split sep s).
Proof.
  induction s as [|c s IH]; intros H; [repeat constructor|].
  inversion H as [|? ? Hc Hs]; subst. specialize (IH Hs).
  rewrite split_cons. destruct (eqc c sep).
  - constructor; [constructor|exact IH].
  - destruct (split sep s) as [|l ls]; simpl.
    + repeat constructor. exact Hc.
    + inversion IH as [|? ? Hl Hls]; subst.
      constructor; [constructor; assumption|exact Hls].
Qed.

Lemma rstrip_incl (l : str) (c : char) : In c (rstrip l) -> In c l.
Proof.
  induction l as [|x l IH]; [intros []|]. rewrite rstrip_cons.
  destruct (rstrip l) as [|y r].
  - destruct (isspace x); [intros []|]. intros [H|[]]. left. exact H.
  - intros [H|H]; [left; exact H|right; apply IH; exact H].
Qed.

Lemma lstrip_incl (l : str) (c : char) : In c (lstrip l) -> In c l.
Proof.
  induction l as [|x l IH]; [intros []|]. simpl.
  destruct (isspace x); [|intros H; exact H].
  intros H. right. apply IH. exact H.
Qed.

Lemma tidy_rstrip (l : str) :
  Forall plain l -> ~ In NL l -> tidy_line (rstrip l).
Proof.
  intros Hp Hn. split; [|split].
  - rewrite Forall_forall in *. intros c Hc. apply Hp.
    apply rstrip_incl. exact Hc.
  - intros H. apply Hn. apply rstrip_incl. exact H.
  - apply rstrip_idem.
Qed.

Lemma tidy_lstrip (l : str) : tidy_line l -> tidy_line (lstrip l).
Proof.
  intros [Hp [Hn Hr]]. split; [|split].
  - rewrite Forall_forall in *. intros c Hc. apply Hp.
    apply lstrip_incl. exact Hc.
  - intros H. apply Hn. apply lstrip_incl. exact H.
  - rewrite rstrip_lstrip, Hr. reflexivity.
Qed.

(* ------------------------------------------------------------------ *)
(** ** [collapse] *)

Lemma collapse_forall (Q : str -> Prop) (k : Z) (lines : list str) :
  Forall Q lines -> forall r, Forall Q (collapse k r lines).
Proof.
  induction 1 as [|l lines Hl Hrest IH]; intros r; [constructor|].
  simpl. destruct l as [|c l].
  - destruct (r + 1 <=? k)%Z; [constructor; [exact Hl|]|]; apply IH.
  - constructor; [exact Hl|apply IH].
Qed.

Lemma collapse_runs_ok (k : Z) (lines : list str) :
  forall r r', (r' <= r)%Z -> runs_ok k r' (collapse k r lines).
Proof.
  induction lines as [|l lines IH]; intros r r' H; [exact I|].
  simpl. destruct l as [|c l].
  - destruct (Z.leb_spec (r + 1) k) as [Hle|Hgt].
    + simpl. split; [lia|]. apply IH. lia.
    + apply IH. lia.
  - simpl. apply IH. lia.
Qed.

Lemma runs_ok_collapse (k : Z) (lines : list str) :
  forall r, runs_ok k r lines -> collapse k r lines = lines.
Proof.
  induction lines as [|l lines IH]; intros r H; [reflexivity|].
  simpl in *. destruct l as [|c l].
  - destruct H as [Hle H]. destruct (Z.leb_spec (r + 1) k); [|lia].
    rewrite (IH _ H). reflexivity.
  - rewrite (IH _ H). reflexivity.
Qed.

Lemma runs_ok_drop_blank (k : Z) (lines : list str) :
  forall r, (0 <= r)%Z -> runs_ok k r lines ->
  runs_ok k 0 (drop_blank lines).
Proof.
  induction lines as [|l lines IH]; intros r Hr H; [exact I|].
  destruct l as [|c l].
  - simpl in *. destruct H as [_ H]. apply (IH (r + 1)%Z); [lia|exact H].
  - exact H.
Qed.

Lemma runs_ok_drop_blank_end (k : Z) (lines : list str) :
  forall r, runs_ok k r lines -> runs_ok k r (drop_blank_end lines).
Proof.
  induction lines as [|l lines IH]; intros r H; [exact I|].
  simpl in *. destruct l as [|c l].
  - destruct H as [Hle H]. specialize (IH _ H).
    destruct (drop_blank_end lines); [exact I|]. split; assumption.
  - specialize (IH _ H). destruct (drop_blank_end lines); [exact I|exact IH].
Qed.

Lemma drop_blank_end_nonblank (lines : list str) :
  drop_blank_end lines <> [] -> last (drop_blank_end lines) [] <> [].
Proof.
  induction lines as [|l lines IH]; intros H; [contradiction|].
  simpl in *. destruct (drop_blank_end lines) as [|k kept].
  - destruct l; [contradiction|discriminate].
  - apply IH. discriminate.
Qed.

Lemma collapse_cons (k r : Z) (l : str) (rest : list str) :
  collapse k r (l :: rest)
  = match l with
    | [] => if (r + 1 <=? k)%Z then [] :: collapse k (r + 1) rest
            else collapse k (r + 1) rest
    | _ => l :: collapse k 0 rest
    end.
Proof. reflexivity. Qed.

(** A blank line behind lines that end with text adds at most itself. *)
Lemma collapse_append_blank (k : Z) (lines : list str) :
  forall r, runs_ok k r lines -> lines <> [] -> last lines [] <> [] ->
  collapse k r (lines ++ [[]])
  = lines ++ (if (1 <=? k)%Z then [[]] else []).
Proof.
  induction lines as [|l lines IH]; intros r H Hne Hlast; [contradiction|].
  destruct lines as [|l2 lines].
  - simpl in Hlast. destruct l as [|c l]; [contradiction|]. reflexivity.
  - change ((l :: l2 :: lines) ++ [[]]) with (l :: ((l2 :: lines) ++ [[]])).
    assert (Hlast' : last (l2 :: lines) [] <> []) by exact Hlast.
    destruct l as [|c l].
    + destruct H as [Hle H]. rewrite collapse_cons.
      destruct (Z.leb_spec (r + 1) k); [|lia].
      rewrite (IH _ H); [reflexivity|discriminate|exact Hlast'].
    + rewrite collapse_cons.
      rewrite (IH _ H); [reflexivity|discriminate|exact Hlast'].
Qed.

Lemma drop_blank_forall (Q : str -> Prop) (lines : list str) :
  Forall Q lines -> Forall Q (drop_blank lines).
Proof.
  induction 1 as [|l lines Hl Hrest IH]; [constructor|].
  destruct l; [exact IH|constructor; assumption].
Qed.

Lemma drop_blank_end_forall (Q : str -> Prop) (lines : list str) :
  Forall Q lines -> Forall Q (drop_blank_end lines).
Proof.
  induction 1 as [|l lines Hl Hrest IH]; [constructor|].
  simpl. destruct (drop_blank_end lines).
  - destruct l; repeat constructor. exact Hl.
  - constructor; assumption.
Qed.

(* ------------------------------------------------------------------ *)
(** ** The characters the normaliser removes *)

Lemma replace_absent (x : char) (new s : str) :
  ~ In x s -> replace [x] new s = s.
Proof.
  unfold replace. induction s as [|c s IH]; intros H; [reflexivity|].
  rewrite replace_from_cons.
  change (starts_with [x] (c :: s)) with (eqc x c && true).
  destruct (eqc x c) eqn:E.
  - apply eqc_eq in E. subst c. elim H. left. reflexivity.
  - simpl. rewrite IH; [reflexivity|]. intros Hin. apply H. right. exact Hin.
Qed.

Lemma replace_removes (x : char) (s : str) :
  Forall (fun c => c <> x) (replace [x] [] s).
Proof.
  unfold replace. induction s as [|c s IH]; [constructor|].
  rewrite replace_from_cons.
  change (starts_with [x] (c :: s)) with (eqc x c && true).
  destruct (eqc x c) eqn:E; simpl.
  - exact IH.
  - constructor; [|exact IH]. intros ->. rewrite eqc_refl in E. discriminate.
Qed.

Lemma replace_crlf_forall (P : char -> Prop) (s : str) :
  P NL -> Forall P s ->
  forall skip, Forall P (replace_from skip [CR; NL] [NL] s).
Proof.
  intros Hnl. induction 1 as [|c s Hc Hs IH]; intros skip; [constructor|].
  rewrite replace_from_cons. destruct skip as [|k]; [|apply IH].
  destruct (starts_with [CR; NL] (c :: s)).
  - simpl. constructor; [exact Hnl|apply IH].
  - constructor; [exact Hc|apply IH].
Qed.

Lemma map_cr_forall (P : char -> Prop) (s : str) :
  P NL -> Forall P s ->
  Forall (fun c => P c /\ c <> CR)
         (map (fun c => if eqc c CR then NL else c) s).
Proof.
  intros Hnl. induction 1 as [|c s Hc Hs IH]; [constructor|].
  simpl. constructor; [|exact IH]. destruct (eqc c CR) eqn:E.
  - split; [exact Hnl|discriminate].
  - split; [exact Hc|]. intros ->. rewrite eqc_refl in E. discriminate.
Qed.

Lemma expandtabs_forall (P : char -> Prop) (t : Z) (s : str) :
  P SP -> Forall P s ->
  forall col, Forall (fun c => P c /\ c <> TAB) (expandtabs_from col t s).
Proof.
  intros Hsp. induction 1 as [|c s Hc Hs IH]; intros col; [constructor|].
  simpl. destruct (eqc c TAB) eqn:E.
  - destruct (0 <? t)%Z; [|apply IH].
    apply Forall_app. split; [|apply IH].
    apply Forall_forall. intros x Hx. apply repeat_spec in Hx. subst x.
    split; [exact Hsp|discriminate].
  - constructor; [|apply IH]. split; [exact Hc|].
    intros ->. rewrite eqc_refl in E. discriminate.
Qed.

Lemma expandtabs_no_tab (t : Z) (s : str) :
  ~ In TAB s -> forall col, expandtabs_from col t s = s.
Proof.
  induction s as [|c s IH]; intros H col; [reflexivity|]. simpl.
  destruct (eqc c TAB) eqn:E.
  - apply eqc_eq in E. subst c. elim H. left. reflexivity.
  - rewrite IH; [reflexivity|]. intros Hin. apply H. right. exact Hin.
Qed.

(** Behind the first three steps of the normaliser the text holds no
    byte-order mark, carriage return or tab. *)
Lemma normalise_plain (text : str) (t : Z) :
  Forall plain
    (expandtabs t
       (replace [CR] [NL] (replace [CR; NL] [NL] (replace [BOM] [] text)))).
Proof.
  assert (H1 := replace_removes BOM text).
  assert (H2 := replace_crlf_forall (fun c => c <> BOM) _
                  ltac:(discriminate) H1 0).
  fold (replace [CR; NL] [NL] (replace [BOM] [] text)) in H2.
  assert (H3 := map_cr_forall (fun c => c <> BOM) _ ltac:(discriminate) H2).
  rewrite <- replace_one in H3.
  assert (H4 := expandtabs_forall (fun c => c <> BOM /\ c <> CR) t _
                  ltac:(split; discriminate) H3 0).
  unfold expandtabs. revert H4. apply Forall_impl.
  intros c [[Ha Hb] Hc]. repeat split; assumption.
Qed.

Lemma join_forall (P : char -> Prop) (lines : list str) :
  P NL -> Forall (Forall P) lines -> Forall P (join [NL] lines).
Proof.
  intros Hnl. induction 1 as [|l lines Hl Hrest IH]; [constructor|].
  destruct lines as [|l2 lines]; [exact Hl|].
  rewrite join_cons by discriminate. apply Forall_app. split; [exact Hl|].
  constructor; [exact Hnl|exact IH].
Qed.

Lemma join_app_blank (lines : list str) :
  lines <> [] -> join [NL] (lines ++ [[]]) = join [NL] lines ++ [NL].
Proof.
  induction lines as [|l lines IH]; intros H; [contradiction|].
  destruct lines as [|l2 lines]; [reflexivity|].
  change ((l :: l2 :: lines) ++ [[]]) with (l :: ((l2 :: lines) ++ [[]])).
  rewrite join_cons by (simpl; discriminate). rewrite IH by discriminate.
  rewrite (join_cons [NL] l (l2 :: lines)) by discriminate.
  rewrite <- !app_assoc. reflexivity.
Qed.

(* ------------------------------------------------------------------ *)
(** ** A normalised document *)

(** A document made of tidy lines, with its blank runs within the limit
    and text at both ends, closed by one newline, is left as it is. *)
Lemma normalise_fixed (t k : Z) (lines : list str) :
  Forall tidy_line lines -> runs_ok k 0 lines ->
  last lines [] <> [] -> join [NL] lines <> [] ->
  strip (join [NL] lines) = join [NL] lines ->
  normalise_whitespace (join [NL] lines ++ [NL]) t k
  = join [NL] lines ++ [NL].
Proof.
  intros Htidy Hruns Hlast Hout Hstrip.
  assert (Hne : lines <> []) by (intros ->; apply Hout; reflexivity).
  set (out := join [NL] lines) in *.
  assert (Hplain : Forall plain (out ++ [NL])).
  { apply Forall_app. split.
    - apply join_forall; [repeat split; discriminate|].
      revert Htidy. apply Forall_impl. intros l [H _]. exact H.
    - repeat constructor; discriminate. }
  assert (Hno : forall x, ~ plain x -> ~ In x (out ++ [NL])).
  { intros x Hx Hin. rewrite Forall_forall in Hplain. exact (Hx (Hplain x Hin)). }
  unfold normalise_whitespace.
  rewrite (replace_absent BOM [] (out ++ [NL]))
    by (apply Hno; intros [H _]; apply H; reflexivity).
  assert (Hcr : ~ In CR (out ++ [NL]))
    by (apply Hno; intros [_ [H _]]; apply H; reflexivity).
  pose proof (replace_crlf_no_cr (out ++ [NL]) [] Hcr) as E.
  rewrite !app_nil_r in E. rewrite E.
  rewrite (replace_absent CR [NL] (out ++ [NL]) Hcr).
  unfold expandtabs. rewrite expandtabs_no_tab
    by (apply Hno; intros [_ [_ H]]; apply H; reflexivity).
  assert (Hsplit : split NL (out ++ [NL]) = lines ++ [[]]).
  { rewrite split_app. unfold out. rewrite split_join.
    - change (split NL [NL]) with [@nil N; []]. simpl hd. simpl tl.
      rewrite app_nil_r, app_assoc, <- app_removelast_last by exact Hne.
      reflexivity.
    - exact Hne.
    - revert Htidy. apply Forall_impl. intros l [_ [H _]]. exact H. }
  rewrite Hsplit, map_app.
  assert (Hmap : map rstrip lines = lines).
  { clear -Htidy. induction Htidy as [|l ls [_ [_ Hl]] _ IH]; [reflexivity|].
    simpl. rewrite Hl, IH. reflexivity. }
  rewrite Hmap. change (map rstrip [[]]) with [@nil N].
  rewrite (collapse_append_blank k lines 0 Hruns Hne Hlast).
  assert (Hs : strip (out ++ [NL]) = out).
  { pose proof (strip_trimmed_chunk out) as H. unfold trimmed_chunk in H.
    rewrite Hstrip in H. apply H. exact Hout. }
  destruct (1 <=? k)%Z.
  - rewrite join_app_blank by exact Hne. fold out. rewrite Hs.
    destruct out; [contradiction|reflexivity].
  - rewrite app_nil_r. fold out. rewrite Hstrip.
    destruct out; [contradiction|reflexivity].
Qed.

(** The whitespace normaliser is idempotent. *)
Lemma normalise_idempotent (text : str) (t k : Z) :
  normalise_whitespace (normalise_whitespace text t k) t k
  = normalise_whitespace text t k.
Proof.
  pose proof (normalise_plain text t) as Hplain.
  set (t3 := expandtabs t _) in *.
  set (C := collapse k 0 (map rstrip (split NL t3))).
  assert (HC : Forall tidy_line C).
  { apply collapse_forall. apply Forall_forall. intros l Hl.
    apply in_map_iff in Hl. destruct Hl as [l0 [<- Hl0]].
    pose proof (split_forall plain NL t3 Hplain) as H1.
    pose proof (split_no_sep NL t3) as H2.
    rewrite Forall_forall in H1, H2.
    apply tidy_rstrip; [apply H1|apply H2]; exact Hl0. }
  assert (HCr : Forall (fun l => rstrip l = l) C).
  { revert HC. apply Forall_impl. intros l [_ [_ H]]. exact H. }
  set (D := lstrip_first (drop_blank C)).
  assert (HD : Forall tidy_line D /\ runs_ok k 0 D).
  { pose proof (drop_blank_forall tidy_line C HC) as H1.
    pose proof (runs_ok_drop_blank k C 0 ltac:(lia)
                  (collapse_runs_ok k _ 0 0 ltac:(lia))) as H2.
    fold C in H2. unfold D.
    assert (Hhd : match drop_blank C with [] :: _ => False | _ => True end).
    { clear. induction C as [|l C IH]; [exact I|].
      destruct l; [exact IH|exact I]. }
    destruct (drop_blank C) as [|l rest]; [split; [constructor|exact I]|].
    inversion H1 as [|? ? Hl Hrest]; subst. simpl lstrip_first.
    split; [constructor; [apply tidy_lstrip; exact Hl|exact Hrest]|].
    destruct l as [|c l]; [contradiction|].
    assert (Hn : lstrip (c :: l) <> []).
    { apply lstrip_nonblank. destruct Hl as [_ [_ Hl]]. rewrite Hl.
      discriminate. }
    destruct (lstrip (c :: l)); [contradiction|exact H2]. }
  destruct HD as [HD1 HD2].
  assert (HDr : Forall (fun l => rstrip l = l) D).
  { revert HD1. apply Forall_impl. intros l [_ [_ H]]. exact H. }
  set (T := drop_blank_end D).
  assert (Hout : strip (join [NL] C) = join [NL] T).
  { unfold strip. rewrite (lstrip_join C HCr). fold D.
    apply rstrip_join. exact HDr. }
  change (normalise_whitespace text t k)
    with (match strip (join [NL] C) with
          | [] => []
          | _ :: _ => strip (join [NL] C) ++ [NL]
          end).
  rewrite Hout.
  assert (Hcase : join [NL] T = [] \/ join [NL] T <> [])
    by (destruct (join [NL] T); [left; reflexivity|right; discriminate]).
  destruct Hcase as [E|HoutT].
  - rewrite E. unfold normalise_whitespace. simpl.
    destruct (1 <=? k)%Z; reflexivity.
  - assert (Em : match join [NL] T with
                 | [] => []
                 | _ :: _ => join [NL] T ++ [NL]
                 end = join [NL] T ++ [NL])
      by (destruct (join [NL] T); [contradiction|reflexivity]).
    rewrite Em.
    assert (HT : T <> []) by (intros HT; apply HoutT; rewrite HT; reflexivity).
    apply normalise_fixed.
    + apply drop_blank_end_forall. exact HD1.
    + apply runs_ok_drop_blank_end. exact HD2.
    + apply drop_blank_end_nonblank. exact HT.
    + exact HoutT.
    + rewrite <- Hout. apply strip_idem.
Qed.

(* ------------------------------------------------------------------ *)
(** ** The line scanners twice *)

Lemma h_iter_emit (st : l_state) (c : char) :
  (snd (h_iter st c) = Break /\ snd (fst (h_iter st c)) = [])
  \/ (snd (h_iter st c) = By1 /\ snd (fst (h_iter st c)) = [c]).
Proof.
  unfold h_iter. destruct (l_in_str st); [right; split; reflexivity|].
  destruct (eqc c SQ || eqc c DQ); [right; split; reflexivity|].
  destruct (eqc c HASH); [left|right]; split; reflexivity.
Qed.

(** What a line scan keeps, it keeps again. *)
Lemma h_loop_fst_idem (line : str) :
  forall st, fst (h_loop st (fst (h_loop st line))) = fst (h_loop st line).
Proof.
  induction line as [|c line IH]; intros st; [reflexivity|].
  rewrite h_loop_cons. destruct (h_iter_emit st c) as [[Ha He]|[Ha He]];
    destruct (h_iter st c) as [[st' emit] adv] eqn:E; simpl in Ha, He;
    subst adv emit.
  - reflexivity.
  - specialize (IH st'). destruct (h_loop st' line) as [o fin].
    simpl in *. rewrite E. destruct (h_loop st' o) as [o' fin'].
    simpl in *. rewrite IH. reflexivity.
Qed.

Lemma h_loop_incl (line : str) (x : char) :
  forall st, In x (fst (h_loop st line)) -> In x line.
Proof.
  induction line as [|c line IH]; intros st; [intros []|].
  rewrite h_loop_cons. destruct (h_iter_emit st c) as [[Ha He]|[Ha He]];
    destruct (h_iter st c) as [[st' emit] adv]; simpl in Ha, He;
    subst adv emit.
  - intros [].
  - specialize (IH st'). destruct (h_loop st' line) as [o fin].
    simpl in *. intros [H|H]; [left; exact H|right; exact (IH H)].
Qed.

Lemma unix_newlines_no_cr (text : str) : ~ In CR (unix_newlines text).
Proof.
  unfold unix_newlines. rewrite replace_one.
  assert (H0 : Forall (fun _ : N => True) (replace [CR; NL] [NL] text))
    by (apply Forall_forall; intros; exact I).
  pose proof (map_cr_forall (fun _ => True) _ I H0) as H.
  intros Hin. rewrite Forall_forall in H.
  destruct (H CR Hin) as [_ Hn]. apply Hn. reflexivity.
Qed.

Lemma unix_newlines_fixed (s : str) : ~ In CR s -> unix_newlines s = s.
Proof.
  intros H. unfold unix_newlines.
  pose proof (replace_crlf_no_cr s [] H) as E. rewrite !app_nil_r in E.
  rewrite E. apply replace_absent. exact H.
Qed.

(** The hash-line scanner is idempotent. *)
Lemma hash_line_idempotent (text : str) :
  strip_hash_line_comments (strip_hash_line_comments text)
  = strip_hash_line_comments text.
Proof.
  unfold strip_hash_line_comments at 2.
  set (lines := split NL (unix_newlines text)).
  set (scan := fun line => fst (h_loop l_init line)).
  assert (Hlines : Forall (fun l => ~ In NL l /\ ~ In CR l) lines).
  { pose proof (split_no_sep NL (unix_newlines text)) as H1.
    assert (H3 : Forall (fun c => c <> CR) (unix_newlines text)).
    { apply Forall_forall. intros c Hc ->.
      exact (unix_newlines_no_cr text Hc). }
    pose proof (split_forall (fun c => c <> CR) NL (unix_newlines text) H3)
      as H2.
    apply Forall_forall. intros l Hl. rewrite Forall_forall in H1, H2.
    split; [exact (H1 l Hl)|]. intros Hin.
    specialize (H2 l Hl). rewrite Forall_forall in H2.
    exact (H2 CR Hin eq_refl). }
  assert (Houts : Forall (fun l => ~ In NL l /\ ~ In CR l) (map scan lines)).
  { apply Forall_forall. intros o Ho. apply in_map_iff in Ho.
    destruct Ho as [l [<- Hl]]. rewrite Forall_forall in Hlines.
    destruct (Hlines l Hl) as [Hn Hc].
    split; intros Hin; [apply Hn|apply Hc];
      exact (h_loop_incl l _ l_init Hin). }
  assert (Hcr : ~ In CR (join [NL] (map scan lines))).
  { intros Hin.
    assert (H : Forall (fun c => c <> CR) (join [NL] (map scan lines))).
    { apply join_forall; [discriminate|]. revert Houts. apply Forall_impl.
      intros l [_ Hc]. apply Forall_forall. intros c Hin' ->. exact (Hc Hin'). }
    rewrite Forall_forall in H. exact (H CR Hin eq_refl). }
  unfold strip_hash_line_comments.
  rewrite (unix_newlines_fixed _ Hcr).
  rewrite split_join.
  - fold scan. rewrite map_map. f_equal. apply map_ext. intros l.
    apply h_loop_fst_idem.
  - pose proof (split_nonempty NL (unix_newlines text)) as Hne. fold lines in Hne.
    destruct lines; [contradiction|discriminate].
  - revert Houts. apply Forall_impl. intros l [Hn _]. exact Hn.
Qed.

(* ------------------------------------------------------------------ *)
(** ** The C-like scanner twice *)

Lemma c_iter_mode_ok (st : c_state) (ch : char) (nxt : option char) :
  c_mode_ok st = true -> c_mode_ok (fst (fst (c_iter st ch nxt))) = true.
Proof.
  destruct st as [il ib istr ichr esc qo].
  destruct il, ib, istr, ichr; try discriminate; intros _;
    unfold c_iter; simpl; c_iter_cases; reflexivity.
Qed.

(** A pass that appends nothing stays in, enters or leaves a comment. *)
Lemma c_iter_silent (st : c_state) (ch : char) (nxt : option char) :
  c_mode_ok st = true -> snd (fst (c_iter st ch nxt)) = [] ->
  c_out_of_comment (fst (fst (c_iter st ch nxt))) = c_out_of_comment st.
Proof.
  destruct st as [il ib istr ichr esc qo].
  destruct il, ib, istr, ichr; try discriminate; intros _;
    unfold c_iter; simpl; c_iter_cases; intros H;
    try discriminate H; reflexivity.
Qed.

(** A pass that appends something appends the character it is at, moves
    on by one and is outside comments; the same pass is made from the
    state without the comment flags, whatever follows, unless the
    character is a slash outside literals, which must not be followed by
    a slash or a star. *)
Lemma c_iter_emits (st : c_state) (ch : char) (nxt : option char) :
  c_mode_ok st = true -> snd (fst (c_iter st ch nxt)) <> [] ->
  let st' := fst (fst (c_iter st ch nxt)) in
  c_iter st ch nxt = (st', [ch], By1)
  /\ c_out_of_comment st' = st'
  /\ (forall n2,
        (eqc ch SLASH = true -> (in_str st || in_char st) = false ->
         is_ch n2 SLASH = false /\ is_ch n2 STAR = false) ->
        c_iter (c_out_of_comment st) ch n2 = (st', [ch], By1))
  /\ (eqc ch SLASH = true -> (in_str st || in_char st) = false ->
      st' = c_out_of_comment st
      /\ is_ch nxt SLASH = false /\ is_ch nxt STAR = false).
Proof.
  destruct st as [il ib istr ichr esc qo].
  destruct (eqc ch SLASH) eqn:Es;
    [apply eqc_eq in Es; subst ch
    |destruct (eqc ch NL) eqn:En; [apply eqc_eq in En; subst ch|]];
    destruct il, ib, istr, ichr; try discriminate; intros _;
    unfold c_iter, c_out_of_comment; simpl; rewrite ?Es, ?En; simpl;
    c_iter_cases; intros H; try (elim H; reflexivity);
    (split; [reflexivity|]); (split; [reflexivity|]); split;
    try (intros n2 Hn; try (destruct (Hn eq_refl eq_refl) as [-> ->]);
         reflexivity);
    try (intros; discriminate);
    try (intros _ _; repeat split; reflexivity).
Qed.

(** Outside comments and literals a character other than a slash is
    appended at once. *)
Lemma c_loop_normal_head (st : c_state) (x : char) (rest : str) :
  c_mode_ok st = true -> (in_str st || in_char st) = false ->
  c_out_of_comment st = st -> eqc x SLASH = false ->
  hd_error (fst (c_loop st (x :: rest))) = Some x.
Proof.
  intros Hok Hlit Hout Hx. rewrite c_loop_cons.
  destruct st as [il ib istr ichr esc qo].
  unfold c_out_of_comment in Hout. simpl in Hout, Hlit.
  injection Hout as <- <-. apply orb_false_iff in Hlit.
  destruct Hlit as [-> ->].
  unfold c_iter. simpl. rewrite Hx. simpl.
  destruct (eqc x DQ || eqc x BT).
  - destruct (c_loop _ rest). reflexivity.
  - destruct (eqc x SQ); destruct (c_loop _ rest); reflexivity.
Qed.

(** What the C-like scanner has left, it leaves as it is. *)
Lemma c_loop_twice (n : nat) :
  forall text st, (length text <= n)%nat -> c_mode_ok st = true ->
  fst (c_loop (c_out_of_comment st) (fst (c_loop st text)))
  = fst (c_loop st text).
Proof.
  induction n as [|n IH]; intros text st Hn Hok.
  - destruct text; [reflexivity|simpl in Hn; lia].
  - destruct text as [|ch rest]; [reflexivity|]. simpl in Hn.
    rewrite (c_loop_cons st ch rest).
    pose proof (c_iter_mode_ok st ch (hd_error rest) Hok) as Hok'.
    pose proof (c_iter_silent st ch (hd_error rest) Hok) as Hsil.
    pose proof (c_iter_emits st ch (hd_error rest) Hok) as Hem.
    destruct (c_iter st ch (hd_error rest)) as [[st' emit] adv].
    simpl in Hok', Hsil, Hem. destruct emit as [|e emit].
    + specialize (Hsil eq_refl). rewrite <- Hsil.
      assert (Hrest : forall t, (length t <= n)%nat ->
                fst (c_loop (c_out_of_comment st')
                       (fst (let '(o, fin) := c_loop st' t in ([] ++ o, fin))))
                = fst (let '(o, fin) := c_loop st' t in ([] ++ o, fin))).
      { intros t Ht. pose proof (IH t st' Ht Hok') as H.
        destruct (c_loop st' t). exact H. }
      destruct adv; try (apply Hrest; lia).
      destruct rest as [|d rest']; apply Hrest; simpl in *; lia.
    + destruct (Hem ltac:(discriminate)) as [E [Hout [Hsame Hslash]]].
      injection E as -> -> ->.
      pose proof (IH rest st' ltac:(lia) Hok') as Hrec.
      rewrite Hout in Hrec.
      destruct (c_loop st' rest) as [o fin] eqn:El. simpl in Hrec.
      cbn [fst app].
      rewrite c_loop_cons, (Hsame (hd_error o)).
      * destruct (c_loop st' o). simpl in *. rewrite Hrec. reflexivity.
      * intros Hs Hlit. destruct (Hslash Hs Hlit) as [Hst' [Hn1 Hn2]].
        destruct rest as [|x rest2].
        -- simpl in El. injection El as <- _. split; reflexivity.
        -- simpl in Hn1, Hn2.
           assert (Hhd : hd_error o = Some x).
           { replace o with (fst (c_loop st' (x :: rest2)))
               by (rewrite El; reflexivity).
             apply c_loop_normal_head; [exact Hok'| |exact Hout|exact Hn1].
             rewrite Hst'. destruct st. simpl in *. exact Hlit. }
           rewrite Hhd. simpl. split; assumption.
Qed.

(** The C-like scanner is idempotent. *)
Lemma c_like_idempotent (text : str) :
  strip_c_like_comments (strip_c_like_comments text)
  = strip_c_like_comments text.
Proof.
  unfold strip_c_like_comments.
  exact (c_loop_twice (length text) text c_init (Nat.le_refl _) eq_refl).
Qed.

(* ------------------------------------------------------------------ *)
(** ** Idempotence *)

(** C5, as amended. The whitespace normaliser is idempotent for every tab
    width and blank-line limit, so a normalised document is a fixed
    point; the C-like scanner, the hash-line scanner and the Python
    scanner without docstring stripping are idempotent. The HTML scanner
    and the Python scanner with docstring stripping are not (nor is the
    SQL scanner): removing a comment can bring the two halves of a new
    opener together. *)
Theorem idempotent_operations :
  (forall text t k,
     normalise_whitespace (normalise_whitespace text t k) t k
     = normalise_whitespace text t k)
  /\ (forall text,
        strip_c_like_comments (strip_c_like_comments text)
        = strip_c_like_comments text)
  /\ (forall text,
        strip_hash_line_comments (strip_hash_line_comments text)
        = strip_hash_line_comments text)
  /\ (forall text,
        strip_python_comments (strip_python_comments text false) false
        = strip_python_comments text false)
  /\ (let text := lit "<!<!-- -->-- a -->" in
      strip_html_comments text = lit "<!-- a -->"
      /\ strip_html_comments (strip_html_comments text) = [])
  /\ (let text := TRIPLE_DQ ++ lit "a" ++ TRIPLE_SQ in
      strip_python_comments text true = TRIPLE_DQ ++ lit "a"
      /\ strip_python_comments (strip_python_comments text true) true = []).
Proof.
  split; [|split; [|split; [|split; [|split]]]].
  - apply normalise_idempotent.
  - apply c_like_idempotent.
  - apply hash_line_idempotent.
  - intros text. rewrite !python_plain_is_hash_line.
    apply hash_line_idempotent.
  - split; reflexivity.
  - split; reflexivity.
Qed.

(** C5 as stated fails for the SQL scanner: when the block comment
    between the two dashes is gone, the dashes open a line comment, which
    the second run removes. *)
Lemma sql_idempotence_counterexample :
  let text := lit "a -/* b */- c" in
  strip_sql_comments text = lit "a -- c"
  /\ strip_sql_comments (strip_sql_comments text) = lit "a "
  /\ strip_sql_comments (strip_sql_comments text) <> strip_sql_comments text.
Proof.
  split; [reflexivity|]. split; [reflexivity|]. vm_compute. discriminate.
Qed.

(* ================================================================== *)
(** * Further properties *)

(* ------------------------------------------------------------------ *)
(** ** The shape of a normalised document *)

(** The result of the normaliser is made of tidy lines with text at both
    ends and blank runs within the limit, closed by one newline; or it is
    empty. *)
Lemma normalise_shape (text : str) (t k : Z) :
  exists lines,
    Forall tidy_line lines /\ runs_ok k 0 lines
    /\ (lines <> [] -> last lines [] <> [])
    /\ strip (join [NL] lines) = join [NL] lines
    /\ normalise_whitespace text t k
       = match join [NL] lines with
         | [] => []
         | _ :: _ => join [NL] lines ++ [NL]
         end.
Proof.
  pose proof (normalise_plain text t) as Hplain.
  set (t3 := expandtabs t _) in *.
  set (C := collapse k 0 (map rstrip (split NL t3))).
  assert (HC : Forall tidy_line C).
  { apply collapse_forall. apply Forall_forall. intros l Hl.
    apply in_map_iff in Hl. destruct Hl as [l0 [<- Hl0]].
    pose proof (split_forall plain NL t3 Hplain) as H1.
    pose proof (split_no_sep NL t3) as H2.
    rewrite Forall_forall in H1, H2.
    apply tidy_rstrip; [apply H1|apply H2]; exact Hl0. }
  assert (HCr : Forall (fun l => rstrip l = l) C).
  { revert HC. apply Forall_impl. intros l [_ [_ H]]. exact H. }
  set (D := lstrip_first (drop_blank C)).
  assert (HD : Forall tidy_line D /\ runs_ok k 0 D).
  { pose proof (drop_blank_forall tidy_line C HC) as H1.
    pose proof (runs_ok_drop_blank k C 0 ltac:(lia)
                  (collapse_runs_ok k _ 0 0 ltac:(lia))) as H2.
    fold C in H2. unfold D.
    assert (Hhd : match drop_blank C with [] :: _ => False | _ => True end).
    { clear. induction C as [|l C IH]; [exact I|].
      destruct l; [exact IH|exact I]. }
    destruct (drop_blank C) as [|l rest]; [split; [constructor|exact I]|].
    inversion H1 as [|? ? Hl Hrest]; subst. simpl lstrip_first.
    split; [constructor; [apply tidy_lstrip; exact Hl|exact Hrest]|].
    destruct l as [|c l]; [contradiction|].
    assert (Hn : lstrip (c :: l) <> []).
    { apply lstrip_nonblank. destruct Hl as [_ [_ Hl]]. rewrite Hl.
      discriminate. }
    destruct (lstrip (c :: l)); [contradiction|exact H2]. }
  destruct HD as [HD1 HD2].
  assert (HDr : Forall (fun l => rstrip l = l) D).
  { revert HD1. apply Forall_impl. intros l [_ [_ H]]. exact H. }
  assert (Hout : strip (join [NL] C) = join [NL] (drop_blank_end D)).
  { unfold strip. rewrite (lstrip_join C HCr). fold D.
    apply rstrip_join. exact HDr. }
  exists (drop_blank_end D). split; [|split; [|split; [|split]]].
  - apply drop_blank_end_forall. exact HD1.
  - apply runs_ok_drop_blank_end. exact HD2.
  - apply drop_blank_end_nonblank.
  - rewrite <- Hout. apply strip_idem.
  - change (normalise_whitespace text t k)
      with (match strip (join [NL] C) with
            | [] => []
            | _ :: _ => strip (join [NL] C) ++ [NL]
            end).
    rewrite Hout. reflexivity.
Qed.

(** X1. Whatever the input and the settings, the normalised text holds no
    byte-order mark, no carriage return and no tab. *)
Theorem normalise_removes_bom_cr_tab (text : str) (t k : Z) (c : char) :
  In c (normalise_whitespace text t k) -> c <> BOM /\ c <> CR /\ c <> TAB.
Proof.
  destruct (normalise_shape text t k) as [lines [Ht [_ [_ [_ E]]]]].
  rewrite E.
  assert (H : Forall plain (join [NL] lines ++ [NL])).
  { apply Forall_app. split.
    - apply join_forall; [repeat split; discriminate|].
      revert Ht. apply Forall_impl. intros l [H _]. exact H.
    - repeat constructor; discriminate. }
  rewrite Forall_forall in H.
  destruct (join [NL] lines) as [|x o]; [intros []|]. apply H.
Qed.

Lemma normalise_removes_bom_cr_tab_witness :
  In SP (normalise_whitespace [TAB; 97%N; TAB; 98%N; CR; NL] 4 1)
  /\ SP <> BOM /\ SP <> CR /\ SP <> TAB.
Proof.
  assert (H : In SP (normalise_whitespace [TAB; 97%N; TAB; 98%N; CR; NL] 4 1))
    by (vm_compute; right; left; reflexivity).
  split; [exact H|].
  exact (normalise_removes_bom_cr_tab _ 4 1 SP H).
Defined.

(** X2. The normalised text is empty, or it is a text without white space
    at either end followed by exactly one newline. *)
Theorem normalise_trimmed (text : str) (t k : Z) :
  normalise_whitespace text t k = []
  \/ exists first middle last_,
       isspace first = false /\ isspace last_ = false
       /\ (normalise_whitespace text t k = [first; NL]
           \/ normalise_whitespace text t k
              = first :: middle ++ [last_; NL]).
Proof.
  destruct (normalise_shape text t k) as [lines [_ [_ [_ [Hs E]]]]].
  rewrite E. clear E.
  destruct (join [NL] lines) as [|x o] eqn:Ej; [left; reflexivity|right].
  assert (Hx : isspace x = false).
  { apply (strip_head (x :: o) x o). exact Hs. }
  destruct (exists_last (l := x :: o) ltac:(discriminate)) as [o' [y Ey]].
  assert (Hy : isspace y = false).
  { destruct (isspace y) eqn:Hy; [|reflexivity]. exfalso.
    unfold strip in Hs. rewrite (lstrip_fixed x o Hx), Ey in Hs.
    rewrite (rstrip_app_space o' y Hy) in Hs.
    pose proof (rstrip_length o') as Hl.
    apply (f_equal (@length N)) in Hs. rewrite length_app in Hs.
    simpl in Hs. lia. }
  destruct o' as [|x' o'].
  - simpl in Ey. injection Ey as <- ->. exists x, [], x.
    split; [exact Hx|]. split; [exact Hx|]. left. reflexivity.
  - simpl in Ey. injection Ey as <- ->. exists x, o', y.
    split; [exact Hx|]. split; [exact Hy|]. right.
    simpl. rewrite <- app_assoc. reflexivity.
Qed.

(** X3. No line of the normalised text ends in white space. *)
Theorem normalise_no_trailing_space (text : str) (t k : Z) :
  Forall (fun l => rstrip l = l) (split NL (normalise_whitespace text t k)).
Proof.
  destruct (normalise_shape text t k) as [lines [Ht [_ [_ [_ E]]]]].
  rewrite E. clear E.
  destruct (join [NL] lines) as [|x o] eqn:Ej; [repeat constructor|].
  assert (Hne : lines <> []) by (intros ->; discriminate).
  rewrite <- Ej, split_app, split_join; [|exact Hne|].
  - change (split NL [NL]) with [@nil N; []]. simpl hd. simpl tl.
    rewrite app_nil_r, app_assoc, <- app_removelast_last by exact Hne.
    apply Forall_app. split; [|repeat constructor].
    revert Ht. apply Forall_impl. intros l [_ [_ H]]. exact H.
  - revert Ht. apply Forall_impl. intros l [_ [H _]]. exact H.
Qed.

Lemma runs_ok_no_blank (k : Z) (lines : list str) :
  (k <= 0)%Z -> forall r, (0 <= r)%Z -> runs_ok k r lines -> ~ In [] lines.
Proof.
  intros Hk. induction lines as [|l lines IH]; intros r Hr H Hin.
  - destruct Hin.
  - destruct l as [|c l]; simpl in H.
    + destruct H as [Hle _]. lia.
    + destruct Hin as [E|Hin]; [discriminate|].
      exact (IH 0%Z ltac:(lia) H Hin).
Qed.

(** X4. The lines of a normalised text, the closing newline apart, hold
    no run of blank lines longer than the limit; with a limit of zero or
    less they hold no blank line at all. *)
Theorem normalise_blank_runs (text : str) (t k : Z) :
  normalise_whitespace text t k <> [] ->
  exists lines,
    normalise_whitespace text t k = join [NL] lines ++ [NL]
    /\ Forall (fun l => ~ In NL l) lines
    /\ runs_ok k 0 lines
    /\ ((k <= 0)%Z -> ~ In [] lines).
Proof.
  destruct (normalise_shape text t k) as [lines [Ht [Hr [_ [_ E]]]]].
  rewrite E. intros Hne. exists lines.
  split; [destruct (join [NL] lines); [contradiction|reflexivity]|].
  split; [revert Ht; apply Forall_impl; intros l [_ [H _]]; exact H|].
  split; [exact Hr|]. intros Hk.
  exact (runs_ok_no_blank k lines Hk 0 ltac:(lia) Hr).
Qed.

Lemma normalise_blank_runs_witness :
  normalise_whitespace (lit "a" ++ [NL; NL; NL; NL] ++ lit "b") 2 1 <> []
  /\ exists lines,
       normalise_whitespace (lit "a" ++ [NL; NL; NL; NL] ++ lit "b") 2 1
       = join [NL] lines ++ [NL]
       /\ Forall (fun l => ~ In NL l) lines
       /\ runs_ok 1 0 lines
       /\ ((1 <= 0)%Z -> ~ In [] lines).
Proof.
  assert (H : normalise_whitespace (lit "a" ++ [NL; NL; NL; NL] ++ lit "b") 2 1
              <> []) by (vm_compute; discriminate).
  split; [exact H|].
  exact (normalise_blank_runs _ 2 1 H).
Defined.

(* ------------------------------------------------------------------ *)
(** ** What the normaliser and the splitter keep *)

Lemma visible_space (c : char) : isspace c = true -> visible c = false.
Proof. unfold visible. intros ->. reflexivity. Qed.

Lemma filter_visible_lstrip (s : str) :
  filter visible (lstrip s) = filter visible s.
Proof.
  induction s as [|c s IH]; [reflexivity|]. simpl.
  destruct (isspace c) eqn:E; [|reflexivity].
  rewrite (visible_space c E). exact IH.
Qed.

Lemma filter_visible_rstrip (s : str) :
  filter visible (rstrip s) = filter visible s.
Proof.
  induction s as [|c s IH]; [reflexivity|]. rewrite rstrip_cons.
  simpl filter at 2. rewrite <- IH.
  destruct (rstrip s) as [|y r].
  - destruct (isspace c) eqn:E.
    + rewrite (visible_space c E). reflexivity.
    + reflexivity.
  - reflexivity.
Qed.

Lemma filter_visible_strip (s : str) :
  filter visible (strip s) = filter visible s.
Proof.
  unfold strip. rewrite filter_visible_rstrip. apply filter_visible_lstrip.
Qed.

Lemma strip_nil_iff (s : str) :
  strip s = [] <-> Forall (fun c => isspace c = true) s.
Proof.
  split.
  - intros H. apply Forall_forall. intros c Hc.
    destruct (isspace c) eqn:E; [reflexivity|]. exfalso.
    assert (Hin : In c (filter visible s)).
    { apply filter_In. split; [exact Hc|]. unfold visible. rewrite E.
      reflexivity. }
    rewrite <- filter_visible_strip, H in Hin. exact Hin.
  - intros H. unfold strip.
    assert (E : lstrip s = []).
    { induction H as [|c s Hc _ IH]; [reflexivity|]. simpl. rewrite Hc.
      exact IH. }
    rewrite E. reflexivity.
Qed.

Lemma filter_visible_replace_bom (s : str) :
  filter visible (replace [BOM] [] s)
  = filter (fun c => visible c && negb (eqc c BOM)) s.
Proof.
  unfold replace. induction s as [|c s IH]; [reflexivity|].
  rewrite replace_from_cons.
  change (starts_with [BOM] (c :: s)) with (eqc BOM c && true).
  rewrite andb_true_r, (eqc_sym BOM c). simpl filter at 2.
  destruct (eqc c BOM) eqn:E.
  - simpl. rewrite andb_false_r. exact IH.
  - simpl. rewrite andb_true_r. destruct (visible c); rewrite IH; reflexivity.
Qed.

Lemma filter_visible_replace_crlf (s : str) :
  forall skip, Forall (fun c => isspace c = true) (firstn skip s) ->
  filter visible (replace_from skip [CR; NL] [NL] s) = filter visible s.
Proof.
  induction s as [|c s IH]; intros skip H; [reflexivity|].
  rewrite replace_from_cons. destruct skip as [|k].
  - destruct (starts_with [CR; NL] (c :: s)) eqn:E.
    + apply starts_with_iff in E.
      destruct s as [|d s]; [discriminate|]. simpl in E.
      injection E as -> ->.
      change (length [CR; NL] - 1)%nat with 1%nat.
      change ([NL] ++ replace_from 1 [CR; NL] [NL] (NL :: s))
        with (NL :: replace_from 1 [CR; NL] [NL] (NL :: s)).
      change (filter visible (NL :: replace_from 1 [CR; NL] [NL] (NL :: s)))
        with (filter visible (replace_from 1 [CR; NL] [NL] (NL :: s))).
      change (filter visible (CR :: NL :: s))
        with (filter visible (NL :: s)).
      apply IH. repeat constructor.
    + change (filter visible (c :: replace_from 0 [CR; NL] [NL] s))
        with (if visible c
              then c :: filter visible (replace_from 0 [CR; NL] [NL] s)
              else filter visible (replace_from 0 [CR; NL] [NL] s)).
      rewrite (IH 0%nat) by constructor. reflexivity.
  - simpl in H. inversion H as [|? ? Hc Hrest]; subst.
    simpl filter at 2. rewrite (visible_space c Hc). apply IH. exact Hrest.
Qed.

Lemma filter_visible_map_cr (s : str) :
  filter visible (map (fun c => if eqc c CR then NL else c) s)
  = filter visible s.
Proof.
  induction s as [|c s IH]; [reflexivity|]. simpl.
  destruct (eqc c CR) eqn:E.
  - apply eqc_eq in E. subst c. exact IH.
  - rewrite IH. reflexivity.
Qed.

Lemma filter_visible_expandtabs (t : Z) (s : str) :
  forall col, filter visible (expandtabs_from col t s) = filter visible s.
Proof.
  induction s as [|c s IH]; intros col; [reflexivity|]. simpl.
  destruct (eqc c TAB) eqn:E.
  - apply eqc_eq in E. subst c. simpl.
    destruct (0 <? t)%Z; [|apply IH].
    rewrite filter_app, IH.
    assert (R : forall n, filter visible (repeat SP n) = []).
    { induction n; [reflexivity|exact IHn]. }
    rewrite R. reflexivity.
  - simpl. rewrite IH. reflexivity.
Qed.

Lemma filter_visible_join (lines : list str) :
  filter visible (join [NL] lines) = concat (map (filter visible) lines).
Proof.
  induction lines as [|l lines IH]; [reflexivity|].
  destruct lines as [|l2 lines].
  - simpl. rewrite app_nil_r. reflexivity.
  - rewrite join_cons by discriminate. rewrite !filter_app, IH. reflexivity.
Qed.

Lemma join_split (s : str) : join [NL] (split NL s) = s.
Proof.
  induction s as [|c s IH]; [reflexivity|]. rewrite split_cons.
  pose proof (split_nonempty NL s) as Hne.
  destruct (eqc c NL) eqn:E.
  - apply eqc_eq in E. subst c. rewrite join_cons by exact Hne.
    rewrite IH. reflexivity.
  - destruct (split NL s) as [|l [|l2 ls]]; [contradiction| |];
      simpl in *; rewrite <- IH; reflexivity.
Qed.

Lemma concat_visible_collapse (k : Z) (lines : list str) :
  forall r, concat (map (filter visible) (collapse k r lines))
            = concat (map (filter visible) lines).
Proof.
  induction lines as [|l lines IH]; intros r; [reflexivity|].
  rewrite collapse_cons. destruct l as [|c l].
  - destruct (r + 1 <=? k)%Z; simpl; apply IH.
  - simpl. rewrite IH. reflexivity.
Qed.

(** The normaliser changes white space and byte-order marks only. *)
Lemma normalise_visible (text : str) (t k : Z) :
  filter visible (normalise_whitespace text t k)
  = filter (fun c => visible c && negb (eqc c BOM)) text.
Proof.
  unfold normalise_whitespace.
  set (t3 := expandtabs t _).
  set (C := collapse k 0 (map rstrip (split NL t3))).
  assert (E : filter visible (strip (join [NL] C))
              = filter (fun c => visible c && negb (eqc c BOM)) text).
  { rewrite filter_visible_strip, filter_visible_join. unfold C.
    rewrite concat_visible_collapse, map_map.
    rewrite (map_ext _ (filter visible) filter_visible_rstrip).
    rewrite <- filter_visible_join, join_split. unfold t3, expandtabs.
    rewrite filter_visible_expandtabs, replace_one, filter_visible_map_cr.
    unfold replace at 1.
    rewrite filter_visible_replace_crlf by constructor.
    apply filter_visible_replace_bom. }
  destruct (strip (join [NL] C)) as [|x o]; [exact E|].
  rewrite filter_app. simpl filter at 2. rewrite app_nil_r. exact E.
Qed.

(** X5. The normaliser changes white space and byte-order marks only: the
    other characters of the input come out unchanged and in order. *)
Theorem normalise_keeps_text (text : str) (t k : Z) :
  filter visible (normalise_whitespace text t k)
  = filter (fun c => visible c && negb (eqc c BOM)) text.
Proof. apply normalise_visible. Qed.

Lemma normalise_nil_iff (text : str) (t k : Z) :
  normalise_whitespace text t k = []
  <-> Forall (fun c => isspace c = true \/ c = BOM) text.
Proof.
  pose proof (normalise_visible text t k) as Hv. split.
  - intros H. rewrite H in Hv. simpl in Hv.
    apply Forall_forall. intros c Hc.
    destruct (isspace c) eqn:Es; [left; reflexivity|right].
    destruct (eqc c BOM) eqn:Eb; [apply eqc_eq; exact Eb|]. exfalso.
    assert (Hin : In c (filter (fun c => visible c && negb (eqc c BOM)) text)).
    { apply filter_In. split; [exact Hc|]. unfold visible.
      rewrite Es, Eb. reflexivity. }
    rewrite <- Hv in Hin. exact Hin.
  - intros H.
    assert (E : filter (fun c => visible c && negb (eqc c BOM)) text = []).
    { clear Hv. induction H as [|c s Hc _ IH]; [reflexivity|]. simpl.
      destruct Hc as [Hc| ->].
      - rewrite (visible_space c Hc). exact IH.
      - rewrite eqc_refl, andb_false_r. exact IH. }
    rewrite E in Hv.
    destruct (normalise_shape text t k) as [lines [_ [_ [_ [Hs En]]]]].
    rewrite En in *. destruct (join [NL] lines) as [|x o]; [reflexivity|].
    exfalso. pose proof (strip_head (x :: o) x o Hs) as Hx.
    simpl in Hv. unfold visible at 1 in Hv. rewrite Hx in Hv. discriminate.
Qed.

(** X6. The normalised text is empty, so that the file is left out,
    exactly when the input holds nothing but white space and byte-order
    marks. *)
Theorem normalise_empty_iff (text : str) (t k : Z) :
  normalise_whitespace text t k = [] <-> blank_text text.
Proof. apply normalise_nil_iff. Qed.

(** The splitter below its loop: the text itself, or nothing. *)
Lemma chunk_text_whole (text : str) (max : Z) :
  (max <= 0)%Z \/ (len text <= max)%Z ->
  chunk_text text max = match text with [] => [] | _ :: _ => [text] end.
Proof.
  intros H. unfold chunk_text, chunk_text_run.
  destruct (Z.leb_spec max 0) as [H0|H0]; [reflexivity|].
  destruct (Z.leb_spec (len text) max) as [H1|H1]; [reflexivity|lia].
Qed.

Lemma filter_visible_segments (segs : list str) :
  filter visible (concat (map trimmed_chunk (filter nonblank segs)))
  = filter visible (concat segs).
Proof.
  induction segs as [|s segs IH]; [reflexivity|].
  cbn [filter concat]. rewrite filter_app, <- IH.
  rewrite <- (filter_visible_strip s). unfold nonblank.
  destruct (strip s) as [|x o] eqn:E; [reflexivity|].
  cbn [map concat]. unfold trimmed_chunk. rewrite E.
  rewrite !filter_app. simpl filter at 2. rewrite app_nil_r. reflexivity.
Qed.

Lemma chunk_text_visible (text : str) (max : Z) :
  filter visible (concat (chunk_text text max)) = filter visible text.
Proof.
  destruct (Z.leb_spec max 0) as [H0|H0];
    [|destruct (Z.leb_spec (len text) max) as [H1|H1]].
  - rewrite (chunk_text_whole text max (or_introl H0)).
    destruct text; [reflexivity|]. cbn [concat]. rewrite app_nil_r.
    reflexivity.
  - rewrite (chunk_text_whole text max (or_intror H1)).
    destruct text; [reflexivity|]. cbn [concat]. rewrite app_nil_r.
    reflexivity.
  - destruct (chunk_text_segments text max H0 H1) as [segs [Hc [_ E]]].
    rewrite E, filter_visible_segments, Hc. reflexivity.
Qed.

(** X7. Whatever the budget, the chunks hold the characters of the text
    that are not white space, all of them, once and in order: cutting only
    removes and adds white space. *)
Theorem chunk_text_keeps_text (text : str) (max : Z) :
  filter visible (concat (chunk_text text max)) = filter visible text.
Proof. apply chunk_text_visible. Qed.

(** X8. The splitter returns no chunk at all exactly when the text is
    empty, or is longer than a positive budget and holds white space
    only. *)
Theorem chunk_text_empty_iff (text : str) (max : Z) :
  chunk_text text max = []
  <-> text = []
      \/ ((0 < max < len text)%Z /\ Forall (fun c => isspace c = true) text).
Proof.
  destruct (Z.leb_spec max 0) as [H0|H0];
    [|destruct (Z.leb_spec (len text) max) as [H1|H1]].
  - rewrite (chunk_text_whole text max (or_introl H0)). split.
    + destruct text; [left; reflexivity|discriminate].
    + intros [->|[Hm _]]; [reflexivity|lia].
  - rewrite (chunk_text_whole text max (or_intror H1)). split.
    + destruct text; [left; reflexivity|discriminate].
    + intros [->|[Hm _]]; [reflexivity|lia].
  - destruct (chunk_text_segments text max H0 H1) as [segs [Hc [_ E]]].
    rewrite E. split.
    + intros H. right. split; [lia|]. apply strip_nil_iff.
      apply map_eq_nil in H.
      assert (Hv : filter visible (concat segs) = []).
      { rewrite <- filter_visible_segments, H. reflexivity. }
      rewrite Hc in Hv.
      destruct (strip text) as [|x o] eqn:Es; [reflexivity|]. exfalso.
      pose proof (strip_head text x o Es) as Hx.
      rewrite <- filter_visible_strip, Es in Hv. simpl in Hv.
      unfold visible at 1 in Hv. rewrite Hx in Hv. discriminate.
    + intros [->|[_ Hall]]; [unfold len in H1; simpl in H1; lia|].
      rewrite <- Hc in Hall.
      assert (F : filter nonblank segs = []).
      { clear Hc E. induction segs as [|s segs IH]; [reflexivity|].
        cbn [concat] in Hall. apply Forall_app in Hall.
        destruct Hall as [Hs Hrest]. cbn [filter]. unfold nonblank at 1.
        rewrite (proj2 (strip_nil_iff s) Hs). apply IH. exact Hrest. }
      rewrite F. reflexivity.
Qed.

(* ------------------------------------------------------------------ *)
(** ** The C-like scanner: what it removes and what it keeps *)

Lemma subseq_refl (s : str) : subseq s s.
Proof. induction s; constructor; assumption. Qed.

Lemma subseq_nil_l (s : str) : subseq [] s.
Proof. induction s; constructor; assumption. Qed.

Lemma subseq_app (a b c d : str) :
  subseq a b -> subseq c d -> subseq (a ++ c) (b ++ d).
Proof. intros H. induction H; intros Hc; simpl; try constructor; auto. Qed.

Lemma subseq_trans (a b : str) :
  subseq a b -> forall c, subseq b c -> subseq a c.
Proof.
  intros Hab c Hbc. revert a Hab.
  induction Hbc as [|x b c Hbc IH|x b c Hbc IH]; intros a Hab.
  - exact Hab.
  - inversion Hab; subst.
    + constructor. apply IH. assumption.
    + apply subseq_drop. apply IH. assumption.
  - apply subseq_drop. apply IH. exact Hab.
Qed.

Lemma subseq_length (a b : str) : subseq a b -> (length a <= length b)%nat.
Proof. intros H. induction H; simpl; lia. Qed.

Lemma subseq_skipn (n : nat) (s : str) : subseq (skipn n s) s.
Proof.
  revert s. induction n as [|n IH]; intros s; [apply subseq_refl|].
  destruct s as [|c s]; [constructor|]. simpl. apply subseq_drop. apply IH.
Qed.

Lemma subseq_firstn (n : nat) (s : str) : subseq (firstn n s) s.
Proof.
  revert s. induction n as [|n IH]; intros s; [apply subseq_nil_l|].
  destruct s as [|c s]; [constructor|]. simpl. constructor. apply IH.
Qed.

(** One pass appends the character it looks at, or nothing. *)
Lemma c_iter_emit (st : c_state) (ch : char) (nxt : option char) :
  snd (fst (c_iter st ch nxt)) = [] \/ snd (fst (c_iter st ch nxt)) = [ch].
Proof.
  unfold c_iter. c_iter_cases; auto.
Qed.

Lemma c_loop_subseq (n : nat) :
  forall text st, (length text <= n)%nat ->
  subseq (fst (c_loop st text)) text.
Proof.
  induction n as [|n IH]; intros text st Hn.
  - destruct text; [constructor|simpl in Hn; lia].
  - destruct text as [|ch rest]; [constructor|]. simpl in Hn.
    rewrite c_loop_cons.
    pose proof (c_iter_emit st ch (hd_error rest)) as He.
    destruct (c_iter st ch (hd_error rest)) as [[st' emit] adv].
    cbn [fst snd] in He.
    assert (Hrest : subseq (fst (match adv, rest with
                                 | By2, _ :: rest' => c_loop st' rest'
                                 | _, _ => c_loop st' rest
                                 end)) rest).
    { destruct adv, rest as [|d rest'];
        try (apply IH; simpl in *; lia).
      apply subseq_drop. apply IH. simpl in *. lia. }
    destruct (match adv, rest with
              | By2, _ :: rest' => c_loop st' rest'
              | _, _ => c_loop st' rest
              end) as [o fin].
    cbn [fst] in *.
    destruct He as [-> | ->]; simpl.
    + apply subseq_drop. exact Hrest.
    + constructor. exact Hrest.
Qed.

(** The quote remembered from an earlier string literal plays no part
    once that literal is closed. *)
Lemma c_iter_quote (il ib ic e : bool) (q1 q2 : option char)
                   (ch : char) (nxt : option char) :
  exists st1 st2 emit adv,
    c_iter (mk_c il ib false ic e q1) ch nxt = (st1, emit, adv)
    /\ c_iter (mk_c il ib false ic e q2) ch nxt = (st2, emit, adv)
    /\ (st1 = st2
        \/ exists il' ib' ic' e',
             st1 = mk_c il' ib' false ic' e' q1
             /\ st2 = mk_c il' ib' false ic' e' q2).
Proof.
  unfold c_iter. simpl.
  destruct il, ib, ic, e; simpl; c_iter_cases;
    do 4 eexists; (split; [reflexivity|split; [reflexivity|]]);
    try (left; reflexivity);
    right; do 4 eexists; split; reflexivity.
Qed.

Lemma c_loop_quote (n : nat) :
  forall text il ib ic e q1 q2, (length text <= n)%nat ->
  fst (c_loop (mk_c il ib false ic e q1) text)
  = fst (c_loop (mk_c il ib false ic e q2) text).
Proof.
  induction n as [|n IH]; intros text il ib ic e q1 q2 Hn.
  - destruct text; [reflexivity|simpl in Hn; lia].
  - destruct text as [|ch rest]; [reflexivity|]. simpl in Hn.
    rewrite !c_loop_cons.
    destruct (c_iter_quote il ib ic e q1 q2 ch (hd_error rest))
      as [st1 [st2 [emit [adv [E1 [E2 Hst]]]]]].
    rewrite E1, E2.
    assert (Hrest :
      fst (match adv, rest with
           | By2, _ :: rest' => c_loop st1 rest'
           | _, _ => c_loop st1 rest
           end)
      = fst (match adv, rest with
             | By2, _ :: rest' => c_loop st2 rest'
             | _, _ => c_loop st2 rest
             end)).
    { destruct Hst as [->|[il' [ib' [ic' [e' [-> ->]]]]]]; [reflexivity|].
      destruct adv, rest as [|d rest']; try (apply IH; simpl in *; lia). }
    destruct (match adv, rest with
              | By2, _ :: rest' => c_loop st1 rest'
              | _, _ => c_loop st1 rest
              end) as [o1 f1].
    destruct (match adv, rest with
              | By2, _ :: rest' => c_loop st2 rest'
              | _, _ => c_loop st2 rest
              end) as [o2 f2].
    cbn [fst] in *. rewrite Hrest. reflexivity.
Qed.

Lemma c_loop_normal_fresh (qo : option char) (text : str) :
  fst (c_loop (mk_c false false false false false qo) text)
  = strip_c_like_comments text.
Proof.
  unfold strip_c_like_comments, c_init.
  apply (c_loop_quote (length text)). apply Nat.le_refl.
Qed.

Lemma c_loop_open_line (qo : option char) (rest : str) :
  c_loop (mk_c false false false false false qo) (SLASH :: SLASH :: rest)
  = c_loop (mk_c true false false false false qo) rest.
Proof.
  rewrite c_loop_cons; unfold c_iter, eqc; simpl;
    destruct (c_loop _ rest); reflexivity.
Qed.

(** Inside a line comment nothing is appended up to the line break. *)
Lemma c_loop_line_body (qo : option char) (body rest : str) :
  ~ In NL body -> rest = [] \/ hd_error rest = Some NL ->
  fst (c_loop (mk_c true false false false false qo) (body ++ rest))
  = fst (c_loop (mk_c false false false false false qo) rest).
Proof.
  intros Hb Hr. induction body as [|c body IH].
  - destruct Hr as [->|Hr]; [reflexivity|].
    destruct rest as [|d rest]; [discriminate|]. injection Hr as ->.
    simpl app. rewrite !c_loop_cons. unfold c_iter, eqc. simpl.
    destruct (c_loop _ rest). reflexivity.
  - simpl app. rewrite c_loop_cons. unfold c_iter. simpl in_line. cbv iota.
    destruct (eqc c NL) eqn:E.
    + exfalso. apply eqc_eq in E. apply Hb. left. exact E.
    + assert (Hb' : ~ In NL body) by (intros H; apply Hb; right; exact H).
      specialize (IH Hb').
      cbv iota. destruct (c_loop _ (body ++ rest)) as [o f].
      exact IH.
Qed.

(** Inside a block comment nothing is appended up to the first closer. *)
Lemma c_loop_block_body (qo : option char) (body rest : str) :
  find [STAR; SLASH] body = (-1)%Z ->
  c_loop (mk_c false true false false false qo)
         (body ++ STAR :: SLASH :: rest)
  = c_loop (mk_c false false false false false qo) rest.
Proof.
  induction body as [|c body IH]; intros H.
  - simpl app. rewrite c_loop_cons. unfold c_iter, eqc. simpl.
    destruct (c_loop _ rest). reflexivity.
  - apply find_absent_cons in H. destruct H as [Hs Hf].
    simpl app. rewrite c_loop_cons. unfold c_iter. simpl in_line.
    simpl in_block. cbv iota.
    destruct (eqc c STAR && is_ch (hd_error (body ++ STAR :: SLASH :: rest))
                                  SLASH) eqn:E.
    + exfalso. apply andb_true_iff in E. destruct E as [E1 E2].
      destruct body as [|d body]; [simpl in E2; discriminate|].
      simpl in E2, Hs.
      rewrite (eqc_sym STAR c), E1, (eqc_sym SLASH d), E2 in Hs.
      discriminate.
    + specialize (IH Hf).
      destruct (c_loop _ (body ++ STAR :: SLASH :: rest)) as [o f] eqn:El.
      rewrite <- IH. reflexivity.
Qed.

(** X9. C-like scanner: a line comment that the scanner reaches outside
    comments and literals is removed up to its line break, which stays (or
    up to the end of the text), and the text behind it is scanned like a
    text of its own. *)
Theorem c_like_removes_line_comment (pre body rest o : str) (st : c_state) :
  c_reach c_init (pre ++ SLASH :: SLASH :: body ++ rest) (length pre)
  = Some (o, st) ->
  c_normal st -> ~ In NL body -> rest = [] \/ hd_error rest = Some NL ->
  strip_c_like_comments (pre ++ SLASH :: SLASH :: body ++ rest)
  = o ++ strip_c_like_comments rest.
Proof.
  intros Hr Hn Hb Hrest.
  rewrite (c_reach_normal pre _ o st Hr Hn).
  rewrite c_loop_open_line, (c_loop_line_body _ body rest Hb Hrest).
  rewrite c_loop_normal_fresh. reflexivity.
Qed.

Lemma c_like_removes_line_comment_witness :
  strip_c_like_comments
    (lit "x = 1; " ++ SLASH :: SLASH :: lit " note" ++ NL :: lit "y")
  = lit "x = 1; " ++ strip_c_like_comments (NL :: lit "y").
Proof.
  apply (c_like_removes_line_comment (lit "x = 1; ") (lit " note")
           (NL :: lit "y") (lit "x = 1; ") c_init).
  - reflexivity.
  - repeat split.
  - vm_compute. intros H. repeat (destruct H as [H|H]; [discriminate|]).
    exact H.
  - right. reflexivity.
Defined.

(** X10. C-like scanner: a block comment that the scanner reaches outside
    comments and literals is removed up to its first closer, and the text
    behind the closer is scanned like a text of its own. *)
Theorem c_like_removes_block_comment (pre body rest o : str)
                                     (st : c_state) :
  c_reach c_init (pre ++ SLASH :: STAR :: body ++ STAR :: SLASH :: rest)
          (length pre) = Some (o, st) ->
  c_normal st -> find [STAR; SLASH] body = (-1)%Z ->
  strip_c_like_comments (pre ++ SLASH :: STAR :: body ++ STAR :: SLASH :: rest)
  = o ++ strip_c_like_comments rest.
Proof.
  intros Hr Hn Hb.
  rewrite (c_reach_normal pre _ o st Hr Hn).
  rewrite c_loop_open_block, (c_loop_block_body _ body rest Hb).
  rewrite c_loop_normal_fresh. reflexivity.
Qed.

Lemma c_like_removes_block_comment_witness :
  strip_c_like_comments
    (lit "a " ++ SLASH :: STAR :: lit " b * c " ++ STAR :: SLASH :: lit " d")
  = lit "a " ++ strip_c_like_comments (lit " d").
Proof.
  apply (c_like_removes_block_comment (lit "a ") (lit " b * c ")
           (lit " d") (lit "a ") c_init); [reflexivity| |reflexivity].
  repeat split.
Defined.

(** X11. C-like scanner: the output is the input with some characters
    left out; nothing is added, changed or moved. *)
Theorem c_like_only_deletes (text : str) :
  subseq (strip_c_like_comments text) text.
Proof.
  apply (c_loop_subseq (length text)). apply Nat.le_refl.
Qed.

Lemma pair_test (a b c : char) (s : str) :
  eqc c a && is_ch (hd_error s) b = starts_with [a; b] (c :: s).
Proof.
  simpl. rewrite (eqc_sym a c). destruct s as [|d s]; simpl.
  - reflexivity.
  - rewrite (eqc_sym b d), andb_true_r. reflexivity.
Qed.

Lemma c_loop_no_opener (text : str) :
  find [SLASH; SLASH] text = (-1)%Z -> find [SLASH; STAR] text = (-1)%Z ->
  forall st, in_line st = false -> in_block st = false ->
  fst (c_loop st text) = text.
Proof.
  induction text as [|c text IH]; intros H1 H2 st Hl Hb; [reflexivity|].
  apply find_absent_cons in H1. destruct H1 as [S1 F1].
  apply find_absent_cons in H2. destruct H2 as [S2 F2].
  rewrite <- pair_test in S1, S2.
  rewrite c_loop_cons.
  assert (E : exists st', c_iter st c (hd_error text) = (st', [c], By1)
                          /\ in_line st' = false /\ in_block st' = false).
  { unfold c_iter. rewrite Hl, Hb, S1, S2.
    destruct st as [il ib istr ichr esc qo]. simpl in *. subst il ib.
    c_iter_cases; eexists; (split; [reflexivity|split; reflexivity]). }
  destruct E as [st' [E [Hl' Hb']]]. rewrite E.
  specialize (IH F1 F2 st' Hl' Hb').
  cbv iota. destruct (c_loop st' text) as [o f].
  cbn [fst app] in *. rewrite IH. reflexivity.
Qed.

(** X12. C-like scanner: a text that holds neither of the two comment
    openers is returned as it is. *)
Theorem c_like_comment_free (text : str) :
  find [SLASH; SLASH] text = (-1)%Z -> find [SLASH; STAR] text = (-1)%Z ->
  strip_c_like_comments text = text.
Proof.
  intros H1 H2. apply (c_loop_no_opener text H1 H2); reflexivity.
Qed.

Lemma c_like_comment_free_witness :
  strip_c_like_comments (lit "a / b * 'c' / d") = lit "a / b * 'c' / d".
Proof.
  apply c_like_comment_free; reflexivity.
Defined.

(* ------------------------------------------------------------------ *)
(** ** The SQL scanner: what it removes and what it keeps *)

Lemma s_iter_emit (st : s_state) (ch : char) (nxt : option char) :
  snd (fst (s_iter st ch nxt)) = [] \/ snd (fst (s_iter st ch nxt)) = [ch].
Proof.
  unfold s_iter. c_iter_cases; auto.
Qed.

Lemma skip_to_nl_subseq (t : str) : subseq (skip_to_nl t) t.
Proof.
  induction t as [|c t IH]; [constructor|]. simpl.
  destruct (eqc c NL); [apply subseq_refl|apply subseq_drop; exact IH].
Qed.

Lemma skip_to_nl_app (body rest : str) :
  ~ In NL body -> rest = [] \/ hd_error rest = Some NL ->
  skip_to_nl (body ++ rest) = rest.
Proof.
  intros Hb Hr. induction body as [|c body IH].
  - destruct Hr as [->|Hr]; [reflexivity|].
    destruct rest as [|d rest]; [discriminate|]. injection Hr as ->.
    reflexivity.
  - simpl. destruct (eqc c NL) eqn:E.
    + exfalso. apply eqc_eq in E. apply Hb. left. exact E.
    + apply IH. intros H. apply Hb. right. exact H.
Qed.

Lemma s_loop_subseq (n : nat) :
  forall text st, (length text <= n)%nat ->
  subseq (fst (s_loop st text)) text.
Proof.
  induction n as [|n IH]; intros text st Hn.
  - destruct text; [constructor|simpl in Hn; lia].
  - destruct text as [|ch rest]; [constructor|]. simpl in Hn.
    rewrite s_loop_cons.
    pose proof (s_iter_emit st ch (hd_error rest)) as He.
    destruct (s_iter st ch (hd_error rest)) as [[st' emit] adv].
    cbn [fst snd] in He.
    assert (Hrest : subseq (fst (match adv with
                                 | By2 => match rest with
                                          | _ :: rest' => s_loop st' rest'
                                          | [] => ([], st')
                                          end
                                 | ToEol => s_loop st' (skip_to_nl rest)
                                 | _ => s_loop st' rest
                                 end)) rest).
    { destruct adv; try (apply IH; lia).
      - destruct rest as [|d rest']; [constructor|].
        apply subseq_drop. apply IH. simpl in Hn. lia.
      - apply (subseq_trans _ (skip_to_nl rest));
          [|apply skip_to_nl_subseq].
        apply IH. pose proof (subseq_length _ _ (skip_to_nl_subseq rest)).
        lia. }
    destruct (match adv with
              | By2 => match rest with
                       | _ :: rest' => s_loop st' rest'
                       | [] => ([], st')
                       end
              | ToEol => s_loop st' (skip_to_nl rest)
              | _ => s_loop st' rest
              end) as [o fin].
    cbn [fst] in *.
    destruct He as [-> | ->]; simpl.
    + apply subseq_drop. exact Hrest.
    + constructor. exact Hrest.
Qed.

Lemma s_iter_quote (ib e : bool) (q1 q2 : option char)
                   (ch : char) (nxt : option char) :
  exists st1 st2 emit adv,
    s_iter (mk_s ib false q1 e) ch nxt = (st1, emit, adv)
    /\ s_iter (mk_s ib false q2 e) ch nxt = (st2, emit, adv)
    /\ (st1 = st2
        \/ exists ib' e',
             st1 = mk_s ib' false q1 e' /\ st2 = mk_s ib' false q2 e').
Proof.
  unfold s_iter. simpl.
  destruct ib, e; simpl; c_iter_cases;
    do 4 eexists; (split; [reflexivity|split; [reflexivity|]]);
    try (left; reflexivity);
    right; do 2 eexists; split; reflexivity.
Qed.

Lemma s_loop_quote (n : nat) :
  forall text ib e q1 q2, (length text <= n)%nat ->
  fst (s_loop (mk_s ib false q1 e) text)
  = fst (s_loop (mk_s ib false q2 e) text).
Proof.
  induction n as [|n IH]; intros text ib e q1 q2 Hn.
  - destruct text; [reflexivity|simpl in Hn; lia].
  - destruct text as [|ch rest]; [reflexivity|]. simpl in Hn.
    rewrite !s_loop_cons.
    destruct (s_iter_quote ib e q1 q2 ch (hd_error rest))
      as [st1 [st2 [emit [adv [E1 [E2 Hst]]]]]].
    rewrite E1, E2.
    assert (Hrest :
      fst (match adv with
           | By2 => match rest with
                    | _ :: rest' => s_loop st1 rest'
                    | [] => ([], st1)
                    end
           | ToEol => s_loop st1 (skip_to_nl rest)
           | _ => s_loop st1 rest
           end)
      = fst (match adv with
             | By2 => match rest with
                      | _ :: rest' => s_loop st2 rest'
                      | [] => ([], st2)
                      end
             | ToEol => s_loop st2 (skip_to_nl rest)
             | _ => s_loop st2 rest
             end)).
    { destruct Hst as [->|[ib' [e' [-> ->]]]]; [reflexivity|].
      destruct adv; try (apply IH; lia).
      - destruct rest as [|d rest']; [reflexivity|].
        apply IH. simpl in Hn. lia.
      - apply IH. pose proof (subseq_length _ _ (skip_to_nl_subseq rest)).
        lia. }
    destruct (match adv with
              | By2 => match rest with
                       | _ :: rest' => s_loop st1 rest'
                       | [] => ([], st1)
                       end
              | ToEol => s_loop st1 (skip_to_nl rest)
              | _ => s_loop st1 rest
              end) as [o1 f1].
    destruct (match adv with
              | By2 => match rest with
                       | _ :: rest' => s_loop st2 rest'
                       | [] => ([], st2)
                       end
              | ToEol => s_loop st2 (skip_to_nl rest)
              | _ => s_loop st2 rest
              end) as [o2 f2].
    cbn [fst] in *. rewrite Hrest. reflexivity.
Qed.

Lemma s_loop_normal_fresh (qo : option char) (text : str) :
  fst (s_loop (mk_s false false qo false) text) = strip_sql_comments text.
Proof.
  unfold strip_sql_comments, s_init.
  apply (s_loop_quote (length text)). apply Nat.le_refl.
Qed.

(** At two dashes the scanner goes on at the next line break. *)
Lemma s_loop_line (qo : option char) (body rest : str) :
  ~ In NL body -> rest = [] \/ hd_error rest = Some NL ->
  s_loop (mk_s false false qo false) (DASH :: DASH :: body ++ rest)
  = s_loop (mk_s false false qo false) rest.
Proof.
  intros Hb Hr. rewrite s_loop_cons. unfold s_iter, eqc. simpl.
  change (if eqc DASH NL then DASH :: body ++ rest
          else skip_to_nl (body ++ rest))
    with (skip_to_nl (body ++ rest)).
  rewrite (skip_to_nl_app body rest Hb Hr).
  destruct (s_loop _ rest). reflexivity.
Qed.

Lemma s_loop_block_body (qo : option char) (body rest : str) :
  find [STAR; SLASH] body = (-1)%Z ->
  s_loop (mk_s true false qo false) (body ++ STAR :: SLASH :: rest)
  = s_loop (mk_s false false qo false) rest.
Proof.
  induction body as [|c body IH]; intros H.
  - simpl app. rewrite s_loop_cons. unfold s_iter, eqc. simpl.
    destruct (s_loop _ rest). reflexivity.
  - apply find_absent_cons in H. destruct H as [Hs Hf].
    simpl app. rewrite s_loop_cons. unfold s_iter. simpl s_in_block.
    cbv iota.
    destruct (eqc c STAR && is_ch (hd_error (body ++ STAR :: SLASH :: rest))
                                  SLASH) eqn:E.
    + exfalso. apply andb_true_iff in E. destruct E as [E1 E2].
      destruct body as [|d body]; [simpl in E2; discriminate|].
      simpl in E2, Hs.
      rewrite (eqc_sym STAR c), E1, (eqc_sym SLASH d), E2 in Hs.
      discriminate.
    + specialize (IH Hf).
      destruct (s_loop _ (body ++ STAR :: SLASH :: rest)) as [o f] eqn:El.
      rewrite <- IH. reflexivity.
Qed.

(** X13. SQL scanner: a line comment that the scanner reaches outside
    comments and literals is removed up to its line break, which stays (or
    up to the end of the text), and the text behind it is scanned like a
    text of its own. *)
Theorem sql_removes_line_comment (pre body rest o : str) (st : s_state) :
  s_reach s_init (pre ++ DASH :: DASH :: body ++ rest) (length pre)
  = Some (o, st) ->
  s_normal st -> ~ In NL body -> rest = [] \/ hd_error rest = Some NL ->
  strip_sql_comments (pre ++ DASH :: DASH :: body ++ rest)
  = o ++ strip_sql_comments rest.
Proof.
  intros Hr Hn Hb Hrest.
  rewrite (s_reach_normal pre _ o st Hr Hn).
  rewrite (s_loop_line _ body rest Hb Hrest).
  rewrite s_loop_normal_fresh. reflexivity.
Qed.

Lemma sql_removes_line_comment_witness :
  strip_sql_comments
    (lit "SELECT 1; " ++ DASH :: DASH :: lit " note" ++ NL :: lit "x")
  = lit "SELECT 1; " ++ strip_sql_comments (NL :: lit "x").
Proof.
  apply (sql_removes_line_comment (lit "SELECT 1; ") (lit " note")
           (NL :: lit "x") (lit "SELECT 1; ") s_init).
  - reflexivity.
  - repeat split.
  - vm_compute. intros H. repeat (destruct H as [H|H]; [discriminate|]).
    exact H.
  - right. reflexivity.
Defined.

(** X14. SQL scanner: a block comment that the scanner reaches outside
    comments and literals is removed up to its first closer, and the text
    behind the closer is scanned like a text of its own. *)
Theorem sql_removes_block_comment (pre body rest o : str) (st : s_state) :
  s_reach s_init (pre ++ SLASH :: STAR :: body ++ STAR :: SLASH :: rest)
          (length pre) = Some (o, st) ->
  s_normal st -> find [STAR; SLASH] body = (-1)%Z ->
  strip_sql_comments (pre ++ SLASH :: STAR :: body ++ STAR :: SLASH :: rest)
  = o ++ strip_sql_comments rest.
Proof.
  intros Hr Hn Hb.
  rewrite (s_reach_normal pre _ o st Hr Hn).
  rewrite s_loop_open_block, (s_loop_block_body _ body rest Hb).
  rewrite s_loop_normal_fresh. reflexivity.
Qed.

Lemma sql_removes_block_comment_witness :
  strip_sql_comments
    (lit "a " ++ SLASH :: STAR :: lit " b * c " ++ STAR :: SLASH :: lit " d")
  = lit "a " ++ strip_sql_comments (lit " d").
Proof.
  apply (sql_removes_block_comment (lit "a ") (lit " b * c ")
           (lit " d") (lit "a ") s_init); [reflexivity| |reflexivity].
  repeat split.
Defined.

(** X15. SQL scanner: the output is the input with some characters left
    out; nothing is added, changed or moved. *)
Theorem sql_only_deletes (text : str) :
  subseq (strip_sql_comments text) text.
Proof.
  apply (s_loop_subseq (length text)). apply Nat.le_refl.
Qed.

Lemma s_loop_no_opener (text : str) :
  find [DASH; DASH] text = (-1)%Z -> find [SLASH; STAR] text = (-1)%Z ->
  forall st, s_in_block st = false ->
  fst (s_loop st text) = text.
Proof.
  induction text as [|c text IH]; intros H1 H2 st Hb; [reflexivity|].
  apply find_absent_cons in H1. destruct H1 as [S1 F1].
  apply find_absent_cons in H2. destruct H2 as [S2 F2].
  rewrite <- pair_test in S1, S2.
  rewrite s_loop_cons.
  assert (E : exists st', s_iter st c (hd_error text) = (st', [c], By1)
                          /\ s_in_block st' = false).
  { unfold s_iter. rewrite Hb, S1, S2.
    destruct st as [ib istr qo esc]. simpl in *. subst ib.
    c_iter_cases; eexists; (split; reflexivity). }
  destruct E as [st' [E Hb']]. rewrite E.
  specialize (IH F1 F2 st' Hb').
  destruct (s_loop st' text) as [o f].
  cbn [fst app] in *. rewrite IH. reflexivity.
Qed.

(** X16. SQL scanner: a text that holds neither of the two comment
    openers is returned as it is. *)
Theorem sql_comment_free (text : str) :
  find [DASH; DASH] text = (-1)%Z -> find [SLASH; STAR] text = (-1)%Z ->
  strip_sql_comments text = text.
Proof.
  intros H1 H2. apply (s_loop_no_opener text H1 H2). reflexivity.
Qed.

Lemma sql_comment_free_witness :
  strip_sql_comments (lit "SELECT a - b / 'c' * d") = lit "SELECT a - b / 'c' * d".
Proof.
  apply sql_comment_free; reflexivity.
Defined.

(* ------------------------------------------------------------------ *)
(** ** The HTML scanner: what it removes and what it keeps *)

Lemma html_sub_subseq (s : str) : forall skip, subseq (html_sub skip s) s.
Proof.
  induction s as [|c s IH]; intros skip; [destruct skip; constructor|].
  rewrite html_sub_cons. destruct skip as [|k].
  - destruct (html_match (c :: s)) as [n|].
    + apply subseq_drop. apply IH.
    + constructor. apply IH.
  - apply subseq_drop. apply IH.
Qed.

(** X17. HTML scanner: the output is the input with some characters left
    out; nothing is added, changed or moved. *)
Theorem html_only_deletes (text : str) :
  subseq (strip_html_comments text) text.
Proof. apply html_sub_subseq. Qed.

Lemma html_match_no_open (s : str) :
  starts_with HTML_OPEN s = false -> html_match s = None.
Proof. unfold html_match. intros ->. reflexivity. Qed.

Lemma html_sub_no_open (s : str) :
  find HTML_OPEN s = (-1)%Z -> html_sub 0 s = s.
Proof.
  induction s as [|c s IH]; intros H; [reflexivity|].
  apply find_absent_cons in H. destruct H as [Hs Hf].
  rewrite html_sub_cons, (html_match_no_open _ Hs), (IH Hf). reflexivity.
Qed.

(** X18. HTML scanner: a text that does not hold the comment opener is
    returned as it is. *)
Theorem html_comment_free (text : str) :
  find HTML_OPEN text = (-1)%Z -> strip_html_comments text = text.
Proof. apply html_sub_no_open. Qed.

Lemma html_comment_free_witness :
  strip_html_comments (lit "<p>a -- b --> c <! d</p>")
  = lit "<p>a -- b --> c <! d</p>".
Proof. apply html_comment_free. reflexivity. Defined.

(** The first closer behind a body that holds none is the one that
    follows the body. *)
Lemma find_close_at (body rest : str) :
  find HTML_CLOSE body = (-1)%Z ->
  find HTML_CLOSE (body ++ HTML_CLOSE ++ rest) = len body.
Proof.
  induction body as [|c body IH]; intros H; [reflexivity|].
  apply find_absent_cons in H. destruct H as [Hs Hf].
  change ((c :: body) ++ HTML_CLOSE ++ rest)
    with (c :: (body ++ HTML_CLOSE ++ rest)).
  rewrite find_cons, (IH Hf).
  assert (E : starts_with HTML_CLOSE (c :: body ++ HTML_CLOSE ++ rest)
              = false).
  { destruct body as [|d [|e body]].
    - simpl. destruct (eqc DASH c); reflexivity.
    - simpl. destruct (eqc DASH c), (eqc DASH d); reflexivity.
    - exact Hs. }
  rewrite E. destruct (Z.ltb_spec (len body) 0) as [Hlt|Hge].
  - pose proof (len_nonneg body). lia.
  - unfold len. simpl length. lia.
Qed.

Lemma html_match_comment (body rest : str) :
  find HTML_CLOSE body = (-1)%Z ->
  html_match (HTML_OPEN ++ body ++ HTML_CLOSE ++ rest)
  = Some (4 + length body + 3)%nat.
Proof.
  intros H. unfold html_match. rewrite starts_with_app.
  change (skipn 4 (HTML_OPEN ++ body ++ HTML_CLOSE ++ rest))
    with (body ++ HTML_CLOSE ++ rest).
  rewrite (find_close_at body rest H).
  destruct (Z.ltb_spec (len body) 0) as [Hlt|Hge].
  - pose proof (len_nonneg body). lia.
  - unfold len. rewrite Nat2Z.id. reflexivity.
Qed.

Lemma html_sub_skip (x rest : str) :
  html_sub (length x) (x ++ rest) = html_sub 0 rest.
Proof.
  induction x as [|c x IH]; [reflexivity|]. simpl app. simpl length.
  rewrite html_sub_cons. exact IH.
Qed.

Lemma html_sub_comment (body rest : str) :
  find HTML_CLOSE body = (-1)%Z ->
  html_sub 0 (HTML_OPEN ++ body ++ HTML_CLOSE ++ rest) = html_sub 0 rest.
Proof.
  intros H.
  pose proof (html_match_comment body rest H) as Hm.
  change (HTML_OPEN ++ body ++ HTML_CLOSE ++ rest)
    with (LT :: ([BANG; DASH; DASH] ++ body ++ HTML_CLOSE ++ rest)) in *.
  rewrite html_sub_cons, Hm.
  replace (4 + length body + 3 - 1)%nat
    with (length ([BANG; DASH; DASH] ++ body ++ HTML_CLOSE)).
  - replace ([BANG; DASH; DASH] ++ body ++ HTML_CLOSE ++ rest)
      with (([BANG; DASH; DASH] ++ body ++ HTML_CLOSE) ++ rest).
    + apply html_sub_skip.
    + rewrite <- !app_assoc. reflexivity.
  - rewrite !length_app. simpl. lia.
Qed.

(** No opener begins in a text that holds none, whatever opener
    follows. *)
Lemma starts_open_before_open (a x : str) :
  a <> [] -> starts_with HTML_OPEN a = false ->
  starts_with HTML_OPEN (a ++ HTML_OPEN ++ x) = false.
Proof.
  intros Ha Hs.
  destruct (Nat.le_gt_cases (length HTML_OPEN) (length a)) as [Hl|Hl].
  - rewrite starts_with_app_long by exact Hl. exact Hs.
  - destruct (starts_with HTML_OPEN (a ++ HTML_OPEN ++ x)) eqn:E;
      [|reflexivity]. exfalso.
    pose proof (starts_with_app_nth HTML_OPEN a LT
                  ([BANG; DASH; DASH] ++ x) Hl E) as Hn.
    destruct a as [|c1 [|c2 [|c3 [|c4 a]]]];
      [contradiction|discriminate|discriminate|discriminate|].
    simpl in Hl. lia.
Qed.

Lemma html_sub_before_open (x : str) (pre : str) :
  find HTML_OPEN pre = (-1)%Z ->
  html_sub 0 (pre ++ HTML_OPEN ++ x) = pre ++ html_sub 0 (HTML_OPEN ++ x).
Proof.
  induction pre as [|c pre IH]; intros H; [reflexivity|].
  apply find_absent_cons in H. destruct H as [Hs Hf].
  change ((c :: pre) ++ HTML_OPEN ++ x) with (c :: (pre ++ HTML_OPEN ++ x)).
  rewrite html_sub_cons.
  change (c :: (pre ++ HTML_OPEN ++ x)) with ((c :: pre) ++ HTML_OPEN ++ x).
  rewrite (html_match_no_open _
             (starts_open_before_open (c :: pre) x ltac:(discriminate) Hs)).
  rewrite (IH Hf). reflexivity.
Qed.

(** X19. HTML scanner: the first comment of a text, from its opener to
    the first closer behind it, is removed; the text before it is kept and
    the text behind it is scanned like a text of its own. *)
Theorem html_removes_comment (pre body rest : str) :
  find HTML_OPEN pre = (-1)%Z -> find HTML_CLOSE body = (-1)%Z ->
  strip_html_comments (pre ++ HTML_OPEN ++ body ++ HTML_CLOSE ++ rest)
  = pre ++ strip_html_comments rest.
Proof.
  intros Hp Hb. unfold strip_html_comments.
  rewrite (html_sub_before_open _ pre Hp), (html_sub_comment body rest Hb).
  reflexivity.
Qed.

Lemma html_removes_comment_witness :
  strip_html_comments
    (lit "<p>a</p> <" ++ HTML_OPEN ++ lit " b -- > c -" ++ HTML_CLOSE
     ++ lit "<i>d</i>")
  = lit "<p>a</p> <" ++ strip_html_comments (lit "<i>d</i>").
Proof.
  apply (html_removes_comment (lit "<p>a</p> <") (lit " b -- > c -")
           (lit "<i>d</i>")); reflexivity.
Defined.

(* ------------------------------------------------------------------ *)
(** ** The line scanners: what they remove and what they keep *)

Lemma prefix_subseq (o l : str) : prefix_of o l -> subseq o l.
Proof.
  intros [r ->]. rewrite <- (app_nil_r o) at 1.
  apply subseq_app; [apply subseq_refl|apply subseq_nil_l].
Qed.

(** The scan of a line copies the line up to the place where it stops. *)
Lemma h_loop_prefix (line : str) :
  forall st, prefix_of (fst (h_loop st line)) line.
Proof.
  induction line as [|c line IH]; intros st; [exists []; reflexivity|].
  rewrite h_loop_cons.
  pose proof (h_iter_emit st c) as He.
  destruct (h_iter st c) as [[st' emit] adv]. cbn [fst snd] in He.
  destruct He as [[-> ->]|[-> ->]].
  - exists (c :: line). reflexivity.
  - destruct (IH st') as [r Hr]. destruct (h_loop st' line) as [o f].
    cbn [fst app] in *. exists r. simpl. f_equal. exact Hr.
Qed.

(** X20. Hash-line scanner: the output has the lines of the input, each
    cut off at some place; no line is added, dropped or joined to
    another. *)
Theorem hash_line_cuts_lines (text : str) :
  Forall2 prefix_of (split NL (strip_hash_line_comments text))
                    (split NL (unix_newlines text)).
Proof.
  unfold strip_hash_line_comments.
  pose proof (split_no_sep NL (unix_newlines text)) as Hn.
  pose proof (split_nonempty NL (unix_newlines text)) as Hne.
  set (lines := split NL (unix_newlines text)) in *.
  rewrite split_join.
  - clear Hn Hne. induction lines as [|l lines IH]; constructor;
      [apply h_loop_prefix|exact IH].
  - intros H. apply map_eq_nil in H. exact (Hne H).
  - apply Forall_map. revert Hn. apply Forall_impl. intros l Hl Hin.
    apply Hl. exact (h_loop_incl l NL l_init Hin).
Qed.

Lemma h_loop_hash (st : l_state) (x : str) :
  l_in_str st = false -> h_loop st (HASH :: x) = ([], None).
Proof.
  intros H. rewrite h_loop_cons. unfold h_iter. rewrite H.
  unfold eqc. simpl. reflexivity.
Qed.

Lemma unix_newlines_head (rest : str) :
  rest = [] \/ hd_error rest = Some NL \/ hd_error rest = Some CR ->
  unix_newlines rest = [] \/ exists r, unix_newlines rest = NL :: r.
Proof.
  intros [->|H]; [left; reflexivity|right].
  destruct rest as [|c rest]; [destruct H; discriminate|].
  unfold unix_newlines. rewrite replace_one. unfold replace.
  rewrite replace_from_cons.
  destruct H as [H|H]; injection H as ->.
  - change (starts_with [CR; NL] (NL :: rest)) with false. cbv iota.
    simpl map. eexists. reflexivity.
  - destruct (starts_with [CR; NL] (CR :: rest)); simpl;
      eexists; reflexivity.
Qed.

Lemma join_app (sep : str) (a b : list str) :
  a <> [] -> b <> [] ->
  join sep (a ++ b) = join sep a ++ sep ++ join sep b.
Proof.
  intros Ha Hb. induction a as [|x a IH]; [contradiction|].
  destruct a as [|y a].
  - simpl app. rewrite join_cons by exact Hb. reflexivity.
  - change ((x :: y :: a) ++ b) with (x :: ((y :: a) ++ b)).
    rewrite (join_cons sep x ((y :: a) ++ b)) by discriminate.
    rewrite (join_cons sep x (y :: a)) by discriminate.
    rewrite IH by discriminate. rewrite <- !app_assoc. reflexivity.
Qed.

(** X21. Hash-line scanner: a hash sign that the scan of its line reaches
    outside a string literal starts a comment; the comment is removed up
    to the end of its line, the line break stays, and the text behind it
    is scanned like a text of its own. *)
Theorem hash_line_removes_comment (pre body rest o : str) (st : l_state) :
  h_loop l_init (last_line pre) = (o, Some st) -> l_in_str st = false ->
  ~ In NL body -> ~ In CR body ->
  rest = [] \/ hd_error rest = Some NL \/ hd_error rest = Some CR ->
  strip_hash_line_comments (pre ++ HASH :: body ++ rest)
  = strip_hash_line_comments pre ++ strip_hash_line_comments rest.
Proof.
  intros Hl Hs Hnl Hcr Hrest. unfold last_line in Hl.
  unfold strip_hash_line_comments.
  change (pre ++ HASH :: body ++ rest) with (pre ++ (HASH :: body) ++ rest).
  rewrite unix_newlines_around;
    [|discriminate|discriminate
     |intros [H|H]; [discriminate|exact (Hcr H)]].
  rewrite split_around by (intros [H|H]; [discriminate|exact (Hnl H)]).
  pose proof (split_nonempty NL (unix_newlines pre)) as HP.
  set (P := split NL (unix_newlines pre)) in *.
  set (f := fun line => fst (h_loop l_init line)).
  set (U := unix_newlines rest).
  assert (Hlast : f (last P [] ++ (HASH :: body) ++ hd [] (split NL U))
                  = f (last P [])).
  { unfold f.
    destruct (h_loop_app (last P []) ((HASH :: body) ++ hd [] (split NL U))
                l_init o st Hl) as [_ E].
    rewrite E, Hl. cbn [fst].
    change ((HASH :: body) ++ hd [] (split NL U))
      with (HASH :: (body ++ hd [] (split NL U))).
    rewrite (h_loop_hash st _ Hs). apply app_nil_r. }
  rewrite !map_app. cbn [map]. rewrite Hlast.
  change [f (last P [])] with (map f [last P []]).
  rewrite app_assoc, <- map_app, <- (app_removelast_last [] HP).
  assert (HfP : map f P <> []).
  { intros H. apply map_eq_nil in H. exact (HP H). }
  destruct (unix_newlines_head rest Hrest) as [E|[r E]]; fold U in E;
    rewrite E.
  - simpl. rewrite !app_nil_r. reflexivity.
  - rewrite split_cons. change (eqc NL NL) with true. cbv iota.
    cbn [tl map]. pose proof (split_nonempty NL r) as Hr.
    assert (HfS : map f (split NL r) <> []).
    { intros H. apply map_eq_nil in H. exact (Hr H). }
    rewrite (join_app [NL] _ _ HfP HfS).
    change (f []) with (@nil N).
    rewrite (join_cons [NL] [] _ HfS). reflexivity.
Qed.

Lemma hash_line_removes_comment_witness :
  strip_hash_line_comments
    (lit "a = '#'  " ++ HASH :: lit " note 'x" ++ NL :: lit "b # c")
  = strip_hash_line_comments (lit "a = '#'  ")
    ++ strip_hash_line_comments (NL :: lit "b # c").
Proof.
  apply (hash_line_removes_comment (lit "a = '#'  ") (lit " note 'x")
           (NL :: lit "b # c") (lit "a = '#'  ") (mk_l false (Some SQ) false)).
  - reflexivity.
  - reflexivity.
  - vm_compute. intros H. repeat (destruct H as [H|H]; [discriminate|]).
    exact H.
  - vm_compute. intros H. repeat (destruct H as [H|H]; [discriminate|]).
    exact H.
  - right. left. reflexivity.
Defined.

Lemma h_loop_no_hash (line : str) :
  ~ In HASH line -> forall st, fst (h_loop st line) = line.
Proof.
  induction line as [|c line IH]; intros H st; [reflexivity|].
  assert (Hc : eqc c HASH = false).
  { destruct (eqc c HASH) eqn:E; [|reflexivity]. exfalso.
    apply eqc_eq in E. apply H. left. exact E. }
  assert (Hrest : ~ In HASH line) by (intros Hin; apply H; right; exact Hin).
  rewrite h_loop_cons.
  assert (E : exists st', h_iter st c = (st', [c], By1)).
  { unfold h_iter. rewrite Hc. c_iter_cases; eexists; reflexivity. }
  destruct E as [st' E]. rewrite E.
  specialize (IH Hrest st'). destruct (h_loop st' line) as [o f].
  cbn [fst app] in *. rewrite IH. reflexivity.
Qed.

Lemma unix_newlines_forall (P : char -> Prop) (s : str) :
  P NL -> Forall P s -> Forall P (unix_newlines s).
Proof.
  intros Hnl H. unfold unix_newlines. rewrite replace_one.
  pose proof (map_cr_forall P _ Hnl
                (replace_crlf_forall P s Hnl H 0%nat)) as Hm.
  revert Hm. apply Forall_impl. intros c [Hc _]. exact Hc.
Qed.

(** X22. Hash-line scanner: a text without a hash sign comes back with
    its line endings turned into newlines and no other change. *)
Theorem hash_line_comment_free (text : str) :
  ~ In HASH text -> strip_hash_line_comments text = unix_newlines text.
Proof.
  intros H. unfold strip_hash_line_comments.
  assert (Hall : Forall (fun c => c <> HASH) (unix_newlines text)).
  { apply unix_newlines_forall; [discriminate|].
    apply Forall_forall. intros c Hc E. subst c. exact (H Hc). }
  pose proof (split_forall _ NL _ Hall) as Hl.
  rewrite <- (join_split (unix_newlines text)) at 2.
  f_equal.
  induction Hl as [|l lines Hx _ IH]; [reflexivity|].
  simpl map. rewrite IH. f_equal. apply h_loop_no_hash.
  intros Hin. rewrite Forall_forall in Hx. exact (Hx HASH Hin eq_refl).
Qed.

Lemma hash_line_comment_free_witness :
  strip_hash_line_comments (lit "a = 1" ++ [CR; NL] ++ lit "b = 'x'")
  = unix_newlines (lit "a = 1" ++ [CR; NL] ++ lit "b = 'x'").
Proof.
  apply hash_line_comment_free. vm_compute. intros H.
  repeat (destruct H as [H|H]; [discriminate|]). exact H.
Defined.

Lemma py_lines_cons (sd in_triple : bool) (triple_quote line : str)
                    (rest : list str) :
  py_lines sd in_triple triple_quote (line :: rest) =
  if sd then
    if in_triple && negb (contains triple_quote line) then
      py_lines sd in_triple triple_quote rest
    else
      let '(in_triple1, line1) :=
        if in_triple
        then (false, slice_from line (find triple_quote line + 3))
        else (in_triple, line) in
      let '(in_triple2, triple_quote2, line2) :=
        py_open in_triple1 triple_quote line1 in
      fst (py_loop l_init line2)
        :: py_lines sd in_triple2 triple_quote2 rest
  else
    fst (py_loop l_init line)
      :: py_lines sd in_triple triple_quote rest.
Proof. reflexivity. Qed.

Lemma py_open_subseq (in_triple : bool) (triple_quote line : str) :
  subseq (snd (py_open in_triple triple_quote line)) line.
Proof.
  unfold py_open, slice_to.
  destruct (negb (find TRIPLE_SQ line =? -1)%Z); [apply subseq_firstn|].
  destruct (negb (find TRIPLE_DQ line =? -1)%Z); [apply subseq_firstn|].
  apply subseq_refl.
Qed.

Lemma py_loop_subseq (line : str) :
  subseq (fst (py_loop l_init line)) line.
Proof.
  rewrite py_loop_eq. apply prefix_subseq. apply h_loop_prefix.
Qed.

Lemma join_subseq_drop (x line : str) (rest : list str) :
  subseq x (join [NL] rest) -> subseq x (join [NL] (line :: rest)).
Proof.
  intros H. destruct rest as [|l2 rest].
  - simpl in H. inversion H; subst. apply subseq_nil_l.
  - rewrite join_cons by discriminate.
    change x with ([] ++ [] ++ x).
    apply subseq_app; [apply subseq_nil_l|].
    apply subseq_app; [apply subseq_nil_l|exact H].
Qed.

Lemma join_subseq_keep (o line : str) (outs rest : list str) :
  subseq o line -> subseq (join [NL] outs) (join [NL] rest) ->
  (outs <> [] -> rest <> []) ->
  subseq (join [NL] (o :: outs)) (join [NL] (line :: rest)).
Proof.
  intros Ho Hr Hne. destruct outs as [|o2 outs].
  - simpl join at 1. destruct rest as [|l2 rest]; [exact Ho|].
    rewrite join_cons by discriminate.
    rewrite <- (app_nil_r o).
    apply subseq_app; [exact Ho|apply subseq_nil_l].
  - rewrite join_cons by discriminate.
    rewrite (join_cons [NL] line rest) by (apply Hne; discriminate).
    apply subseq_app; [exact Ho|].
    apply subseq_app; [apply subseq_refl|exact Hr].
Qed.

Lemma py_lines_nil_rest (sd in_triple : bool) (triple_quote : str)
                        (lines : list str) :
  py_lines sd in_triple triple_quote lines <> [] -> lines <> [].
Proof. destruct lines; [intros H; contradiction|discriminate]. Qed.

Lemma py_lines_subseq (sd : bool) (lines : list str) :
  forall in_triple triple_quote,
  subseq (join [NL] (py_lines sd in_triple triple_quote lines))
         (join [NL] lines).
Proof.
  induction lines as [|line rest IH]; intros in_triple triple_quote;
    [constructor|].
  rewrite py_lines_cons. destruct sd.
  - destruct (in_triple && negb (contains triple_quote line)).
    + apply join_subseq_drop. apply IH.
    + assert (H1 : subseq (snd (if in_triple
                                then (false, slice_from line
                                               (find triple_quote line + 3))
                                else (in_triple, line))) line).
      { destruct in_triple; [apply subseq_skipn|apply subseq_refl]. }
      destruct (if in_triple
                then (false, slice_from line (find triple_quote line + 3))
                else (in_triple, line)) as [in_triple1 line1].
      cbn [snd] in H1.
      pose proof (py_open_subseq in_triple1 triple_quote line1) as H2.
      destruct (py_open in_triple1 triple_quote line1)
        as [[in_triple2 triple_quote2] line2].
      cbn [snd] in H2.
      apply join_subseq_keep.
      * apply (subseq_trans _ line2); [apply py_loop_subseq|].
        apply (subseq_trans _ line1); assumption.
      * apply IH.
      * apply py_lines_nil_rest.
  - apply join_subseq_keep;
      [apply py_loop_subseq|apply IH|apply py_lines_nil_rest].
Qed.

(** X23. Python scanner, with or without docstring stripping: the output
    is the input, its line endings turned into newlines, with some
    characters left out; nothing is added or moved. *)
Theorem python_only_deletes (text : str) (strip_docstrings : bool) :
  subseq (strip_python_comments text strip_docstrings)
         (unix_newlines text).
Proof.
  unfold strip_python_comments.
  apply (subseq_trans _ (join [NL] (split NL (unix_newlines text)))).
  - apply py_lines_subseq.
  - rewrite join_split. apply subseq_refl.
Qed.

(** X24. Without docstring stripping the Python scanner returns what the
    hash-line scanner returns, on every text. *)
Theorem python_without_docstrings (text : str) :
  strip_python_comments text false = strip_hash_line_comments text.
Proof.
  unfold strip_python_comments, strip_hash_line_comments.
  rewrite py_lines_plain. reflexivity.
Qed.

(* ------------------------------------------------------------------ *)
(** ** [process_content] *)

Lemma unix_newlines_cons (c : char) (r : str) :
  unix_newlines (c :: r)
  = if eqc c CR
    then if starts_with [NL] r then unix_newlines r
         else NL :: unix_newlines r
    else c :: unix_newlines r.
Proof.
  unfold unix_newlines. rewrite !replace_one. unfold replace.
  rewrite replace_from_cons.
  change (starts_with [CR; NL] (c :: r))
    with (eqc CR c && starts_with [NL] r).
  rewrite (eqc_sym CR c). destruct (eqc c CR) eqn:Ec; cbn [andb].
  - destruct (starts_with [NL] r) eqn:En.
    + destruct r as [|d r]; [discriminate|]. simpl in En.
      rewrite andb_true_r in En. apply eqc_eq in En. subst d.
      change (length [CR; NL] - 1)%nat with 1%nat.
      rewrite (replace_from_cons 1), (replace_from_cons 0).
      change (starts_with [CR; NL] (NL :: r)) with false. cbv iota.
      reflexivity.
    + cbv iota. cbn [map]. cbv beta. rewrite Ec. reflexivity.
  - cbv iota. cbn [map]. cbv beta. rewrite Ec. reflexivity.
Qed.

Lemma subseq_not_head (c : char) (s t : str) :
  starts_with [c] s = false -> subseq s (c :: t) -> subseq s t.
Proof.
  intros Hs H. inversion H; subst; [|assumption].
  simpl in Hs. rewrite eqc_refl in Hs. discriminate.
Qed.

(** Turning the line endings into newlines keeps the relation. *)
Lemma unix_newlines_subseq (n : nat) :
  forall t s, (length t <= n)%nat -> subseq s t ->
  subseq (unix_newlines s) (unix_newlines t).
Proof.
  induction n as [|n IH]; intros t s Hn H.
  - destruct t; [|simpl in Hn; lia]. inversion H; subst. constructor.
  - inversion H as [|c s' t' H'|c s' t' H']; subst.
    + constructor.
    + simpl in Hn. rewrite !unix_newlines_cons.
      destruct (eqc c CR).
      * destruct (starts_with [NL] s') eqn:Es,
                 (starts_with [NL] t') eqn:Et.
        -- apply IH; [lia|exact H'].
        -- apply subseq_drop. apply IH; [lia|exact H'].
        -- destruct t' as [|d t'']; [discriminate|]. simpl in Et.
           rewrite andb_true_r in Et. apply eqc_eq in Et. subst d.
           rewrite unix_newlines_cons. change (eqc NL CR) with false.
           cbv iota. constructor. apply IH; [simpl in Hn; lia|].
           exact (subseq_not_head NL s' t'' Es H').
        -- constructor. apply IH; [lia|exact H'].
      * constructor. apply IH; [lia|exact H'].
    + simpl in Hn. rewrite (unix_newlines_cons c t').
      destruct (eqc c CR).
      * destruct (starts_with [NL] t').
        -- apply IH; [lia|exact H'].
        -- apply subseq_drop. apply IH; [lia|exact H'].
      * apply subseq_drop. apply IH; [lia|exact H'].
Qed.

Lemma hash_line_subseq (text : str) :
  subseq (strip_hash_line_comments text) (unix_newlines text).
Proof.
  unfold strip_hash_line_comments.
  rewrite <- (py_lines_plain _ false []).
  apply (subseq_trans _ (join [NL] (split NL (unix_newlines text)))).
  - apply py_lines_subseq.
  - rewrite join_split. apply subseq_refl.
Qed.

(** X25. Whatever the extension and the two switches, the processed
    content is the raw content, as it is or with its line endings turned
    into newlines, with some characters left out: comment stripping never
    adds, changes or moves text. *)
Theorem process_content_only_deletes
    (lower : str -> str) (text ext : str)
    (strip_comments strip_py_docstrings : bool) :
  let out := process_content lower text ext strip_comments
                             strip_py_docstrings in
  subseq out text \/ subseq out (unix_newlines text).
Proof.
  unfold process_content.
  destruct (negb strip_comments); [left; apply subseq_refl|].
  cbv zeta.
  destruct (eqs (lower ext) (lit ".py")).
  { right.
    apply (subseq_trans _ (join [NL] (split NL (unix_newlines text)))).
    - apply py_lines_subseq.
    - rewrite join_split. apply subseq_refl. }
  destruct (existsb (eqs (lower ext)) HTML_EXTS);
    [left; apply html_sub_subseq|].
  destruct (eqs (lower ext) (lit ".sql"));
    [left; apply (s_loop_subseq (length text)); apply Nat.le_refl|].
  destruct (existsb (eqs (lower ext)) HASH_EXTS);
    [right; apply hash_line_subseq|].
  destruct (existsb (eqs (lower ext)) C_LIKE_EXTS);
    [|left; apply subseq_refl].
  assert (Hc : subseq (strip_c_like_comments text) text)
    by (apply (c_loop_subseq (length text)); apply Nat.le_refl).
  destruct (eqs (lower ext) (lit ".php")); [right|left; exact Hc].
  apply (subseq_trans _ (unix_newlines (strip_c_like_comments text)));
    [apply hash_line_subseq|].
  apply (unix_newlines_subseq (length text)); [apply Nat.le_refl|exact Hc].
Qed.

(* ------------------------------------------------------------------ *)
(** ** [main]: the combined document *)

(** A text that starts with two newlines and an equals sign and ends with
    a character that is not white space and one newline. *)
Lemma normalise_last (text : str) (t k : Z) :
  normalise_whitespace text t k <> [] ->
  exists x c, normalise_whitespace text t k = x ++ [c; NL]
              /\ isspace c = false.
Proof.
  destruct (normalise_shape text t k) as [lines [_ [_ [_ [Hs E]]]]].
  rewrite E. clear E. intros Hne.
  destruct (join [NL] lines) as [|a o] eqn:Ej; [contradiction|].
  pose proof (strip_head (a :: o) a o Hs) as Ha.
  destruct (exists_last (l := a :: o) ltac:(discriminate)) as [o' [y Ey]].
  exists o', y. split; [rewrite Ey, <- app_assoc; reflexivity|].
  destruct (isspace y) eqn:Hy; [|reflexivity]. exfalso.
  unfold strip in Hs. rewrite (lstrip_fixed a o Ha), Ey in Hs.
  rewrite (rstrip_app_space o' y Hy) in Hs.
  pose proof (rstrip_length o') as Hl.
  apply (f_equal (@length N)) in Hs. rewrite length_app in Hs.
  simpl in Hs. lia.
Qed.

Lemma collected_parts_shape (t k : Z) (files : list (str * str)) :
  Forall (fun p => exists m c, p = NL :: NL :: 61%N :: m ++ [c; NL]
                               /\ isspace c = false)
         (collected_parts t k files).
Proof.
  induction files as [|[relpath processed] files IH]; [constructor|].
  simpl collected_parts.
  destruct (normalise_whitespace processed t k) as [|a o] eqn:En;
    [exact IH|].
  constructor; [|exact IH].
  destruct (normalise_last processed t k) as [x [c [Ex Hc]]];
    [rewrite En; discriminate|].
  rewrite <- En, Ex. unfold SEPARATOR.
  exists (lit "==== FILE: " ++ replace [BS] [SLASH] relpath
          ++ lit " =====" ++ [NL; NL] ++ x), c.
  split; [|exact Hc].
  change (lit "===== FILE: ") with (61%N :: lit "==== FILE: ").
  simpl app. rewrite <- !app_assoc. reflexivity.
Qed.

Lemma concat_shape (parts : list str) :
  parts <> [] ->
  Forall (fun p => exists m c, p = NL :: NL :: 61%N :: m ++ [c; NL]
                               /\ isspace c = false) parts ->
  exists m c, concat parts = NL :: NL :: 61%N :: m ++ [c; NL]
              /\ isspace c = false.
Proof.
  intros Hne H. induction H as [|p ps [m [c [Ep Hc]]] Hps IH];
    [contradiction|].
  destruct ps as [|p2 ps].
  - exists m, c. simpl. rewrite app_nil_r. split; assumption.
  - destruct (IH ltac:(discriminate)) as [m2 [c2 [E2 Hc2]]].
    exists (m ++ [c; NL] ++ NL :: NL :: 61%N :: m2), c2.
    split; [|exact Hc2].
    change (concat (p :: p2 :: ps)) with (p ++ concat (p2 :: ps)).
    rewrite E2, Ep. simpl. rewrite <- !app_assoc. reflexivity.
Qed.

Lemma combined_shape (m : str) (c : char) :
  isspace c = false ->
  strip (NL :: NL :: 61%N :: m ++ [c; NL]) ++ [NL]
  = 61%N :: m ++ [c; NL].
Proof.
  intros Hc. unfold strip.
  change (lstrip (NL :: NL :: 61%N :: m ++ [c; NL]))
    with (61%N :: m ++ [c; NL]).
  change (61%N :: m ++ [c; NL]) with ((61%N :: m) ++ [c; NL]) at 1.
  rewrite rstrip_app.
  assert (E : rstrip [c; NL] = [c]).
  { rewrite rstrip_cons. change (rstrip [NL]) with (@nil N).
    rewrite Hc. reflexivity. }
  rewrite E. simpl. rewrite <- app_assoc. reflexivity.
Qed.

(** X26. The combined document is the headers and the normalised contents
    of the files that are not blank, one after the other, without the two
    newlines in front of the first header: trimming the document removes
    nothing else, and every later header keeps its two newlines. *)
Theorem combined_document (t k : Z) (files : list (str * str)) :
  combined (collected_parts t k files)
  = skipn 2 (concat (collected_parts t k files)).
Proof.
  pose proof (collected_parts_shape t k files) as H.
  unfold combined.
  destruct (collected_parts t k files) as [|p ps] eqn:E; [reflexivity|].
  destruct (concat_shape (p :: ps) ltac:(discriminate) H)
    as [m [c [Ec Hc]]].
  rewrite Ec, (combined_shape m c Hc). reflexivity.
Qed.

Lemma collected_parts_nil (t k : Z) (files : list (str * str)) :
  collected_parts t k files = []
  <-> Forall (fun f => blank_text (snd f)) files.
Proof.
  induction files as [|[relpath processed] files IH].
  - split; [constructor|reflexivity].
  - simpl collected_parts.
    pose proof (normalise_nil_iff processed t k) as Hn.
    destruct (normalise_whitespace processed t k) as [|a o].
    + rewrite IH. split.
      * intros H. constructor; [apply Hn; reflexivity|exact H].
      * intros H. inversion H; assumption.
    + split; [discriminate|]. intros H. inversion H as [|? ? Hb _]; subst.
      apply Hn in Hb. discriminate.
Qed.

(** X27. The combined document is empty, so that nothing is written,
    exactly when the processed content of every file holds nothing but
    white space and byte-order marks. *)
Theorem combined_empty_iff (t k : Z) (files : list (str * str)) :
  combined (collected_parts t k files) = []
  <-> Forall (fun f => blank_text (snd f)) files.
Proof.
  rewrite <- (collected_parts_nil t k).
  pose proof (collected_parts_shape t k files) as H.
  unfold combined.
  destruct (collected_parts t k files) as [|p ps] eqn:E;
    [split; reflexivity|].
  split; [|discriminate]. intros Hc. exfalso.
  destruct (strip (concat (p :: ps))); discriminate.
Qed.

(** X28. Whenever there is a combined document to write, the splitter
    returns at least one chunk for it, whatever the budget: at least one
    file is written. *)
Theorem combined_is_written (t k : Z) (files : list (str * str))
                            (max : Z) :
  combined (collected_parts t k files) <> [] ->
  chunk_text (combined (collected_parts t k files)) max <> [].
Proof.
  intros Hne Hch.
  pose proof (chunk_text_visible (combined (collected_parts t k files)) max)
    as Hv.
  rewrite Hch in Hv. simpl in Hv.
  pose proof (collected_parts_shape t k files) as H.
  unfold combined in Hv, Hne.
  destruct (collected_parts t k files) as [|p ps] eqn:E.
  - apply Hne. reflexivity.
  - destruct (concat_shape (p :: ps) ltac:(discriminate) H)
      as [m [c [Ec Hc]]].
    rewrite Ec, (combined_shape m c Hc) in Hv. discriminate.
Qed.

Lemma combined_is_written_witness :
  chunk_text (combined (collected_parts 2 1
                          [(lit "a\b.py", lit "x = 1"); (lit "c.py", [])]))
             5 <> [].
Proof.
  apply combined_is_written. vm_compute. discriminate.
Defined.

(* ------------------------------------------------------------------ *)
(** ** [main]: the names of the output files *)

Lemma digit_step_digit (a m : nat) :
  digit_step a (ZERO + N.of_nat m)%N = (10 * a + m)%nat.
Proof.
  unfold digit_step, ZERO. rewrite N2Nat.inj_add, Nat2N.id.
  change (N.to_nat 48) with 48%nat. lia.
Qed.

Lemma digits_S (fuel n : nat) (acc : str) :
  digits (S fuel) n acc
  = if (n / 10 =? 0)%nat then (ZERO + N.of_nat (n mod 10))%N :: acc
    else digits fuel (n / 10) ((ZERO + N.of_nat (n mod 10))%N :: acc).
Proof. reflexivity. Qed.

Lemma digits_value (fuel : nat) :
  forall n acc, (n <= fuel)%nat ->
  fold_left digit_step (digits fuel n acc) 0%nat
  = fold_left digit_step acc n.
Proof.
  induction fuel as [|fuel IH]; intros n acc Hn.
  - assert (n = 0)%nat by lia. subst n. reflexivity.
  - rewrite digits_S. pose proof (Nat.div_mod_eq n 10) as Hd.
    destruct (Nat.eqb_spec (n / 10) 0) as [E|E].
    + cbn [fold_left]. rewrite digit_step_digit. f_equal. lia.
    + rewrite IH.
      * cbn [fold_left]. rewrite digit_step_digit. f_equal. lia.
      * assert (n / 10 < n)%nat by (apply Nat.div_lt; lia). lia.
Qed.

Lemma int_of_str (n : nat) : int_of (str_of_nat n) = n.
Proof.
  unfold int_of, str_of_nat. rewrite digits_value by lia. reflexivity.
Qed.

Lemma int_of_zfill (width : nat) (s : str) : int_of (zfill width s) = int_of s.
Proof.
  unfold int_of, zfill. rewrite fold_left_app. f_equal.
  induction (width - length s)%nat as [|j IH]; [reflexivity|exact IH].
Qed.

Lemma part_name_inj (prefix : str) (width i j : nat) :
  prefix ++ lit "_part" ++ zfill width (str_of_nat i) ++ lit ".txt"
  = prefix ++ lit "_part" ++ zfill width (str_of_nat j) ++ lit ".txt" ->
  i = j.
Proof.
  intros H. apply app_inv_head in H. apply app_inv_head in H.
  apply app_inv_tail in H. apply (f_equal int_of) in H.
  rewrite !int_of_zfill, !int_of_str in H. exact H.
Qed.

(** X29. For any number of chunks the names of the output files are as
    many as the chunks and differ from one another: no chunk is written
    over another. *)
Theorem out_names_distinct (prefix : str) (n : nat) :
  length (out_names prefix n) = n /\ NoDup (out_names prefix n).
Proof.
  unfold out_names. destruct (Nat.eqb_spec n 1) as [->|Hn].
  - split; [reflexivity|]. constructor; [intros []|constructor].
  - cbv zeta. split; [rewrite length_map, length_seq; reflexivity|].
    set (w := Nat.max 3 (length (str_of_nat n))).
    pose proof (seq_NoDup n 1) as Hs.
    induction Hs as [|i l Hi Hl IH]; [constructor|].
    simpl map. constructor; [|exact IH].
    intros Hin. apply in_map_iff in Hin. destruct Hin as [j [Ej Hj]].
    apply part_name_inj in Ej. subst j. exact (Hi Hj).
Qed.

(* ------------------------------------------------------------------ *)
(** ** Text that is not closed *)












(** The condition on the Python scanner is needed: with docstring
    stripping a line is cut at its first triple quote before it is
    scanned, inside a literal too, and the literal that is not closed
    below loses its end. *)
Example python_docstring_cuts_literal :
  strip_python_comments
    (lit "x = " ++ [DQ] ++ lit "abc" ++ TRIPLE_SQ ++ lit "def") true
  = lit "x = " ++ [DQ] ++ lit "abc".
Proof. reflexivity. Qed.

(* ------------------------------------------------------------------ *)
(** ** The chunks of the combined document *)

Lemma strip_document (m : str) (c : char) :
  isspace c = false -> strip (61%N :: m ++ [c; NL]) = 61%N :: m ++ [c].
Proof.
  intros Hc. unfold strip.
  change (lstrip (61%N :: m ++ [c; NL])) with (61%N :: m ++ [c; NL]).
  change (61%N :: m ++ [c; NL]) with ((61%N :: m) ++ [c; NL]).
  rewrite rstrip_app.
  assert (E : rstrip [c; NL] = [c]).
  { rewrite rstrip_cons. change (rstrip [NL]) with (@nil N).
    rewrite Hc. reflexivity. }
  rewrite E. reflexivity.
Qed.

(** The combined document is empty, or it is a trimmed text that is not
    empty, closed by one newline. *)
Lemma combined_trimmed (t k : Z) (files : list (str * str)) :
  let doc := combined (collected_parts t k files) in
  doc = [] \/ (strip doc <> [] /\ strip doc ++ [NL] = doc).
Proof.
  pose proof (collected_parts_shape t k files) as H.
  unfold combined.
  destruct (collected_parts t k files) as [|p ps] eqn:E;
    [left; reflexivity|right].
  destruct (concat_shape (p :: ps) ltac:(discriminate) H)
    as [m [c [Ec Hc]]].
  rewrite Ec, (combined_shape m c Hc), (strip_document m c Hc).
  split; [discriminate|].
  simpl. rewrite <- app_assoc. reflexivity.
Qed.

(** The chunks of a trimmed text that is closed by one newline: on the
    short way too they are trimmed segments closed by one newline. *)
Lemma chunk_text_trimmed_document (text : str) (max : Z) :
  (0 < max)%Z ->
  text = [] \/ (strip text <> [] /\ strip text ++ [NL] = text) ->
  exists segs,
    concat segs = text
    /\ Forall (fun s => s <> [] /\ (len s <= max)%Z) segs
    /\ chunk_text text max = map trimmed_chunk (filter nonblank segs).
Proof.
  intros Hmax Hdoc.
  destruct (Z.leb_spec (len text) max) as [Hle|Hgt];
    [|exact (chunk_text_segments text max Hmax Hgt)].
  rewrite (chunk_text_whole text max (or_intror Hle)).
  destruct Hdoc as [->|[Hne Hs]].
  - exists []. split; [reflexivity|]. split; [constructor|reflexivity].
  - exists [text]. split; [simpl; apply app_nil_r|].
    split.
    + constructor; [|constructor]. split; [|exact Hle].
      intros ->. apply Hne. reflexivity.
    + cbn [filter]. unfold nonblank.
      destruct (strip text) as [|x o] eqn:Es; [contradiction|].
      cbn [map]. unfold trimmed_chunk. rewrite Es, Hs.
      destruct text; [discriminate|reflexivity].
Qed.

(** C7. For every document that [main] hands to the splitter, which is
    the combined document, and every positive budget: the document is cut
    into consecutive segments that cover it in order, none empty and none
    longer than the budget, and the chunks are these segments, each
    trimmed and closed by one newline, the all-blank segments left out. A
    combined document that fits the budget is returned whole, and it is
    itself a trimmed text closed by one newline. *)
Theorem chunk_text_reconstructs (t k : Z) (files : list (str * str))
                                (max : Z) :
  (0 < max)%Z ->
  exists segs,
    concat segs = combined (collected_parts t k files)
    /\ Forall (fun s => s <> [] /\ (len s <= max)%Z) segs
    /\ chunk_text (combined (collected_parts t k files)) max
       = map trimmed_chunk (filter nonblank segs).
Proof.
  intros Hmax.
  apply chunk_text_trimmed_document; [exact Hmax|].
  apply combined_trimmed.
Qed.

Lemma chunk_text_reconstructs_witness :
  let files := [(lit "a.py", lit "x = 1"); (lit "b.py", lit "y = 2")] in
  (0 < 30)%Z /\
  exists segs,
    concat segs = combined (collected_parts 2 1 files)
    /\ Forall (fun s => s <> [] /\ (len s <= 30)%Z) segs
    /\ chunk_text (combined (collected_parts 2 1 files)) 30
       = map trimmed_chunk (filter nonblank segs).
Proof.
  intros files.
  assert (H1 : (0 < 30)%Z) by lia.
  split; [exact H1|].
  exact (chunk_text_reconstructs 2 1 files 30 H1).
Defined.
